(** * D3 scatterplot scripts: dimensions, scales, data join and hover handlers

    A shallow embedding of the tutorial scripts [drawScatter] (four
    variants) and [drawLineChart] (two samples), together with the
    behaviour of the d3 primitives they call, and the properties of the
    natural-language specification stated over that embedding.

    Numbers are JavaScript numbers idealised as exact rationals extended
    with [NaN] and the two infinities: rounding and signed zeros are left
    out, everything else ([NaN] propagation, comparisons that fail on
    [NaN], division by zero) follows IEEE arithmetic as JavaScript has it. *)

From Stdlib Require Import ZArith QArith Qcanon Qround Lia Ascii String.
From stdpp Require Import gmap strings list fin_maps.

Open Scope Qc_scope.

(** ** JavaScript numbers *)

Module Num.

Definition Qc_ltb (a b : Qc) : bool :=
  match a ?= b with Lt => true | _ => false end.

Definition Qc_leb (a b : Qc) : bool :=
  match a ?= b with Gt => false | _ => true end.

Definition Qc_eqb (a b : Qc) : bool :=
  match a ?= b with Eq => true | _ => false end.

(** The integer [z] and the decimal literal [n/d] as numbers. *)
Definition zq (z : Z) : Qc := Q2Qc (inject_Z z).

Definition lit (n : Z) (d : positive) : Qc := Q2Qc (n # d).

Inductive num : Type :=
| NaN
| Inf (neg : bool)
| Fin (q : Qc).

Definition is_neg (x : Qc) : bool := Qc_ltb x 0.

Definition opp (a : num) : num :=
  match a with
  | NaN => NaN
  | Inf s => Inf (negb s)
  | Fin q => Fin (- q)
  end.

Definition add (a b : num) : num :=
  match a, b with
  | NaN, _ | _, NaN => NaN
  | Inf s, Inf t => if Bool.eqb s t then Inf s else NaN
  | Inf s, Fin _ | Fin _, Inf s => Inf s
  | Fin x, Fin y => Fin (x + y)
  end.

Definition sub (a b : num) : num := add a (opp b).

Definition mul (a b : num) : num :=
  match a, b with
  | NaN, _ | _, NaN => NaN
  | Inf s, Inf t => Inf (xorb s t)
  | Inf s, Fin y | Fin y, Inf s =>
      if Qc_eqb y 0 then NaN else Inf (xorb s (is_neg y))
  | Fin x, Fin y => Fin (x * y)
  end.

Definition div (a b : num) : num :=
  match a, b with
  | NaN, _ | _, NaN => NaN
  | Inf _, Inf _ => NaN
  | Inf s, Fin y => Inf (xorb s (is_neg y))
  | Fin _, Inf _ => Fin 0
  | Fin x, Fin y =>
      if Qc_eqb y 0
      then (if Qc_eqb x 0 then NaN else Inf (is_neg x))
      else Fin (x / y)
  end.

(** [a < b], [a <= b] and [a === b]: all false as soon as one side is [NaN]. *)
Definition ltb (a b : num) : bool :=
  match a, b with
  | NaN, _ | _, NaN => false
  | Inf s, Inf t => s && negb t
  | Inf s, Fin _ => s
  | Fin _, Inf t => negb t
  | Fin x, Fin y => Qc_ltb x y
  end.

Definition leb (a b : num) : bool :=
  match a, b with
  | NaN, _ | _, NaN => false
  | Inf s, Inf t => s || negb t
  | Inf s, Fin _ => s
  | Fin _, Inf t => negb t
  | Fin x, Fin y => Qc_leb x y
  end.

Definition eqb (a b : num) : bool :=
  match a, b with
  | NaN, _ | _, NaN => false
  | Inf s, Inf t => Bool.eqb s t
  | Fin x, Fin y => Qc_eqb x y
  | _, _ => false
  end.

Definition gtb (a b : num) : bool := ltb b a.
Definition geb (a b : num) : bool := leb b a.

Definition isNaN (a : num) : bool :=
  match a with NaN => true | _ => false end.

(** [Math.floor], [Math.ceil] and [Math.round]. *)
Definition floor (a : num) : num :=
  match a with
  | Fin q => Fin (zq (Qfloor q))
  | _ => a
  end.

Definition ceil (a : num) : num :=
  match a with
  | Fin q => Fin (zq (Qceiling q))
  | _ => a
  end.

Definition round (a : num) : num :=
  match a with
  | Fin q => Fin (zq (Qfloor (q + lit 1 2)))
  | _ => a
  end.

(** [Math.max(a, b)]: [NaN] as soon as one argument is. *)
Definition max (a b : num) : num :=
  match a, b with
  | NaN, _ | _, NaN => NaN
  | _, _ => if ltb a b then b else a
  end.

(** Ten to an integer power. *)
Definition pow10Z (k : Z) : Qc :=
  if (0 <=? k)%Z then Qcpower (zq 10) (Z.to_nat k)
  else / Qcpower (zq 10) (Z.to_nat (- k)).

(** The integer [k] with [10^k <= q < 10^(k+1)], for [0 < q]; each step
    moves [q] by a factor of ten towards the interval [1, 10). *)
Fixpoint log10_floor_from (fuel : nat) (q : Qc) (k : Z) : Z :=
  match fuel with
  | O => k
  | S fuel' =>
      if Qc_ltb q 1 then log10_floor_from fuel' (q * zq 10) (k - 1)
      else if Qc_leb (zq 10) q then log10_floor_from fuel' (q / zq 10) (k + 1)
      else k
  end.

Definition log10_floor_Qc (q : Qc) : Z :=
  let n := match Qnum q with Zpos p => Pos.size_nat p | _ => O end in
  log10_floor_from (n + Pos.size_nat (Qden q)) q 0.

(** [Math.floor(Math.log10(a))]. *)
Definition floor_log10 (a : num) : num :=
  match a with
  | NaN => NaN
  | Inf true => NaN
  | Inf false => Inf false
  | Fin q =>
      if Qc_ltb q 0 then NaN
      else if Qc_eqb q 0 then Inf true
      else Fin (zq (log10_floor_Qc q))
  end.

(** [Math.pow(10, p)] for the value [p] of a [floor_log10]: an integer, an
    infinity or [NaN]. *)
Definition pow10 (p : num) : num :=
  match p with
  | NaN => NaN
  | Inf true => Fin 0
  | Inf false => Inf false
  | Fin k => Fin (pow10Z (Qfloor k))
  end.

(** [x >= Math.sqrt(n)] for a number [x]: for finite [x] it is
    [0 <= x] and [n <= x * x]. *)
Definition ge_sqrt (x : num) (n : Z) : bool :=
  match x with
  | NaN => false
  | Inf s => negb s
  | Fin q => Qc_leb 0 q && Qc_leb (zq n) (q * q)
  end.

End Num.

Export Num.

(** ** The d3 primitives the scripts call

    None of d3 is part of the repository: the definitions of this module
    follow the library's behaviour as the specification and the tutorial
    text under src/ describe it.  A JavaScript value that may be
    [undefined] or [null] is an [option]: [None] stands for both, which
    every primitive below treats alike. *)

Module D3.

Abbreviation value := (option num).

(** Unary plus on a value: [+undefined] is [NaN]. *)
Definition to_number (v : value) : num :=
  match v with
  | Some x => x
  | None => NaN
  end.

(** Modelled from the spec: [d3.min] (d3-array, not under src/) returns the
    least value in natural order and ignores [undefined], [null] and [NaN];
    on an array without a comparable value it returns [undefined]. *)
Definition min_step (m : value) (v : value) : value :=
  match v with
  | None => m
  | Some x =>
      match m with
      | Some y => if gtb y x then Some x else m
      | None => if geb x x then Some x else None
      end
  end.

Definition min (values : list value) : value := foldl min_step None values.

(** Modelled from the spec: [d3.extent] (d3-array, not under src/) returns
    the pair [[min, max]] of the accessor's values, skipping missing and
    non-numeric ones; on an empty dataset both ends are [undefined]. *)
Definition extent_step (acc : option (num * num)) (v : value)
  : option (num * num) :=
  match v with
  | None => acc
  | Some x =>
      match acc with
      | None => if geb x x then Some (x, x) else None
      | Some (mn, mx) =>
          Some (if gtb mn x then x else mn, if ltb mx x then x else mx)
      end
  end.

Definition extent {A : Type} (values : list A) (valueof : A → value)
  : value * value :=
  match foldl extent_step None (valueof <$> values) with
  | None => (None, None)
  | Some (mn, mx) => (Some mn, Some mx)
  end.

(** Modelled from the spec: [d3.tickIncrement] (d3-array, not under src/),
    the step of the standard niceing rule: the span divided by the tick
    count, rounded to 1, 2, 5 or 10 times a power of ten.  A step below one
    is returned as the negated inverse, as the library does to keep it
    exact. *)
Definition tickIncrement (start stop count : num) : num :=
  let step := div (sub stop start) (max (Fin 0) count) in
  let power := floor_log10 step in
  let error := div step (pow10 power) in
  let factor :=
    if ge_sqrt error 50 then Fin (zq 10)
    else if ge_sqrt error 10 then Fin (zq 5)
    else if ge_sqrt error 2 then Fin (zq 2)
    else Fin 1 in
  if geb power (Fin 0) then mul factor (pow10 power)
  else div (opp (pow10 (opp power))) factor.

(** Modelled from the spec: the body of the loop of [scale.nice] (d3-scale,
    not under src/).  [prestep] is [None] before the first round.  The
    result is [Some d] when the domain is to be replaced by [d], [None]
    when the loop ends and leaves the domain as it was. *)
Fixpoint nice_loop (maxIter : nat) (count : num) (prestep : value)
    (start stop : num) : option (num * num) :=
  match maxIter with
  | O => None
  | S maxIter' =>
      let step := tickIncrement start stop count in
      if match prestep with Some p => eqb step p | None => false end
      then Some (start, stop)
      else if gtb step (Fin 0) then
        nice_loop maxIter' count (Some step)
          (mul (floor (div start step)) step)
          (mul (ceil (div stop step)) step)
      else if ltb step (Fin 0) then
        nice_loop maxIter' count (Some step)
          (div (ceil (mul start step)) step)
          (div (floor (mul stop step)) step)
      else None
  end.

(** A continuous scale with a two-element domain and range.  [R] is the
    type of the range: [num] for the position scales, a colour for the
    colour scale. *)
Record scale (R : Type) : Type := mkScale {
  domain : num * num;
  range : R * R;
  interpolate : R → R → num → R;
}.

Arguments mkScale {R} _ _ _.
Arguments domain {R} _.
Arguments range {R} _.
Arguments interpolate {R} _.

(** [d3.interpolateNumber]. *)
Definition interpolateNumber (a b t : num) : num :=
  add (mul a (sub (Fin 1) t)) (mul b t).

(** [d3.scaleLinear()]: domain and range are both [[0, 1]]. *)
Definition scaleLinear : scale num :=
  mkScale (Fin 0, Fin 1) (Fin 0, Fin 1) interpolateNumber.

(** [scale.domain([a, b])]: both ends are coerced to numbers. *)
Definition set_domain {R : Type} (d : value * value) (s : scale R) : scale R :=
  mkScale (to_number (fst d), to_number (snd d)) (range s) (interpolate s).

(** [scale.range([a, b])]; a range of another type brings its interpolator. *)
Definition set_range {R S : Type} (r : S * S) (interp : S → S → num → S)
    (s : scale R) : scale S :=
  mkScale (domain s) r interp.

(** Modelled from the spec: [scale.nice()] (d3-scale, not under src/) with
    the default tick count of ten: the domain is extended to the nearest
    round multiples of the step; a domain given in descending order is
    niced end for end. *)
Definition nice {R : Type} (s : scale R) : scale R :=
  let (d0, d1) := domain s in
  if ltb d1 d0 then
    match nice_loop 10 (Fin (zq 10)) None d1 d0 with
    | Some (start, stop) => mkScale (stop, start) (range s) (interpolate s)
    | None => s
    end
  else
    match nice_loop 10 (Fin (zq 10)) None d0 d1 with
    | Some (start, stop) => mkScale (start, stop) (range s) (interpolate s)
    | None => s
    end.

(** Modelled from the spec: the linear map of a continuous scale (d3-scale,
    not under src/).  [normalize a b] sends [a] to 0 and [b] to 1; a domain
    of width zero is sent to 1/2, a [NaN] one to [NaN]. *)
Definition normalize (a b : num) (x : num) : num :=
  let w := sub b a in
  match w with
  | NaN => NaN
  | Fin q => if Qc_eqb q 0 then Fin (lit 1 2) else div (sub x a) w
  | Inf _ => div (sub x a) w
  end.

Definition bimap {R : Type} (s : scale R) (x : num) : R :=
  let (d0, d1) := domain s in
  let (r0, r1) := range s in
  if ltb d1 d0 then interpolate s r1 r0 (normalize d1 d0 x)
  else interpolate s r0 r1 (normalize d0 d1 x).

(** Applying a scale: [undefined], [null] and [NaN] give [undefined]. *)
Definition apply {R : Type} (s : scale R) (x : value) : option R :=
  match x with
  | None => None
  | Some v => if isNaN v then None else Some (bimap s v)
  end.

(** Colours, as d3-color reads them: three channels. *)
Record rgb : Type := mkRgb { red : Z; green : Z; blue : Z }.

Definition skyblue : rgb := mkRgb 135 206 235.
Definition darkslategrey : rgb := mkRgb 47 79 79.

(** A channel is printed rounded and clamped to [0, 255]; [NaN] prints as 0. *)
Definition clampi (v : num) : Z :=
  match round v with
  | NaN => 0
  | Inf neg => if neg then 0 else 255
  | Fin q => Z.max 0 (Z.min 255 (Qfloor q))
  end.

Definition interpolateChannel (a b : Z) (t : num) : Z :=
  if (b - a =? 0)%Z then a
  else clampi (add (Fin (zq a)) (mul t (Fin (zq (b - a))))).

(** [d3.interpolateRgb], the interpolator a scale takes for a range of
    colours. *)
Definition interpolateRgb (a b : rgb) (t : num) : rgb :=
  mkRgb (interpolateChannel (red a) (red b) t)
        (interpolateChannel (green a) (green b) t)
        (interpolateChannel (blue a) (blue b) t).

End D3.


(** ** Records of the weather dataset

    One element of the array [d3.json] resolves to.  A field that is
    absent (or [null]) in the JSON text is [None]; a number of a JSON text
    is finite. *)

Record record : Type := mkRecord {
  dewPoint : option Qc;
  humidity : option Qc;
  cloudCover : option Qc;
  date : option string;
}.

(** ** The document

    The document is kept flat.  [bounds] lists the descendants of the
    group the script draws in (the constant [bounds] of [drawScatter]), in
    document order; [page] lists every other element of the document.  The
    element [#tooltip] of index.html and the text of the spans inside it
    have fields of their own.  What an axis generator draws inside its
    group (domain path, ticks) is not represented: no selector of the
    scripts matches it.  An element is identified by [eid]; a selection is
    the list of the identifiers of its nodes. *)

Module Dom.

(** The two listeners a script registers. *)
Inductive handler : Type := OnMouseEnter | OnMouseLeave.

(** A piece of a template literal: text, or an interpolated number. *)
Inductive piece : Type :=
| Lit (s : string)
| Hole (x : num).

(** What an attribute, a style property or a text node holds.  Strings
    that a library computes from a number are kept symbolic. *)
Inductive aval : Type :=
| ANum (x : num)
| AStr (s : string)
| AColor (c : D3.rgb)
| ATemplate (ps : list piece)
| ACell (i : nat)                                      (* what voronoi.renderCell(i) leaves *)
| AFormat (specifier : string) (v : D3.value)          (* d3.format(specifier)(v) *)
| ADate (format parse : string) (s : option string).   (* d3.timeFormat(format)(d3.timeParse(parse)(s)) *)

Record element : Type := mkElement {
  eid : nat;
  tag : string;
  attrs : gmap string aval;
  styles : gmap string aval;
  datum : option record;                 (* __data__ *)
  listeners : gmap string handler;
  text : option aval;
}.

Record world : Type := mkWorld {
  dataset : list record;                 (* the array the fetch resolved to *)
  page : list element;
  tooltip : element;
  tooltip_text : gmap string aval;
  bounds : list element;
  next_id : nat;
}.

Abbreviation selection := (list nat).

(** A computation of the script: it reads and changes the world. *)
Definition M (A : Type) : Type := world → A * world.

#[export] Instance M_ret : MRet M := λ A a w, (a, w).

#[export] Instance M_bind : MBind M :=
  λ A B k m w, let (a, w') := m w in k a w'.

Definition exec {A : Type} (m : M A) (w : world) : world := snd (m w).

(** Method chaining: [m .> f] runs [m] and hands its selection to [f]. *)
Notation "m .> f" := (mbind f m) (at level 57, left associativity).

(** *** Elements *)

Definition new_element (i : nat) (t : string) (d : option record) : element :=
  mkElement i t ∅ ∅ d ∅ None.

Definition set_attr (name : string) (v : option aval) (e : element) : element :=
  mkElement (eid e) (tag e)
    (match v with Some x => <[name := x]> (attrs e) | None => delete name (attrs e) end)
    (styles e) (datum e) (listeners e) (text e).

Definition set_style (name : string) (v : option aval) (e : element) : element :=
  mkElement (eid e) (tag e) (attrs e)
    (match v with Some x => <[name := x]> (styles e) | None => delete name (styles e) end)
    (datum e) (listeners e) (text e).

Definition set_datum (d : option record) (e : element) : element :=
  mkElement (eid e) (tag e) (attrs e) (styles e) d (listeners e) (text e).

Definition set_listener (type : string) (h : handler) (e : element) : element :=
  mkElement (eid e) (tag e) (attrs e) (styles e) (datum e)
    (<[type := h]> (listeners e)) (text e).

Definition set_text (v : aval) (e : element) : element :=
  mkElement (eid e) (tag e) (attrs e) (styles e) (datum e) (listeners e) (Some v).

Definition attr_is (name value : string) (e : element) : bool :=
  match attrs e !! name with
  | Some (AStr s) => String.eqb s value
  | _ => false
  end.

(** The selectors of the scripts: [.class], [#id] or a tag name. *)
Definition matches (selector : string) (e : element) : bool :=
  match selector with
  | String "."%char c => attr_is "class" c e
  | String "#"%char i => attr_is "id" i e
  | _ => String.eqb (tag e) selector
  end.

(** *** Selections *)

Fixpoint index_of (i : nat) (s : selection) : option nat :=
  match s with
  | [] => None
  | j :: s' => if Nat.eqb i j then Some O else S <$> index_of i s'
  end.

Definition member (i : nat) (s : selection) : bool :=
  match index_of i s with Some _ => true | None => false end.

(** Apply [f k] to the node that is the [k]-th of the selection. *)
Definition update_nodes (s : selection) (f : nat → element → element)
    (l : list element) : list element :=
  (λ e, match index_of (eid e) s with Some k => f k e | None => e end) <$> l.

Definition update_world (s : selection) (f : nat → element → element)
    (w : world) : world :=
  mkWorld (dataset w) (update_nodes s f (page w)) (tooltip w) (tooltip_text w)
    (update_nodes s f (bounds w)) (next_id w).

Definition ids (l : list element) : selection := eid <$> l.

(** [bounds.selectAll(selector)]: the matching descendants of the bounds
    group, in document order. *)
Definition selectAll (selector : string) : M selection :=
  λ w, (ids (filter (λ e, matches selector e = true) (bounds w)), w).

(** [d3.selectAll(selector)]: the matching elements of the whole document. *)
Definition d3_selectAll (selector : string) : M selection :=
  λ w, (ids (filter (λ e, matches selector e = true) (page w ++ bounds w)), w).

(** [selection.attr(name, value)] with a constant; [null] removes the
    attribute. *)
Definition attr (name : string) (v : option aval) (s : selection) : M selection :=
  λ w, (s, update_world s (λ _, set_attr name v) w).

(** [selection.attr(name, f)]: [f] receives the datum bound to the node and
    the index of the node in the selection.  The callbacks of the scripts
    read fields of the datum, which throws on a node without one: such a
    node is left as it is. *)
Definition attr_fn (name : string) (f : record → nat → option aval)
    (s : selection) : M selection :=
  λ w, (s, update_world s
             (λ k e, match datum e with
                     | Some d => set_attr name (f d k) e
                     | None => e
                     end) w).

Definition style (name : string) (v : option aval) (s : selection) : M selection :=
  λ w, (s, update_world s (λ _, set_style name v) w).

Definition on (type : string) (h : handler) (s : selection) : M selection :=
  λ w, (s, update_world s (λ _, set_listener type h) w).

Definition set_content (v : aval) (s : selection) : M selection :=
  λ w, (s, update_world s (λ _, set_text v) w).

(** [selection.remove()]: the nodes leave the document. *)
Definition remove_nodes (s : selection) (l : list element) : list element :=
  filter (λ e, member (eid e) s = false) l.

Definition remove (s : selection) : M selection :=
  λ w, (s, mkWorld (dataset w) (remove_nodes s (page w)) (tooltip w)
             (tooltip_text w) (remove_nodes s (bounds w)) (next_id w)).

(** [bounds.append(tag)]: a new last child of the bounds group.  The group
    carries no datum, so neither does the child. *)
Definition append (t : string) : M selection :=
  λ w, ([next_id w],
        mkWorld (dataset w) (page w) (tooltip w) (tooltip_text w)
          (bounds w ++ [new_element (next_id w) t None]) (S (next_id w))).

(** Appending outside the bounds group (the [svg] element and the group
    itself). *)
Definition append_page (t : string) : M selection :=
  λ w, ([next_id w],
        mkWorld (dataset w) (page w ++ [new_element (next_id w) t None])
          (tooltip w) (tooltip_text w) (bounds w) (S (next_id w))).

(** The result of [selection.data(array)], joined by index: the nodes
    that keep a datum, the data without a node, the nodes without a datum. *)
Record joined : Type := mkJoined {
  update : selection;
  enter : list record;
  exit : selection;
}.

(** Modelled from the spec: [selection.data(array)] (d3-selection, not
    under src/) without a key function: the [i]-th node is bound to the
    [i]-th record. *)
Definition data (D : list record) (s : selection) : M joined :=
  λ w, (mkJoined (take (length D) s) (drop (length s) D) (drop (length D) s),
        update_world (take (length D) s) (λ k, set_datum (D !! k)) w).

(** [enter.append(tag)]: one new element per entering record, bound to it,
    after the last child of the bounds group. *)
Fixpoint create_all (t : string) (i : nat) (ds : list record) : list element :=
  match ds with
  | [] => []
  | d :: ds' => new_element i t (Some d) :: create_all t (S i) ds'
  end.

Definition enter_append (t : string) (j : joined) : M selection :=
  λ w, (seq (next_id w) (length (enter j)),
        mkWorld (dataset w) (page w) (tooltip w) (tooltip_text w)
          (bounds w ++ create_all t (next_id w) (enter j))
          (next_id w + length (enter j))).

(** [selection.order()]: from the last node to the first, a node that does
    not precede its successor in the document is moved right before it. *)
Definition position (i : nat) (l : list element) : option nat := index_of i (ids l).

Definition precedes (l : list element) (i j : nat) : bool :=
  match position i l, position j l with
  | Some p, Some q => p <? q
  | _, _ => false
  end.

Definition insert_before (i next : nat) (l : list element) : list element :=
  match position i l with
  | None => l
  | Some p =>
      match l !! p with
      | None => l
      | Some e =>
          let l' := remove_nodes [i] l in
          match position next l' with
          | Some q => take q l' ++ e :: drop q l'
          | None => l
          end
      end
  end.

Fixpoint order_from (before : list nat) (next : nat) (l : list element)
  : list element :=
  match before with
  | [] => l
  | node :: before' =>
      order_from before' node
        (if precedes l node next then l else insert_before node next l)
  end.

Definition order_nodes (s : selection) (l : list element) : list element :=
  match reverse s with
  | [] => l
  | last :: before => order_from before last l
  end.

Definition order (s : selection) : M selection :=
  λ w, (s, mkWorld (dataset w) (page w) (tooltip w) (tooltip_text w)
             (order_nodes s (bounds w)) (next_id w)).

(** Modelled from the spec: [selection.join(tag)] (d3-selection, not under
    src/): entering records get a new element, exiting nodes are removed,
    and the merged selection of kept and new nodes is returned in order. *)
Definition join (t : string) (j : joined) : M selection :=
  entered ← enter_append t j;
  remove (exit j);;
  order (update j ++ entered).

End Dom.

(** ** What the scripts share

    The four [drawScatter] scripts repeat the same code for the accessors,
    the dimensions, the canvas, the scales and the peripherals; it is
    embedded once, with the margins as a parameter. *)

Module Chart.

Import Dom D3.

(** [window.innerWidth] and [window.innerHeight]: integers. *)
Record viewport : Type := mkViewport {
  innerWidth : Z;
  innerHeight : Z;
}.

Record margins : Type := mkMargins {
  top : Qc;
  right : Qc;
  bottom : Qc;
  left : Qc;
}.

Record dimensions : Type := mkDimensions {
  width : value;
  height : value;
  margin : margins;
  boundedWidth : num;
  boundedHeight : num;
}.

(** The constants a handler closes over. *)
Record env : Type := mkEnv {
  dims : dimensions;
  xScale : scale num;
  yScale : scale num;
  colorScale : scale rgb;
}.

Definition xAccessor (d : record) : value := Fin <$> dewPoint d.
Definition yAccessor (d : record) : value := Fin <$> humidity d.
Definition colorAccessor (d : record) : value := Fin <$> cloudCover d.

(** [let dataset = await d3.json(...)], once the fetch has resolved to
    [json]. *)
Definition load (json : list record) : M (list record) :=
  λ w, (json, mkWorld json (page w) (tooltip w) (tooltip_text w) (bounds w)
                (next_id w)).

(** 2. Create chart dimensions *)
Definition chart_width (vp : viewport) : value :=
  D3.min [Some (mul (Fin (zq (innerWidth vp))) (Fin (lit 9 10)));
          Some (mul (Fin (zq (innerHeight vp))) (Fin (lit 9 10)))].

Definition make_dimensions (m : margins) (vp : viewport) : dimensions :=
  let width := chart_width vp in
  let dimensions := mkDimensions width width m NaN NaN in
  let boundedWidth :=
    sub (sub (to_number (Chart.width dimensions)) (Fin (left m))) (Fin (right m)) in
  let boundedHeight :=
    sub (sub (to_number (Chart.height dimensions)) (Fin (top m))) (Fin (bottom m)) in
  mkDimensions width width m boundedWidth boundedHeight.

(** 3. Draw canvas.  [wrapper.append("g")] starts a new, empty bounds
    group; what an earlier group held stays in the document. *)
Definition append_group : M selection :=
  λ w, ([next_id w],
        mkWorld (dataset w)
          (page w ++ bounds w ++ [new_element (next_id w) "g" None])
          (tooltip w) (tooltip_text w) [] (S (next_id w))).

Definition draw_canvas (dimensions : dimensions) : M selection :=
  append_page "svg"
    .> attr "width" (ANum <$> width dimensions)
    .> attr "height" (ANum <$> height dimensions);;
  append_group
    .> style "transform"
         (Some (ATemplate [Lit "translate("; Hole (Fin (left (margin dimensions)));
                           Lit "px, "; Hole (Fin (top (margin dimensions)));
                           Lit "px)"])).

(** 4. Create scales *)
Definition make_xScale (dataset : list record) (dimensions : dimensions)
  : scale num :=
  nice (set_range (Fin 0, boundedWidth dimensions) interpolateNumber
          (set_domain (extent dataset xAccessor) scaleLinear)).

Definition make_yScale (dataset : list record) (dimensions : dimensions)
  : scale num :=
  nice (set_range (boundedHeight dimensions, Fin 0) interpolateNumber
          (set_domain (extent dataset yAccessor) scaleLinear)).

Definition make_colorScale (dataset : list record) : scale rgb :=
  set_range (skyblue, darkslategrey) interpolateRgb
    (set_domain (extent dataset colorAccessor) scaleLinear).

Definition make_env (dataset : list record) (dimensions : dimensions) : env :=
  mkEnv dimensions (make_xScale dataset dimensions)
    (make_yScale dataset dimensions) (make_colorScale dataset).

(** 5. Draw data: the render pipeline of the dots, in its two forms. *)
Definition draw_dots_enter (dataset : list record) : M selection :=
  selectAll "circle" .> data dataset .> enter_append "circle".

Definition draw_dots (e : env) (dataset : list record) : M selection :=
  dots ← selectAll "circle" .> data dataset;
  join "circle" dots
    .> attr_fn "cx" (λ d _, ANum <$> apply (xScale e) (xAccessor d))
    .> attr_fn "cy" (λ d _, ANum <$> apply (yScale e) (yAccessor d))
    .> attr "r" (Some (ANum (Fin (zq 5))))
    .> attr_fn "fill" (λ d _, AColor <$> apply (colorScale e) (colorAccessor d)).

(** The tessellation cells, one path per record; the geometry is the
    library's and stays symbolic.  [ACell i] stands for what
    [.attr("d", voronoi.renderCell(i))] leaves on the [i]-th path: the
    outline of the cell, or no attribute at all where the library returns
    nothing for a cell (as it does for points without coordinates).  The
    two are not told apart here, and no statement reads the attribute. *)
Definition draw_voronoi (dataset : list record) : M selection :=
  selectAll ".voronoi" .> data dataset .> join "path"
    .> attr "class" (Some (AStr "voronoi"))
    .> attr_fn "d" (λ _ i, Some (ACell i))
    .> attr "stroke" (Some (AStr "salmon"))
    .> attr "fill" (Some (AStr "transparent")).

(** 6. Draw peripherals.  An axis generator sets these attributes on its
    group. *)
Definition call_axis (anchor : string) (s : selection) : M selection :=
  attr "fill" (Some (AStr "none")) s
    .> attr "font-size" (Some (ANum (Fin (zq 10))))
    .> attr "font-family" (Some (AStr "sans-serif"))
    .> attr "text-anchor" (Some (AStr anchor)).

(** [axis.append("text")]: the axis group is the last child of the bounds
    group when the scripts call this, so that the label is the last node
    in document order. *)
Definition append_in (parent : selection) (t : string) : M selection :=
  match parent with
  | [] => mret []
  | _ => append t
  end.

Definition draw_xAxis (dimensions : dimensions) : M selection :=
  append "g" .> call_axis "middle"
    .> style "transform"
         (Some (ATemplate [Lit "translateY("; Hole (boundedHeight dimensions);
                           Lit "px)"])).

Definition draw_yAxis : M selection :=
  append "g" .> call_axis "end".

(** 7. Set up interactions: the tooltip element. *)
Definition tooltip_style (name : string) (v : aval) : M unit :=
  λ w, (tt, mkWorld (dataset w) (page w) (set_style name (Some v) (tooltip w))
              (tooltip_text w) (bounds w) (next_id w)).

(** [tooltip.select("#id").text(v)]: nothing happens without such a span. *)
Definition tooltip_set_text (id : string) (v : aval) : M unit :=
  λ w, (tt, mkWorld (dataset w) (page w) (tooltip w)
              (alter (λ _, v) id (tooltip_text w)) (bounds w) (next_id w)).

Definition tooltip_fields (d : record) : M unit :=
  tooltip_set_text "humidity" (AFormat ".2f" (yAccessor d));;
  tooltip_set_text "dew-point" (AFormat ".2f" (xAccessor d));;
  tooltip_set_text "date" (ADate "%B %A %-d, %Y" "%Y-%m-%d" (date d)).

Definition tooltip_move (e : env) (d : record) (close : string) : M unit :=
  let x := add (to_number (apply (xScale e) (xAccessor d)))
               (Fin (left (margin (dims e)))) in
  let y := add (to_number (apply (yScale e) (yAccessor d)))
               (Fin (top (margin (dims e)))) in
  tooltip_style "transform"
    (ATemplate [Lit "translate( calc( -50% + "; Hole x;
                Lit "px), calc(-100% + "; Hole y; Lit close]).

(** The highlight mark of a hovered record. *)
Definition append_dayDot (e : env) (d : record) : M selection :=
  append "circle"
    .> attr "class" (Some (AStr "tooltipDot"))
    .> attr "cx" (ANum <$> apply (xScale e) (xAccessor d))
    .> attr "cy" (ANum <$> apply (yScale e) (yAccessor d))
    .> attr "r" (Some (ANum (Fin (zq 7))))
    .> style "fill" (Some (AStr "maroon"))
    .> style "pointer-events" (Some (AStr "none")).

(** An event of the given type on the node [target] of the bounds group
    the script has drawn last, the group its handlers close over.  A node
    styled [pointer-events: none] is never the target of a pointer event; a
    node without a listener of that type ignores it.  The listener receives
    the datum of the node (it reads its fields, which throws without one).
    Events on nodes outside that group (the cells of an earlier run among
    them, whose handlers close over another group) are not modelled. *)
Definition receives_pointer_events (e : element) : bool :=
  match styles e !! "pointer-events" with
  | Some (AStr "none") => false
  | _ => true
  end.

Definition dispatch (run : handler → record → M unit) (type : string)
    (target : nat) : M unit :=
  λ w, match position target (bounds w) with
       | None => (tt, w)
       | Some p =>
           match bounds w !! p with
           | None => (tt, w)
           | Some e =>
               if receives_pointer_events e then
                 match listeners e !! type, datum e with
                 | Some h, Some d => run h d w
                 | _, _ => (tt, w)
                 end
               else (tt, w)
           end
       end.

End Chart.

(** ** The scripts *)

(** src/unnamed/part_000: the dots are drawn with [enter().append]. *)
Module Part000.

Import Dom D3 Chart.

Definition margin : margins := mkMargins (zq 10) (zq 10) (zq 50) (zq 50).

Definition drawScatter (json : list record) (vp : viewport) : M unit :=
  dataset ← load json;
  let dimensions := make_dimensions margin vp in
  draw_canvas dimensions;;
  draw_dots_enter dataset;;
  mret tt.

End Part000.

(** src/unnamed/part_001: join, tessellation cells with the listeners, a
    tooltip without highlight mark. *)
Module Part001.

Import Dom D3 Chart.

Definition margin : margins := mkMargins (zq 10) (zq 10) (zq 50) (zq 50).

Definition onMouseEnter (e : env) (d : record) : M unit :=
  tooltip_fields d;;
  tooltip_set_text "cover"
    (ATemplate [Hole (mul (to_number (colorAccessor d)) (Fin (zq 100))); Lit "%"]);;
  tooltip_move e d "px) )";;
  tooltip_style "opacity" (ANum (Fin 1)).

Definition onMouseLeave : M unit :=
  tooltip_style "opacity" (ANum (Fin 0)).

Definition run (e : env) (h : handler) (d : record) : M unit :=
  match h with
  | OnMouseEnter => onMouseEnter e d
  | OnMouseLeave => onMouseLeave
  end.

Definition drawScatter (json : list record) (vp : viewport) : M env :=
  dataset ← load json;
  let dimensions := make_dimensions margin vp in
  draw_canvas dimensions;;
  let e := make_env dataset dimensions in
  draw_dots e dataset;;
  draw_voronoi dataset
    .> on "mouseenter" OnMouseEnter
    .> on "mouseleave" OnMouseLeave;;
  xAxis ← draw_xAxis dimensions;
  append_in xAxis "text"
    .> attr "x" (Some (ANum (div (boundedWidth dimensions) (Fin (zq 2)))))
    .> attr "y" (Some (ANum (sub (Fin (bottom (Chart.margin dimensions))) (Fin (zq 10)))))
    .> attr "fill" (Some (AStr "black"))
    .> style "font-size" (Some (AStr "1.4em"))
    .> set_content (AStr "Dew point (&deg;F)");;
  yAxis ← draw_yAxis;
  append_in yAxis "text"
    .> attr "x" (Some (ANum (div (opp (boundedHeight dimensions)) (Fin (zq 2)))))
    .> attr "y" (Some (ANum (add (opp (Fin (left (Chart.margin dimensions)))) (Fin (zq 15)))))
    .> attr "fill" (Some (AStr "black"))
    .> style "font-size" (Some (AStr "1.4em"))
    .> set_content (AStr "Relative humidity")
    .> style "transform" (Some (AStr "rotate(-90deg)"))
    .> style "text-anchor" (Some (AStr "middle"));;
  mret e.

End Part001.

(** src/unnamed/part_004: a background rectangle, labels styled by class,
    a highlight mark on hover. *)
Module Part004.

Import Dom D3 Chart.

Definition margin : margins := mkMargins (zq 20) (zq 20) (zq 50) (zq 70).

Definition onMouseEnter (e : env) (d : record) : M unit :=
  append_dayDot e d;;
  tooltip_style "opacity" (ANum (Fin 1));;
  tooltip_fields d;;
  tooltip_move e d "px) )".

Definition onMouseLeave : M unit :=
  (* tooltip.style("opacity", 0); is commented out in the script *)
  d3_selectAll ".tooltipDot" .> remove;;
  mret tt.

Definition run (e : env) (h : handler) (d : record) : M unit :=
  match h with
  | OnMouseEnter => onMouseEnter e d
  | OnMouseLeave => onMouseLeave
  end.

Definition drawScatter (json : list record) (vp : viewport) : M env :=
  dataset ← load json;
  let dimensions := make_dimensions margin vp in
  draw_canvas dimensions;;
  append "rect"
    .> attr "width"
         (Some (ANum (sub (sub (to_number (width dimensions))
                               (Fin (right (Chart.margin dimensions))))
                          (Fin (left (Chart.margin dimensions))))))
    .> attr "height"
         (Some (ANum (sub (sub (to_number (height dimensions))
                               (Fin (top (Chart.margin dimensions))))
                          (Fin (bottom (Chart.margin dimensions))))))
    .> attr "fill" (Some (AStr "#eeeeee"));;
  let e := make_env dataset dimensions in
  draw_dots e dataset;;
  xAxis ← draw_xAxis dimensions;
  append_in xAxis "text"
    .> attr "x" (Some (ANum (div (boundedWidth dimensions) (Fin (zq 2)))))
    .> attr "y" (Some (ANum (sub (Fin (bottom (Chart.margin dimensions))) (Fin (zq 10)))))
    .> attr "class" (Some (AStr "x-axis-label"))
    .> set_content (AStr "Dew point (&deg;F)");;
  yAxis ← draw_yAxis;
  append_in yAxis "text"
    .> attr "x" (Some (ANum (div (opp (boundedHeight dimensions)) (Fin (zq 2)))))
    .> attr "y" (Some (ANum (add (opp (Fin (left (Chart.margin dimensions)))) (Fin (zq 30)))))
    .> attr "class" (Some (AStr "y-axis-label"))
    .> set_content (AStr "Relative humidity");;
  draw_voronoi dataset
    .> on "mouseenter" OnMouseEnter
    .> on "mouseleave" OnMouseLeave;;
  mret e.

End Part004.

(** src/unnamed/part_005: the listeners are registered on the cells after
    the peripherals; leaving hides the tooltip and removes the highlight
    marks. *)
Module Part005.

Import Dom D3 Chart.

Definition margin : margins := mkMargins (zq 10) (zq 10) (zq 50) (zq 50).

Definition onMouseEnter (e : env) (d : record) : M unit :=
  append_dayDot e d;;
  tooltip_style "opacity" (ANum (Fin 1));;
  tooltip_fields d;;
  tooltip_move e d "px))".

Definition onMouseLeave : M unit :=
  tooltip_style "opacity" (ANum (Fin 0));;
  d3_selectAll ".tooltipDot" .> remove;;
  mret tt.

Definition run (e : env) (h : handler) (d : record) : M unit :=
  match h with
  | OnMouseEnter => onMouseEnter e d
  | OnMouseLeave => onMouseLeave
  end.

Definition drawScatter (json : list record) (vp : viewport) : M env :=
  dataset ← load json;
  let dimensions := make_dimensions margin vp in
  draw_canvas dimensions;;
  let e := make_env dataset dimensions in
  draw_dots e dataset;;
  draw_voronoi dataset;;
  xAxis ← draw_xAxis dimensions;
  append_in xAxis "text"
    .> attr "x" (Some (ANum (div (boundedWidth dimensions) (Fin (zq 2)))))
    .> attr "y" (Some (ANum (sub (Fin (bottom (Chart.margin dimensions))) (Fin (zq 10)))))
    .> attr "fill" (Some (AStr "black"))
    .> style "font-size" (Some (AStr "1.4em"))
    .> set_content (AStr "Dew point (&deg;F)");;
  yAxis ← draw_yAxis;
  append_in yAxis "text"
    .> attr "x" (Some (ANum (div (opp (boundedWidth dimensions)) (Fin (zq 2)))))
    .> attr "y" (Some (ANum (add (opp (Fin (left (Chart.margin dimensions)))) (Fin (zq 12)))))
    .> attr "fill" (Some (AStr "black"))
    .> style "font-size" (Some (AStr "1.4em"))
    .> set_content (AStr "Relative Humidity")
    .> style "transform" (Some (AStr "rotate(-90deg"))
    .> style "text-anchor" (Some (AStr "middle"));;
  selectAll ".voronoi"
    .> on "mouseenter" OnMouseEnter
    .> on "mouseleave" OnMouseLeave;;
  mret e.

End Part005.

(** src/samples/20-line-chart/index.js and src/samples/21-area-chart/index.js:
    the loop that rewrites the fetched records.  An object is a finite map
    from property names to values; the array under [values] is kept apart
    from the other properties of a company.  What d3 or a coercion computes
    from a string stays symbolic. *)
Module LineChart.

Inductive jsval : Type :=
| JUndefined
| JNull
| JBool (b : bool)
| JNum (x : num)
| JStr (s : string)
| JParsedTime (specifier : string) (v : jsval)   (* d3.timeParse(specifier)(v): a Date or null *)
| JPlus (v : jsval).                             (* the number +v *)

Record company : Type := mkCompany {
  properties : gmap string jsval;
  values : list (gmap string jsval);
}.

(** Reading a property: [undefined] when the object has none. *)
Definition get (o : gmap string jsval) (k : string) : jsval :=
  default JUndefined (o !! k).

(** [var parseTime = d3.timeParse("%Y/%m/%d")] *)
Definition parseTime (v : jsval) : jsval := JParsedTime "%Y/%m/%d" v.

(** Unary plus. *)
Definition plus (v : jsval) : jsval :=
  match v with
  | JNum x => JNum x
  | JUndefined => JNum NaN
  | JNull => JNum (Fin 0)
  | JBool b => JNum (Fin (if b then 1 else 0))
  | JPlus u => JPlus u
  | _ => JPlus v
  end.

(** The body of the inner loop: [d.date = parseTime(d.date); d.close = +d.close]. *)
Definition parse_value (d : gmap string jsval) : gmap string jsval :=
  let d := <["date" := parseTime (get d "date")]> d in
  <["close" := plus (get d "close")]> d.

(** [dataset.forEach((company) => company.values.forEach(...))].  The
    fetched array is a tree (no object occurs twice in it), so that the
    loop in place is a map. *)
Definition parse_dataset (dataset : list company) : list company :=
  (λ co, mkCompany (properties co) (parse_value <$> values co)) <$> dataset.

End LineChart.

(** src/unnamed/part_002 and src/unnamed/part_003, the text of the
    tutorial: the snippets of the sections on drawing the data and on data
    joins, which the finished scripts no longer hold (part_000 keeps the
    loop as a comment). *)
Module Tutorial.

Import Dom D3 Chart.

(** [array.forEach(f)]: the results of [f] are dropped. *)
Fixpoint forEach {A B : Type} (f : A → M B) (l : list A) : M unit :=
  match l with
  | [] => mret tt
  | x :: l' => f x;; forEach f l'
  end.

(** [dataset.forEach((d) => { bounds.append("circle")... })] *)
Definition draw_dots_forEach (e : env) (dataset : list record) : M unit :=
  forEach (λ d,
    append "circle"
      .> attr "cx" (ANum <$> apply (xScale e) (xAccessor d))
      .> attr "cy" (ANum <$> apply (yScale e) (yAccessor d))
      .> attr "r" (Some (ANum (Fin (zq 5))))) dataset.

(** Modelled from the spec: [selection.merge(other)] (d3-selection, not
    under src/) fills the holes of a selection with the nodes of the other
    one, index by index.  The snippet merges the appended entering nodes,
    which stand at the indices of the records without a node, with the
    update selection of the same join, which stands at the indices before
    them. *)
Definition merge (other : selection) (s : selection) : M selection :=
  mret (other ++ s).

(** [const drawDots = (dataset, color) => { ... }] with [enter().append]:
    only the new circles are positioned and coloured. *)
Definition drawDots (e : env) (dataset : list record) (color : string)
  : M selection :=
  dots ← selectAll "circle" .> data dataset;
  enter_append "circle" dots
    .> attr_fn "cx" (λ d _, ANum <$> apply (xScale e) (xAccessor d))
    .> attr_fn "cy" (λ d _, ANum <$> apply (yScale e) (yAccessor d))
    .> attr "r" (Some (ANum (Fin (zq 5))))
    .> attr "fill" (Some (AStr color)).

(** The same with [.merge(dots)] after the append. *)
Definition drawDots_merge (e : env) (dataset : list record) (color : string)
  : M selection :=
  dots ← selectAll "circle" .> data dataset;
  enter_append "circle" dots
    .> merge (update dots)
    .> attr_fn "cx" (λ d _, ANum <$> apply (xScale e) (xAccessor d))
    .> attr_fn "cy" (λ d _, ANum <$> apply (yScale e) (yAccessor d))
    .> attr "r" (Some (ANum (Fin (zq 5))))
    .> attr "fill" (Some (AStr color)).

(** [dataset.slice(0, n)] *)
Definition slice0 {A : Type} (n : nat) (l : list A) : list A := take n l.

(** [drawDots(dataset.slice(0, 100), "gray");
     setTimeout(() => { drawDots(dataset, "cornflowerblue"); }, 1000);]
    the first call, and the call of the timer, which runs after the
    script has ended. *)
Definition first_slice (drawDots : list record → string → M selection)
    (dataset : list record) : M selection :=
  drawDots (slice0 100 dataset) "gray".

Definition after_one_second (drawDots : list record → string → M selection)
    (dataset : list record) : M selection :=
  drawDots dataset "cornflowerblue".

End Tutorial.

(** ** Predicates and reference functions of the statements *)

Module Props.

Import Dom D3 Chart.

Open Scope nat_scope.

(** Node identifiers are unique and below the next fresh one: in the
    bounds group, and in the whole document. *)
Definition wfb (w : world) : Prop :=
  NoDup (ids (bounds w)) ∧ Forall (λ e, eid e < next_id w) (bounds w).

Definition wf (w : world) : Prop :=
  NoDup (ids (page w ++ bounds w)) ∧
  Forall (λ e, eid e < next_id w) (page w ++ bounds w).

Definition elementwise (op : selection → M selection)
    (f : nat → element → element) : Prop :=
  ∀ s w, op s w = (s, update_world s f w).

Definition keeps_eid (f : nat → element → element) : Prop :=
  ∀ k e, eid (f k e) = eid e.


(** What binding the nodes matching [p] to the array [D] by index leaves of
    a list of nodes: the [i]-th matching node is bound to the [i]-th record
    and dressed by [g]; a matching node beyond the array is gone after a
    join ([rm] true) and stays as it is after [enter().append] ([rm]
    false); the other nodes stay.  [i] is the rank of the next matching
    node. *)
Fixpoint reconcile (rm : bool) (p : element → bool) (D : list record)
    (g : nat → element → element) (i : nat) (b : list element) : list element :=
  match b with
  | [] => []
  | e :: b' =>
      if p e then
        if i <? length D
        then g i (set_datum (D !! i) e) :: reconcile rm p D g (S i) b'
        else if rm then reconcile rm p D g (S i) b'
        else e :: reconcile rm p D g (S i) b'
      else e :: reconcile rm p D g i b'
  end.

Fixpoint entering (t : string) (g : nat → element → element) (k n : nat)
    (ds : list record) : list element :=
  match ds with
  | [] => []
  | d :: ds' => g k (new_element n t (Some d)) :: entering t g (S k) (S n) ds'
  end.


Definition cosmetic (f : nat → element → element) : Prop :=
  ∀ k e, eid (f k e) = eid e ∧ tag (f k e) = tag e ∧ datum (f k e) = datum e.

(** What [draw_dots] sets on a mark bound to [d]. *)
Definition dress_dot (e : env) (el : element) : element :=
  match datum el with
  | None => set_attr "r" (Some (ANum (Fin (zq 5)))) el
  | Some d =>
      set_attr "fill" (AColor <$> apply (colorScale e) (colorAccessor d))
        (set_attr "r" (Some (ANum (Fin (zq 5))))
           (set_attr "cy" (ANum <$> apply (yScale e) (yAccessor d))
              (set_attr "cx" (ANum <$> apply (xScale e) (xAccessor d)) el)))
  end.

Definition dots_attrs (e : env) (s : selection) : M selection :=
  attr_fn "cx" (λ d _, ANum <$> apply (xScale e) (xAccessor d)) s
    .> attr_fn "cy" (λ d _, ANum <$> apply (yScale e) (yAccessor d))
    .> attr "r" (Some (ANum (Fin (zq 5))))
    .> attr_fn "fill" (λ d _, AColor <$> apply (colorScale e) (colorAccessor d)).

(** The nodes after a reconciliation of the list [b], with [n] the next
    fresh identifier. *)
Definition reconciled (rm : bool) (p : element → bool) (t : string)
    (D : list record) (f : nat → element → element) (b : list element)
    (n : nat) : list element :=
  let k := length (filter (λ e, p e = true) b) in
  reconcile rm p D f 0 b ++ entering t f (length D `min` k) n (drop k D).

(** What a render pipeline does to a well-formed world. *)
Definition renders {A : Type} (rm : bool) (p : element → bool) (t : string)
    (D : list record) (f : nat → element → element) (m : M A) : Prop :=
  ∀ w, wf w →
    bounds (exec m w) = reconciled rm p t D f (bounds w) (next_id w) ∧
    next_id (exec m w) =
      next_id w + length (drop (length (filter (λ e, p e = true) (bounds w))) D) ∧
    page (exec m w) = page w ∧
    dataset (exec m w) = dataset w ∧
    tooltip (exec m w) = tooltip w ∧
    tooltip_text (exec m w) = tooltip_text w.

(** Two numbers are the same one ([NaN] included). *)
Definition same (a b : num) : bool :=
  match a, b with
  | NaN, NaN => true
  | Inf s, Inf t => Bool.eqb s t
  | Fin x, Fin y => Qc_eqb x y
  | _, _ => false
  end.

(** The primary marks: the circles of the bounds group, in document order. *)
Definition marks (w : world) : list element :=
  filter (λ e, matches "circle" e = true) (bounds w).

(** The highlight marks of the document. *)
Definition highlight_marks (w : world) : list element :=
  filter (λ e, matches ".tooltipDot" e = true) (page w ++ bounds w).

(** Pointer-enter events on the cells of the records [ds], one after the
    other, with no pointer-leave in between. *)
Fixpoint enter_all (onMouseEnter : record → M unit) (ds : list record) : M unit :=
  match ds with
  | [] => mret tt
  | d :: ds' => onMouseEnter d;; enter_all onMouseEnter ds'
  end.

(** The highlight mark [onMouseEnter] draws for the record [d]. *)
Definition dayDot (e : env) (d : record) (n : nat) : element :=
  set_style "pointer-events" (Some (AStr "none"))
    (set_style "fill" (Some (AStr "maroon"))
       (set_attr "r" (Some (ANum (Fin (zq 7))))
          (set_attr "cy" (ANum <$> apply (yScale e) (yAccessor d))
             (set_attr "cx" (ANum <$> apply (xScale e) (xAccessor d))
                (set_attr "class" (Some (AStr "tooltipDot"))
                   (new_element n "circle" None)))))).

(** The chain of [append_dayDot] after the append. *)
Definition dayDot_attrs (e : env) (d : record) (s : selection) : M selection :=
  attr "class" (Some (AStr "tooltipDot")) s
    .> attr "cx" (ANum <$> apply (xScale e) (xAccessor d))
    .> attr "cy" (ANum <$> apply (yScale e) (yAccessor d))
    .> attr "r" (Some (ANum (Fin (zq 7))))
    .> style "fill" (Some (AStr "maroon"))
    .> style "pointer-events" (Some (AStr "none")).

(** What the handlers have in common: the tooltip is touched, the
    elements are not. *)
Definition tooltip_only (m : M unit) : Prop :=
  ∀ w, page (exec m w) = page w ∧ bounds (exec m w) = bounds w ∧
       next_id (exec m w) = next_id w ∧ dataset (exec m w) = dataset w.

(** Entering a cell, as part_004 and part_005 have it; [close] is the end
    of the template of the tooltip's transform, where the scripts differ. *)
Definition enter_with_dot (e : env) (d : record) (close : string) : M unit :=
  append_dayDot e d;;
  tooltip_style "opacity" (ANum (Fin 1));;
  tooltip_fields d;;
  tooltip_move e d close.

Definition remove_dots : M unit :=
  d3_selectAll ".tooltipDot" .> remove;;
  mret tt.

(** A computation that leaves the fetched array alone. *)
Definition keeps_dataset {A : Type} (m : M A) : Prop :=
  ∀ w, dataset (m w).2 = dataset w.

(** The page of index.html before a script runs: the wrapper, the tooltip
    and its three spans. *)
Definition index_html : world :=
  mkWorld []
    [set_attr "class" (Some (AStr "wrapper"))
       (set_attr "id" (Some (AStr "wrapper")) (new_element 0 "div" None))]
    (set_attr "class" (Some (AStr "tooltip"))
       (set_attr "id" (Some (AStr "tooltip")) (new_element 1 "div" None)))
    (list_to_map [("date", AStr ""); ("humidity", AStr ""); ("dew-point", AStr "")])
    [] 2.

(** Two records of the end-to-end scenario of the specification. *)
Definition january : record :=
  mkRecord (Some (zq 40)) (Some (lit 5 10)) (Some (lit 2 10)) (Some "2019-01-01").

Definition june : record :=
  mkRecord (Some (zq 60)) (Some (lit 8 10)) (Some (lit 9 10)) (Some "2019-06-01").

(** A window of 1000 by 800 pixels, and the document after part_005 has
    drawn the two records in it. *)
Definition laptop : viewport := mkViewport 1000 800.

Definition drawn : world :=
  exec (Part005.drawScatter [january; june] laptop) index_html.

Definition drawn_env : env :=
  make_env [january; june] (make_dimensions Part005.margin laptop).

(** ** Finished charts and hovers *)

(** [m] run in [w] returns the selection of the nodes [E], which stand in
    the bounds group between the nodes [A] and the nodes [B]; nothing else
    of the document has changed but the next fresh identifier. *)
Definition yields (m : M selection) (w : world) (A E B : list element)
    (n : nat) : Prop :=
  m w = (ids E, mkWorld (dataset w) (page w) (tooltip w) (tooltip_text w)
                  (A ++ E ++ B) n) ∧
  wf (mkWorld (dataset w) (page w) (tooltip w) (tooltip_text w) (A ++ E ++ B) n).

(** The marks a script draws first: one new circle per record. *)
Definition fresh_marks (e : env) (n : nat) (D : list record) : list element :=
  entering "circle" (λ _, dress_dot e) 0 n D.

(** What [draw_voronoi] sets on the [k]-th cell. *)
Definition cell_attrs (k : nat) (e : element) : element :=
  set_attr "fill" (Some (AStr "transparent"))
    (set_attr "stroke" (Some (AStr "salmon"))
       (let e' := set_attr "class" (Some (AStr "voronoi")) e in
        match datum e' with
        | Some _ => set_attr "d" (Some (ACell k)) e'
        | None => e'
        end)).

(** The two listeners of a cell. *)
Definition listening (e : element) : element :=
  set_listener "mouseleave" OnMouseLeave (set_listener "mouseenter" OnMouseEnter e).

(** The cells of a finished chart: one new path per record. *)
Definition cells (n : nat) (D : list record) : list element :=
  entering "path" (λ k e, listening (cell_attrs k e)) 0 n D.

(** What an axis generator sets on its group. *)
Definition axis_attrs (anchor : string) (e : element) : element :=
  set_attr "text-anchor" (Some (AStr anchor))
    (set_attr "font-family" (Some (AStr "sans-serif"))
       (set_attr "font-size" (Some (ANum (Fin (zq 10))))
          (set_attr "fill" (Some (AStr "none")) e))).

(** An axis group or a label: no datum, no listener, none of the classes
    the scripts select by. *)
Definition peripheral (e : element) : Prop :=
  matches "circle" e = false ∧ datum e = None ∧ listeners e = ∅ ∧
  matches ".voronoi" e = false ∧ matches ".tooltipDot" e = false.

(** The tessellation cells: the nodes of class [voronoi] in the bounds
    group, in document order. *)
Definition cells_of (w : world) : list element :=
  filter (λ e, matches ".voronoi" e = true) (bounds w).

(** A finished dot of the record [r]. *)
Definition dot_of (e : env) (m : element) (r : record) : Prop :=
  tag m = "circle" ∧ datum m = Some r ∧
  attrs m !! "cx" = ANum <$> apply (xScale e) (xAccessor r) ∧
  attrs m !! "cy" = ANum <$> apply (yScale e) (yAccessor r) ∧
  attrs m !! "r" = Some (ANum (Fin (zq 5))) ∧
  attrs m !! "fill" = AColor <$> apply (colorScale e) (colorAccessor r) ∧
  attrs m !! "class" = None ∧ listeners m = ∅.

(** The finished cell of the record [r]; its outline is the library's and
    is left out. *)
Definition cell_of (c : element) (r : record) : Prop :=
  tag c = "path" ∧ datum c = Some r ∧
  attrs c !! "class" = Some (AStr "voronoi") ∧
  attrs c !! "stroke" = Some (AStr "salmon") ∧
  attrs c !! "fill" = Some (AStr "transparent") ∧
  listeners c !! "mouseenter" = Some OnMouseEnter ∧
  listeners c !! "mouseleave" = Some OnMouseLeave ∧
  styles c = ∅.

(** What the three scripts with a tooltip leave in the bounds group. *)
Definition chart_of (e : env) (D : list record) (w : world) : Prop :=
  wf w ∧ dataset w = D ∧
  ∃ n k pre mid post,
    bounds w = pre ++ fresh_marks e n D ++ mid ++ cells k D ++ post ∧
    Forall peripheral pre ∧ Forall peripheral mid ∧ Forall peripheral post.

(** One cell per record, in the order of the dataset. *)
Definition one_cell_per_record (D : list record) (w : world) : Prop :=
  length (cells_of w) = length D ∧
  ∀ i r, D !! i = Some r → ∃ c, cells_of w !! i = Some c ∧ cell_of c r.

(** Every cell stands after every dot in the bounds group. *)
Definition cells_over_dots (w : world) : Prop :=
  ∃ below above, bounds w = below ++ above ∧
    Forall (λ x, matches ".voronoi" x = false) below ∧
    Forall (λ x, matches "circle" x = false) above.



(** The circles of the whole document. *)
Definition circles_of (w : world) : list element :=
  filter (λ e, matches "circle" e = true) (page w ++ bounds w).

(** What a run of a script adds to the document. *)
Definition adds_a_chart (D : list record) (w w1 : world) : Prop :=
  (∃ svg g, page w1 = page w ++ [svg] ++ bounds w ++ [g] ∧
            tag svg = "svg" ∧ tag g = "g") ∧
  length (marks w1) = length D ∧
  length (circles_of w1) = length (circles_of w) + length D.

(** ** Colours, and the circles of the tutorial exercises *)



(** What [drawDots] sets on a circle bound to a record. *)
Definition paint (e : env) (color : string) (el : element) : element :=
  set_attr "fill" (Some (AStr color))
    (set_attr "r" (Some (ANum (Fin (zq 5))))
       (match datum el with
        | Some d =>
            set_attr "cy" (ANum <$> apply (yScale e) (yAccessor d))
              (set_attr "cx" (ANum <$> apply (xScale e) (xAccessor d)) el)
        | None => el
        end)).

(** A circle of the record [r], positioned and filled with [color]. *)
Definition painted (e : env) (color : string) (m : element) (r : record) : Prop :=
  tag m = "circle" ∧ datum m = Some r ∧
  attrs m !! "cx" = ANum <$> apply (xScale e) (xAccessor r) ∧
  attrs m !! "cy" = ANum <$> apply (yScale e) (yAccessor r) ∧
  attrs m !! "r" = Some (ANum (Fin (zq 5))) ∧
  attrs m !! "fill" = Some (AStr color).

(** A circle of the loop: positioned for [r], but bound to no record. *)
Definition looped (e : env) (m : element) (r : record) : Prop :=
  tag m = "circle" ∧ datum m = None ∧
  attrs m !! "cx" = ANum <$> apply (xScale e) (xAccessor r) ∧
  attrs m !! "cy" = ANum <$> apply (yScale e) (yAccessor r) ∧
  attrs m !! "r" = Some (ANum (Fin (zq 5))) ∧
  attrs m !! "fill" = None.

(** The circles the loop appends for the records [ds], the first with the
    identifier [n]. *)
Fixpoint looping (e : env) (n : nat) (ds : list record) : list element :=
  match ds with
  | [] => []
  | d :: ds' =>
      set_attr "r" (Some (ANum (Fin (zq 5))))
        (set_attr "cy" (ANum <$> apply (yScale e) (yAccessor d))
           (set_attr "cx" (ANum <$> apply (xScale e) (xAccessor d))
              (new_element n "circle" None)))
      :: looping e (S n) ds'
  end.

End Props.

(** * Properties *)

Import Dom D3 Chart Props.

Open Scope nat_scope.

(** ** Selections *)

Lemma index_of_Some i s k : index_of i s = Some k → s !! k = Some i.
Proof.
  revert k. induction s as [|j s IH]; intros k; simpl; [done|].
  destruct (Nat.eqb_spec i j) as [->|Hne].
  - by intros [= <-].
  - destruct (index_of i s) as [k'|]; simpl; [|done].
    intros [= <-]. by apply IH.
Qed.

Lemma index_of_None i s : index_of i s = None ↔ i ∉ s.
Proof.
  induction s as [|j s IH]; simpl.
  - split; [intros _; apply not_elem_of_nil | done].
  - destruct (Nat.eqb_spec i j) as [->|Hne].
    + split; [done|]. intros H. exfalso. apply H. left.
    + rewrite not_elem_of_cons. destruct (index_of i s); simpl.
      * split; [done|]. intros [_ H]. by apply IH in H.
      * split; [|done]. intros _. split; [done|]. by apply IH.
Qed.

Lemma index_of_is_Some i s : i ∈ s → is_Some (index_of i s).
Proof.
  intros H. destruct (index_of i s) eqn:E; [by eexists|].
  by apply index_of_None in E.
Qed.

Lemma index_of_app i s t :
  index_of i (s ++ t) =
  match index_of i s with
  | Some k => Some k
  | None => (λ k, length s + k) <$> index_of i t
  end.
Proof.
  induction s as [|j s IH]; simpl.
  - by destruct (index_of i t).
  - destruct (Nat.eqb_spec i j); [done|].
    rewrite IH. destruct (index_of i s); simpl; [done|].
    by destruct (index_of i t).
Qed.

Lemma index_of_take i s m :
  index_of i (take m s) =
  match index_of i s with
  | Some k => if k <? m then Some k else None
  | None => None
  end.
Proof.
  revert m. induction s as [|j s IH]; intros [|m]; simpl; try done.
  - by destruct (if Nat.eqb i j then _ else _).
  - destruct (Nat.eqb_spec i j); [done|].
    rewrite IH. destruct (index_of i s) as [k|]; simpl; [|done].
    change (S k <? S m) with (k <? m). by destruct (k <? m).
Qed.

Lemma index_of_lookup_NoDup i s k :
  NoDup s → s !! k = Some i → index_of i s = Some k.
Proof.
  intros Hnd Hk. destruct (index_of i s) as [k'|] eqn:E.
  - apply index_of_Some in E. f_equal. by eapply NoDup_lookup.
  - apply index_of_None in E. exfalso. apply E. by eapply list_elem_of_lookup_2.
Qed.

Lemma member_true i s : member i s = true ↔ i ∈ s.
Proof.
  unfold member. destruct (index_of i s) eqn:E.
  - split; [|done]. intros _. apply index_of_Some in E. by eapply list_elem_of_lookup_2.
  - apply index_of_None in E. split; [done|]. intros H. by apply E in H.
Qed.

Lemma member_false i s : member i s = false ↔ i ∉ s.
Proof.
  rewrite <- member_true. destruct (member i s); naive_solver.
Qed.

Lemma member_drop_NoDup i s k m :
  NoDup s → index_of i s = Some k → member i (drop m s) = (m <=? k).
Proof.
  intros Hnd Hk. apply index_of_Some in Hk.
  destruct (Nat.leb_spec m k) as [Hle|Hlt].
  - apply member_true. apply list_elem_of_lookup. exists (k - m).
    rewrite lookup_drop. rewrite <- Hk. f_equal. lia.
  - apply member_false. intros Hin. apply list_elem_of_lookup in Hin as [p Hp].
    rewrite lookup_drop in Hp.
    assert (m + p = k) by (eapply NoDup_lookup; eauto). lia.
Qed.

(** ** The data join *)

Lemma ids_filter_subseteq (P : element → Prop) `{!∀ e, Decision (P e)} b i :
  i ∈ ids (filter P b) → i ∈ ids b.
Proof.
  unfold ids. rewrite !list_elem_of_fmap. intros (e & -> & He).
  exists e. split; [done|]. by apply list_elem_of_filter in He as [_ ?].
Qed.

Lemma update_nodes_cons s f e l :
  update_nodes s f (e :: l) =
  (match index_of (eid e) s with Some k => f k e | None => e end)
    :: update_nodes s f l.
Proof. done. Qed.

Lemma remove_nodes_cons s e l :
  remove_nodes s (e :: l) =
  if member (eid e) s then remove_nodes s l else e :: remove_nodes s l.
Proof.
  unfold remove_nodes. rewrite filter_cons.
  destruct (member (eid e) s); by case_decide.
Qed.

Lemma eid_set_datum d e : eid (set_datum d e) = eid e.
Proof. done. Qed.

Section old_part.
Context (rm : bool) (p : element → bool) (D : list record).
Context (g : nat → element → element).
Context (n : nat) (sfx : list nat) (Hsfx : ∀ x, x ∈ sfx → n ≤ x).

Lemma join_old_part pre b :
  let s := pre ++ ids (filter (λ e, p e = true) b) in
  NoDup (pre ++ ids b) →
  Forall (λ e, eid e < n) b →
  update_nodes (take (length D) s ++ sfx) g
    (remove_nodes (if rm then drop (length D) s else [])
       (update_nodes (take (length D) s) (λ k, set_datum (D !! k)) b))
  = reconcile rm p D g (length pre) b.
Proof.
  revert pre. induction b as [|e b IH]; intros pre s Hnd Hlt; [done|].
  apply Forall_cons in Hlt as [He Hlt].
  assert (Hpre : eid e ∉ pre).
  { apply NoDup_app in Hnd as (_ & Hd & _). intros Hin.
    apply (Hd _ Hin). left. }
  assert (Hb : eid e ∉ ids b).
  { apply NoDup_app in Hnd as (_ & _ & Hd). simpl in Hd.
    by apply NoDup_cons in Hd as [? _]. }
  assert (Hsfx' : index_of (eid e) sfx = None).
  { apply index_of_None. intros Hin. apply Hsfx in Hin. lia. }
  assert (Hnds : NoDup s).
  { subst s. apply NoDup_app in Hnd as (Hnp & Hd & Hnb).
    apply NoDup_app. split_and!; [done| |].
    - intros x Hx Hin. apply (Hd x Hx). by eapply ids_filter_subseteq.
    - eapply sublist_NoDup; [exact Hnb|]. unfold ids.
      apply fmap_sublist, sublist_filter. }
  rewrite update_nodes_cons. simpl reconcile.
  destruct (p e) eqn:Hp.
  - assert (Hs : s = (pre ++ [eid e]) ++ ids (filter (λ e, p e = true) b)).
    { subst s. rewrite filter_cons. case_decide; [|congruence].
      simpl. by rewrite <- app_assoc. }
    assert (Hidx : index_of (eid e) s = Some (length pre)).
    { rewrite Hs, !index_of_app.
      apply index_of_None in Hpre. rewrite Hpre. simpl.
      rewrite Nat.eqb_refl. simpl. f_equal. lia. }
    rewrite index_of_take, Hidx.
    specialize (IH (pre ++ [eid e])). simpl in IH.
    rewrite <- Hs in IH. rewrite length_app in IH. simpl in IH.
    replace (length pre + 1) with (S (length pre)) in IH by lia.
    destruct (length pre <? length D) eqn:Hm.
    + rewrite remove_nodes_cons, eid_set_datum.
      apply Nat.ltb_lt in Hm.
      assert (Hkeep : member (eid e) (if rm then drop (length D) s else []) = false).
      { destruct rm; [|done]. rewrite (member_drop_NoDup _ _ _ _ Hnds Hidx).
        by destruct (Nat.leb_spec (length D) (length pre)); [lia|]. }
      rewrite Hkeep.
      rewrite update_nodes_cons, eid_set_datum, index_of_app, index_of_take, Hidx.
      apply Nat.ltb_lt in Hm. rewrite Hm. f_equal. apply IH; [|done].
      rewrite <- app_assoc. done.
    + rewrite remove_nodes_cons. apply Nat.ltb_ge in Hm.
      destruct rm.
      * rewrite (member_drop_NoDup _ _ _ _ Hnds Hidx).
        destruct (Nat.leb_spec (length D) (length pre)); [|lia].
        apply IH; [|done]. rewrite <- app_assoc. done.
      * change (member (eid e) []) with false. cbv iota.
        rewrite update_nodes_cons, index_of_app, index_of_take, Hidx, Hsfx'.
        apply Nat.ltb_ge in Hm. rewrite Hm. simpl. f_equal.
        apply IH; [|done]. rewrite <- app_assoc. done.
  - assert (Hs : s = pre ++ ids (filter (λ e, p e = true) b)).
    { subst s. rewrite filter_cons. case_decide; [congruence|done]. }
    assert (Hidx : index_of (eid e) s = None).
    { apply index_of_None. rewrite Hs. intros Hin.
      apply elem_of_app in Hin as [Hin|Hin]; [done|].
      apply Hb. by eapply ids_filter_subseteq. }
    rewrite index_of_take, Hidx.
    rewrite remove_nodes_cons.
    assert (Hmem : member (eid e) (if rm then drop (length D) s else []) = false).
    { destruct rm; [|done].
      apply member_false. intros Hin. apply index_of_None in Hidx.
      apply Hidx. by apply (subseteq_drop (length D) s). }
    rewrite Hmem, update_nodes_cons, index_of_app, index_of_take, Hidx, Hsfx'.
    simpl. f_equal. specialize (IH pre). simpl in IH. rewrite <- Hs in IH.
    apply IH; [|done].
    apply NoDup_app in Hnd as (Hnp & Hd & Hnb). apply NoDup_app.
    split_and!; [done| |].
    + intros x Hx Hin. apply (Hd x Hx). by right.
    + simpl in Hnb. by apply NoDup_cons in Hnb as [_ ?].
Qed.
End old_part.

Lemma index_of_seq n len j : j < len → index_of (n + j) (seq n len) = Some j.
Proof.
  intros Hj. apply index_of_lookup_NoDup; [apply NoDup_seq|].
  by apply lookup_seq_lt.
Qed.

Lemma join_new_part t g n a r ds off len :
  (∀ x, x ∈ a → x < n) → (∀ x, x ∈ r → x < n) →
  off + length ds ≤ len →
  update_nodes (a ++ seq n len) g (remove_nodes r (create_all t (n + off) ds))
  = entering t g (length a + off) (n + off) ds.
Proof.
  intros Ha Hr. revert off. induction ds as [|d ds IH]; intros off Hlen; [done|].
  simpl in *. rewrite remove_nodes_cons. simpl.
  assert (Hmem : member (n + off) r = false).
  { apply member_false. intros Hin. apply Hr in Hin. lia. }
  rewrite Hmem, update_nodes_cons. simpl.
  assert (Hia : index_of (n + off) a = None).
  { apply index_of_None. intros Hin. apply Ha in Hin. lia. }
  rewrite index_of_app, Hia, index_of_seq by lia. simpl. f_equal.
  replace (S (n + off)) with (n + S off) by lia.
  replace (S (length a + off)) with (length a + S off) by lia.
  apply IH. lia.
Qed.

(** ** Reordering *)

Lemma sublist_lookup_lt {A : Type} (l1 l2 : list A) :
  l1 `sublist_of` l2 →
  ∀ i j x y, i < j → l1 !! i = Some x → l1 !! j = Some y →
  ∃ p q, p < q ∧ l2 !! p = Some x ∧ l2 !! q = Some y.
Proof.
  induction 1 as [|z l1 l2 Hsub IH|z l1 l2 Hsub IH]; intros i j x y Hij Hi Hj.
  - done.
  - destruct j as [|j]; [lia|]. simpl in Hj. destruct i as [|i]; simpl in Hi.
    + injection Hi as ->.
      assert (Hy : y ∈ l2).
      { apply (sublist_subseteq _ _ Hsub). by eapply list_elem_of_lookup_2. }
      apply list_elem_of_lookup in Hy as [q Hq].
      exists 0, (S q). split_and!; [lia|done|done].
    + destruct (IH i j x y ltac:(lia) Hi Hj) as (p & q & ? & ? & ?).
      exists (S p), (S q). split_and!; [lia|done|done].
  - destruct (IH i j x y Hij Hi Hj) as (p & q & ? & ? & ?).
    exists (S p), (S q). split_and!; [lia|done|done].
Qed.

Lemma precedes_sublist sel l i j x y :
  NoDup (ids l) → sel `sublist_of` ids l →
  i < j → sel !! i = Some x → sel !! j = Some y → precedes l x y = true.
Proof.
  intros Hnd Hsub Hij Hi Hj.
  destruct (sublist_lookup_lt _ _ Hsub i j x y Hij Hi Hj) as (p & q & Hpq & Hp & Hq).
  unfold precedes, position.
  rewrite (index_of_lookup_NoDup _ _ _ Hnd Hp), (index_of_lookup_NoDup _ _ _ Hnd Hq).
  by apply Nat.ltb_lt.
Qed.

Lemma order_from_id l before next :
  (∀ a b x y, a < b → (next :: before) !! a = Some x →
     (next :: before) !! b = Some y → precedes l y x = true) →
  order_from before next l = l.
Proof.
  revert next. induction before as [|node before IH]; intros next H; [done|].
  simpl. rewrite (H 0 1 next node) by (done || lia).
  apply IH. intros a b x y Hab Ha Hb. apply (H (S a) (S b)); [lia|done|done].
Qed.

Lemma order_nodes_id sel l :
  NoDup (ids l) → sel `sublist_of` ids l → order_nodes sel l = l.
Proof.
  intros Hnd Hsub. unfold order_nodes.
  destruct (reverse sel) as [|last before] eqn:Hrev; [done|].
  apply order_from_id. intros a b x y Hab Ha Hb.
  rewrite <- Hrev in Ha, Hb.
  apply reverse_lookup_Some in Ha as [Ha Hla], Hb as [Hb Hlb].
  eapply (precedes_sublist sel l); [done|done| |exact Hb|exact Ha]. lia.
Qed.

(** ** Elementwise operations and the join pipeline *)

Lemma wf_wfb w : wf w → wfb w.
Proof.
  intros [Hnd Hlt]. split.
  - unfold ids in *. rewrite fmap_app in Hnd. by apply NoDup_app in Hnd as (_ & _ & ?).
  - by apply Forall_app in Hlt as [_ ?].
Qed.

Lemma update_nodes_ids s f l : keeps_eid f → ids (update_nodes s f l) = ids l.
Proof.
  intros Hf. unfold ids, update_nodes. rewrite <- list_fmap_compose.
  apply list_fmap_ext. intros i e _. simpl.
  destruct (index_of (eid e) s); [apply Hf|done].
Qed.

Lemma update_nodes_app s f l1 l2 :
  update_nodes s f (l1 ++ l2) = update_nodes s f l1 ++ update_nodes s f l2.
Proof. apply fmap_app. Qed.

Lemma remove_nodes_app s l1 l2 :
  remove_nodes s (l1 ++ l2) = remove_nodes s l1 ++ remove_nodes s l2.
Proof. apply filter_app. Qed.

Lemma update_nodes_compose s f1 f2 l :
  keeps_eid f1 →
  update_nodes s f2 (update_nodes s f1 l) = update_nodes s (λ k e, f2 k (f1 k e)) l.
Proof.
  intros Hf. unfold update_nodes. rewrite <- list_fmap_compose.
  apply list_fmap_ext. intros i e _. simpl.
  destruct (index_of (eid e) s) as [k|] eqn:E.
  - by rewrite Hf, E.
  - by rewrite E.
Qed.

Lemma update_nodes_disjoint s f l :
  (∀ e, e ∈ l → eid e ∉ s) → update_nodes s f l = l.
Proof.
  intros H. unfold update_nodes. rewrite <- (list_fmap_id l) at 2.
  apply list_fmap_ext. intros i e Hi. simpl.
  assert (Hn : index_of (eid e) s = None).
  { apply index_of_None, H. by eapply list_elem_of_lookup_2. }
  by rewrite Hn.
Qed.

Lemma update_nodes_nil f l : update_nodes [] f l = l.
Proof. apply update_nodes_disjoint. intros e _. apply not_elem_of_nil. Qed.

Lemma remove_nodes_disjoint s l :
  (∀ e, e ∈ l → eid e ∉ s) → remove_nodes s l = l.
Proof.
  intros H. induction l as [|e l IH]; [done|].
  rewrite remove_nodes_cons.
  assert (Hm : member (eid e) s = false) by (apply member_false, H; left).
  rewrite Hm. f_equal. apply IH. intros e' He'. apply H. by right.
Qed.

Lemma update_world_compose s f1 f2 w :
  keeps_eid f1 →
  update_world s f2 (update_world s f1 w) = update_world s (λ k e, f2 k (f1 k e)) w.
Proof.
  intros Hf. unfold update_world. simpl. by rewrite !update_nodes_compose.
Qed.

Lemma elementwise_chain op1 f1 op2 f2 :
  elementwise op1 f1 → elementwise op2 f2 → keeps_eid f1 →
  elementwise (λ s, op1 s .> op2) (λ k e, f2 k (f1 k e)).
Proof.
  intros H1 H2 Hf s w. unfold mbind, M_bind. rewrite H1, H2.
  by rewrite update_world_compose.
Qed.

Lemma attr_elementwise name v : elementwise (attr name v) (λ _, set_attr name v).
Proof. done. Qed.

Lemma attr_fn_elementwise name f :
  elementwise (attr_fn name f)
    (λ k e, match datum e with Some d => set_attr name (f d k) e | None => e end).
Proof. done. Qed.

Lemma style_elementwise name v : elementwise (style name v) (λ _, set_style name v).
Proof. done. Qed.

Lemma on_elementwise type h : elementwise (on type h) (λ _, set_listener type h).
Proof. done. Qed.

Lemma set_content_elementwise v : elementwise (set_content v) (λ _, set_text v).
Proof. done. Qed.

Lemma ids_create_all t n ds : ids (create_all t n ds) = seq n (length ds).
Proof.
  revert n. induction ds as [|d ds IH]; intros n; [done|].
  simpl. f_equal. apply IH.
Qed.

Lemma ids_remove_nodes s l :
  ids (remove_nodes s l) = filter (λ i, member i s = false) (ids l).
Proof.
  induction l as [|e l IH]; [done|].
  rewrite remove_nodes_cons.
  change (ids (e :: l)) with (eid e :: ids l). rewrite filter_cons.
  destruct (member (eid e) s) eqn:E; case_decide; try congruence.
  change (ids (e :: remove_nodes s l)) with (eid e :: ids (remove_nodes s l)).
  by f_equal.
Qed.

Lemma sublist_filter_Forall {A : Type} (P : A → Prop) `{!∀ x, Decision (P x)}
    (l1 l2 : list A) :
  l1 `sublist_of` l2 → Forall P l1 → l1 `sublist_of` filter P l2.
Proof.
  induction 1 as [|x l1 l2 Hsub IH|x l1 l2 Hsub IH]; intros HP.
  - done.
  - apply Forall_cons in HP as [Hx HP]. rewrite filter_cons.
    case_decide; [|done]. apply sublist_skip. by apply IH.
  - rewrite filter_cons. case_decide; [apply sublist_cons|]; by apply IH.
Qed.

Lemma take_drop_disjoint (s : list nat) m i :
  NoDup s → i ∈ take m s → i ∉ drop m s.
Proof.
  intros Hnd Hi Hd. rewrite <- (take_drop m s) in Hnd.
  apply NoDup_app in Hnd as (_ & H & _). by apply (H i).
Qed.

Section join.
Context (sel t : string) (D : list record).
Context (op : selection → M selection) (f : nat → element → element).
Context (Hop : elementwise op f).

Let p (e : element) : bool := matches sel e.

Lemma join_pipeline w :
  wfb w →
  let s := ids (filter (λ e, matches sel e = true) (bounds w)) in
  let r := (selectAll sel .> data D .> join t .> op) w in
  r.1 = take (length D) s ++ seq (next_id w) (length (drop (length s) D)) ∧
  bounds r.2 =
    reconcile true (matches sel) D f 0 (bounds w)
    ++ entering t f (length (take (length D) s)) (next_id w) (drop (length s) D) ∧
  next_id r.2 = next_id w + length (drop (length s) D) ∧
  page r.2 =
    update_nodes r.1 f
      (remove_nodes (drop (length D) s)
         (update_nodes (take (length D) s) (λ k, set_datum (D !! k)) (page w))) ∧
  dataset r.2 = dataset w ∧ tooltip r.2 = tooltip w ∧
  tooltip_text r.2 = tooltip_text w.
Proof.
  intros [Hnd Hlt] s r. subst r.
  unfold mbind, M_bind, selectAll, data, join, enter_append, remove, order.
  simpl. unfold mbind, M_bind. simpl. rewrite Hop. simpl.
  fold s.
  set (n := next_id w). set (m := length D).
  set (E := drop (length s) D).
  assert (Hs_sub : s `sublist_of` ids (bounds w)).
  { unfold s, ids. apply fmap_sublist, sublist_filter. }
  assert (Hs_nd : NoDup s) by (by eapply sublist_NoDup).
  assert (Hs_lt : ∀ x, x ∈ s → x < n).
  { intros x Hx. apply (sublist_subseteq _ _ Hs_sub) in Hx.
    unfold ids in Hx. apply list_elem_of_fmap in Hx as (e & -> & He).
    rewrite Forall_forall in Hlt. by apply Hlt. }
  set (b1 := update_nodes (take m s) (λ k, set_datum (D !! k)) (bounds w)).
  set (b3 := remove_nodes (drop m s) (b1 ++ create_all t n E)).
  assert (Hkeep : keeps_eid (λ k : nat, set_datum (D !! k))) by done.
  assert (Hnews : remove_nodes (drop m s) (create_all t n E) = create_all t n E).
  { apply remove_nodes_disjoint. intros e He Hin.
    assert (eid e ∈ ids (create_all t n E)) as Hid.
    { unfold ids. apply list_elem_of_fmap. by exists e. }
    rewrite ids_create_all in Hid. apply elem_of_seq in Hid.
    apply (subseteq_drop m s), Hs_lt in Hin. lia. }
  assert (Hb3 : b3 = remove_nodes (drop m s) b1 ++ create_all t n E).
  { unfold b3. by rewrite remove_nodes_app, Hnews. }
  assert (Hord : order_nodes (take m s ++ seq n (length E)) b3 = b3).
  { assert (Hids : ids b3 = filter (λ i, member i (drop m s) = false) (ids (bounds w))
                           ++ seq n (length E)).
    { rewrite Hb3. unfold ids at 1. rewrite fmap_app. fold (ids (create_all t n E)).
      fold (ids (remove_nodes (drop m s) b1)).
      rewrite ids_create_all, ids_remove_nodes. unfold b1.
      by rewrite update_nodes_ids. }
    apply order_nodes_id; rewrite Hids.
    - apply NoDup_app. split_and!.
      + eapply sublist_NoDup; [exact Hnd|apply sublist_filter].
      + intros x Hx Hin. apply list_elem_of_filter in Hx as [_ Hx].
        apply elem_of_seq in Hin. unfold ids in Hx.
        apply list_elem_of_fmap in Hx as (e & -> & He).
        rewrite Forall_forall in Hlt. apply Hlt in He. fold n in He. lia.
      + apply NoDup_seq.
    - apply sublist_app; [|done].
      apply sublist_filter_Forall.
      + etrans; [apply sublist_take|done].
      + apply Forall_forall. intros x Hx. apply member_false.
        by apply take_drop_disjoint. }
  fold b1. fold b3. rewrite Hord. split_and!; try done.
  rewrite Hb3, update_nodes_app. f_equal.
  - unfold b1. apply (join_old_part true (matches sel) D f n (seq n (length E))
                        ltac:(intros x Hx; apply elem_of_seq in Hx; lia) []).
    + done.
    + done.
  - pose proof (join_new_part t f n (take m s) (drop m s) E 0 (length E)) as H.
    rewrite !Nat.add_0_r, Hnews in H. apply H.
    + intros x Hx. apply Hs_lt. by apply (subseteq_take m s).
    + intros x Hx. apply Hs_lt. by apply (subseteq_drop m s).
    + lia.
Qed.
End join.

(** ** The marks of the dots *)

Lemma cosmetic_keeps_eid f : cosmetic f → keeps_eid f.
Proof. intros H k e. apply H. Qed.

Lemma update_nodes_ext s f g l :
  (∀ k e, f k e = g k e) → update_nodes s f l = update_nodes s g l.
Proof.
  intros H. apply list_fmap_ext. intros i e _. simpl.
  by destruct (index_of (eid e) s).
Qed.

Lemma elementwise_ext op f g :
  (∀ k e, f k e = g k e) → elementwise op f → elementwise op g.
Proof.
  intros H Hop s w. rewrite Hop. f_equal. unfold update_world.
  by rewrite !(update_nodes_ext s f g).
Qed.

Lemma dots_attrs_elementwise e : elementwise (dots_attrs e) (λ _, dress_dot e).
Proof.
  unfold dots_attrs.
  eapply elementwise_ext;
    [|eapply elementwise_chain;
        [eapply elementwise_chain;
           [eapply elementwise_chain;
              [apply attr_fn_elementwise|apply attr_fn_elementwise|]
           |apply attr_elementwise|]
        |apply attr_fn_elementwise|]].
  - intros k [i t a st [d|] li tx]; reflexivity.
  - intros k [i t a st [d|] li tx]; reflexivity.
  - intros k [i t a st [d|] li tx]; reflexivity.
  - intros k [i t a st [d|] li tx]; reflexivity.
Qed.

Lemma draw_dots_unfold e D w :
  draw_dots e D w = (selectAll "circle" .> data D .> join "circle" .> dots_attrs e) w.
Proof.
  reflexivity.
Qed.

Lemma attrs_set_attr name v e name' :
  attrs (set_attr name v e) !! name' =
  if decide (name = name') then v else attrs e !! name'.
Proof.
  unfold set_attr. simpl. destruct v as [x|].
  - apply lookup_insert.
  - rewrite lookup_delete. by case_decide.
Qed.

Lemma set_attr_id name v e : attrs e !! name = v → set_attr name v e = e.
Proof.
  intros H. destruct e as [i t a st d li tx]. unfold set_attr. simpl in *.
  f_equal. destruct v as [x|].
  - by apply insert_id.
  - by apply delete_id.
Qed.

Lemma cosmetic_dress_dot e : cosmetic (λ _, dress_dot e).
Proof. intros k [i t a st [d|] li tx]; by split_and!. Qed.

Lemma matches_dress_dot e el : matches "circle" (dress_dot e el) = matches "circle" el.
Proof. by destruct el as [i t a st [d|] li tx]. Qed.

Section marks.
Context (p : element → bool) (t : string) (f : nat → element → element).
Context (D : list record) (Q : element → record → Prop).
Context (Hpf : ∀ k e, p (f k e) = p e).
Context (Hpd : ∀ d e, p (set_datum d e) = p e).
Context (Hpt : ∀ n d, p (new_element n t d) = true).
Context (HQ : ∀ k el d, Q (f k (set_datum (Some d) el)) d).

Let P (e : element) : Prop := p e = true.

Lemma marks_reconcile i b :
  Forall2 Q (filter P (reconcile true p D f i b))
    (take (length (filter P b)) (drop i D)).
Proof.
  revert i. induction b as [|e b IH]; intros i; simpl.
  { by rewrite take_0. }
  rewrite (filter_cons P e).
  destruct (decide (P e)) as [Hp|Hp]; unfold P in Hp;
    [|apply not_true_is_false in Hp]; rewrite Hp.
  - destruct (Nat.ltb_spec i (length D)) as [Hi|Hi].
    + destruct (lookup_lt_is_Some_2 D i Hi) as [d Hd].
      rewrite (drop_S _ _ _ Hd), Hd. simpl.
      rewrite filter_cons. case_decide as Hc.
      * constructor; [apply HQ|apply IH].
      * exfalso. apply Hc. unfold P. by rewrite Hpf, Hpd.
    + specialize (IH (S i)). rewrite drop_ge in IH by lia.
      rewrite drop_ge by lia. by rewrite take_nil in *.
  - rewrite filter_cons. case_decide as Hc; [|apply IH].
    unfold P in Hc. congruence.
Qed.

Lemma marks_entering k n ds :
  Forall2 Q (filter P (entering t f k n ds)) ds.
Proof.
  revert k n. induction ds as [|d ds IH]; intros k n; simpl; [constructor|].
  rewrite filter_cons. case_decide as Hc.
  - constructor; [|apply IH]. apply (HQ k (new_element n t None) d).
  - exfalso. apply Hc. unfold P. by rewrite Hpf, Hpt.
Qed.
End marks.

Lemma length_ids l : length (ids l) = length l.
Proof. apply length_fmap. Qed.

(** The marks after the render pipeline, record by record. *)
Lemma draw_dots_marks (Q : element → record → Prop) e D w :
  (∀ el d, Q (dress_dot e (set_datum (Some d) el)) d) →
  wfb w → Forall2 Q (marks (exec (draw_dots e D) w)) D.
Proof.
  intros HQ Hw.
  destruct (join_pipeline "circle" "circle" D _ _ (dots_attrs_elementwise e) w Hw)
    as (_ & Hb & _).
  unfold exec, marks. rewrite draw_dots_unfold, Hb, filter_app.
  set (k := length (ids (filter (λ e, matches "circle" e = true) (bounds w)))).
  rewrite <- (take_drop k D) at 4.
  apply Forall2_app.
  - unfold k. rewrite length_ids.
    apply (marks_reconcile (matches "circle") (λ _, dress_dot e) D Q);
      [intros _; apply matches_dress_dot|done|intros _; apply HQ].
  - apply (marks_entering (matches "circle") "circle" (λ _, dress_dot e) Q);
      [intros _; apply matches_dress_dot|done|intros _; apply HQ].
Qed.

Lemma Forall2_datum (l : list element) (D : list record) :
  Forall2 (λ m r, datum m = Some r) l D → datum <$> l = Some <$> D.
Proof.
  induction 1 as [|m r l D Hm _ IH]; [done|].
  rewrite !fmap_cons. by rewrite Hm, IH.
Qed.

(** ** Reconciling twice *)

Section reconcile.
Context (rm : bool) (p : element → bool) (t : string).
Context (D : list record) (f : nat → element → element).
Context (Hfe : keeps_eid f).
Context (Hpf : ∀ k e, p (f k e) = p e).
Context (Hpd : ∀ d e, p (set_datum d e) = p e).
Context (Hpt : ∀ n d, p (new_element n t d) = true).

Let P (e : element) : Prop := p e = true.

Lemma reconcile_ge i i' l :
  length D ≤ i → length D ≤ i' →
  reconcile rm p D f i l = reconcile rm p D f i' l.
Proof.
  revert i i'. induction l as [|e l IH]; intros i i' Hi Hi'; [done|].
  simpl. destruct (p e).
  - destruct (Nat.ltb_spec i (length D)); [lia|].
    destruct (Nat.ltb_spec i' (length D)); [lia|].
    rewrite (IH (S i) (S i')) by lia. done.
  - by rewrite (IH i i').
Qed.

Lemma reconcile_app i l1 l2 :
  reconcile rm p D f i (l1 ++ l2) =
  reconcile rm p D f i l1 ++ reconcile rm p D f (i + length (filter P l1)) l2.
Proof.
  revert i. induction l1 as [|e l1 IH]; intros i; simpl.
  { by rewrite Nat.add_0_r. }
  rewrite (filter_cons P e).
  destruct (decide (P e)) as [Hp|Hp]; unfold P in Hp;
    [|apply not_true_is_false in Hp]; rewrite Hp.
  - rewrite IH.
    replace (i + length (e :: filter P l1))
      with (S i + length (filter P l1)) by (simpl; lia).
    by destruct (i <? length D), rm.
  - by rewrite IH.
Qed.

Lemma ids_reconcile_sublist i l :
  ids (reconcile rm p D f i l) `sublist_of` ids l.
Proof.
  revert i. induction l as [|e l IH]; intros i; simpl; [done|].
  destruct (p e).
  - destruct (i <? length D); [|destruct rm].
    + change (ids (?x :: ?l)) with (eid x :: ids l). rewrite Hfe.
      by apply sublist_skip.
    + by apply sublist_cons.
    + by apply sublist_skip.
  - by apply sublist_skip.
Qed.

Lemma ids_entering k n ds : ids (entering t f k n ds) = seq n (length ds).
Proof.
  revert k n. induction ds as [|d ds IH]; intros k n; [done|].
  simpl. change (ids (?x :: ?l)) with (eid x :: ids l).
  by rewrite Hfe, IH.
Qed.

Lemma count_reconcile i l :
  length (filter P (reconcile rm p D f i l)) =
  if rm then length (filter P l) `min` (length D - i) else length (filter P l).
Proof.
  revert i. induction l as [|e l IH]; intros i; simpl.
  { by destruct rm. }
  rewrite (filter_cons P e).
  destruct (decide (P e)) as [Hp|Hp]; unfold P in Hp;
    [|apply not_true_is_false in Hp]; rewrite Hp.
  - destruct (Nat.ltb_spec i (length D)) as [Hi|Hi].
    + rewrite filter_cons. case_decide as Hc.
      * cbn [length]. rewrite IH. destruct rm; lia.
      * exfalso. apply Hc. unfold P. by rewrite Hpf, Hpd.
    + destruct rm.
      * rewrite IH. cbn [length]. lia.
      * rewrite filter_cons. case_decide; [|done]. cbn [length]. by rewrite IH.
  - rewrite filter_cons. case_decide as Hc; [unfold P in Hc; congruence|].
    apply IH.
Qed.

Lemma count_entering k n ds :
  length (filter P (entering t f k n ds)) = length ds.
Proof.
  revert k n. induction ds as [|d ds IH]; intros k n; [done|].
  simpl. rewrite filter_cons. case_decide as Hc.
  - simpl. by rewrite IH.
  - exfalso. apply Hc. unfold P. by rewrite Hpf, Hpt.
Qed.

(** Binding and dressing again a node that was bound and dressed changes
    nothing. *)
Context (Hidem : ∀ k e d,
  f k (set_datum (Some d) (f k (set_datum (Some d) e)))
  = f k (set_datum (Some d) e)).

Lemma reconcile_idem i l :
  reconcile rm p D f i (reconcile rm p D f i l) = reconcile rm p D f i l.
Proof.
  revert i. induction l as [|e l IH]; intros i; [done|].
  simpl. destruct (p e) eqn:Hp.
  - destruct (Nat.ltb_spec i (length D)) as [Hi|Hi].
    + destruct (lookup_lt_is_Some_2 D i Hi) as [d Hd].
      simpl. rewrite Hpf, Hpd, Hp.
      destruct (Nat.ltb_spec i (length D)); [|lia].
      by rewrite Hd, Hidem, IH.
    + pose proof (reconcile_ge i (S i) (reconcile rm p D f (S i) l)
                    Hi ltac:(lia)) as Hge.
      pose proof (IH (S i)) as IH'.
      destruct rm.
      * by rewrite Hge.
      * simpl. rewrite Hp. destruct (Nat.ltb_spec i (length D)); [lia|].
        by rewrite IH'.
  - simpl. by rewrite Hp, IH.
Qed.

Lemma reconcile_entering a n E :
  E = drop a D →
  reconcile rm p D f a (entering t f a n E) = entering t f a n E.
Proof.
  revert a n. induction E as [|d E IH]; intros a n HE; [done|].
  assert (Hd : D !! a = Some d).
  { rewrite <- (Nat.add_0_r a), <- lookup_drop, <- HE. done. }
  assert (Ha : a < length D) by (by eapply lookup_lt_Some).
  simpl. rewrite Hpf, Hpt.
  destruct (Nat.ltb_spec a (length D)); [|lia].
  rewrite Hd. change (new_element n t (Some d))
    with (set_datum (Some d) (new_element n t None)).
  rewrite Hidem. f_equal. apply IH.
  rewrite (drop_S _ _ _ Hd) in HE. by injection HE.
Qed.

Lemma count_reconciled b n :
  length D ≤ length (filter P (reconciled rm p t D f b n)).
Proof.
  unfold reconciled. change (λ e : element, p e = true) with P.
  rewrite filter_app, length_app, count_reconcile, count_entering.
  rewrite length_drop. destruct rm; lia.
Qed.

Lemma reconciled_idem b n n' :
  reconciled rm p t D f (reconciled rm p t D f b n) n'
  = reconciled rm p t D f b n.
Proof.
  unfold reconciled at 1.
  rewrite (drop_ge D) by apply count_reconciled.
  simpl. rewrite app_nil_r. unfold reconciled.
  change (λ e : element, p e = true) with P.
  rewrite reconcile_app, reconcile_idem. f_equal.
  set (k := length (filter P b)).
  destruct (drop k D) as [|d E] eqn:HE; [done|].
  assert (Hk : k < length D).
  { destruct (Nat.lt_ge_cases k (length D)); [done|].
    by rewrite drop_ge in HE. }
  rewrite count_reconcile. fold k.
  replace (0 + (if rm then k `min` (length D - 0) else k)) with k
    by (destruct rm; lia).
  replace (length D `min` k) with k by lia.
  by apply reconcile_entering.
Qed.
End reconcile.

(** ** Render pipelines *)

Lemma update_nodes_id_fn s l : update_nodes s (λ _ e, e) l = l.
Proof.
  unfold update_nodes. rewrite <- (list_fmap_id l) at 2.
  apply list_fmap_ext. intros i e _. simpl. by destruct (index_of (eid e) s).
Qed.

Lemma remove_nodes_nil l : remove_nodes [] l = l.
Proof. apply remove_nodes_disjoint. intros e _. apply not_elem_of_nil. Qed.

Lemma entering_id t k n ds : entering t (λ _ e, e) k n ds = create_all t n ds.
Proof.
  revert k n. induction ds as [|d ds IH]; intros k n; [done|].
  simpl. by rewrite IH.
Qed.

Lemma wf_selection_lt sel w :
  wf w → ∀ x, x ∈ ids (filter (λ e, matches sel e = true) (bounds w)) → x < next_id w.
Proof.
  intros [_ Hlt] x Hx. apply ids_filter_subseteq in Hx.
  unfold ids in Hx. apply list_elem_of_fmap in Hx as (e & -> & He).
  rewrite Forall_forall in Hlt. apply Hlt. apply elem_of_app. by right.
Qed.

Lemma wf_page_disjoint sel w e :
  wf w → e ∈ page w →
  eid e ∉ ids (filter (λ e, matches sel e = true) (bounds w)).
Proof.
  intros [Hnd _] He Hin. apply ids_filter_subseteq in Hin.
  unfold ids in Hnd. rewrite fmap_app in Hnd.
  apply NoDup_app in Hnd as (_ & Hd & _). apply (Hd (eid e)); [|done].
  apply list_elem_of_fmap. by exists e.
Qed.

Lemma wf_page_lt w e : wf w → e ∈ page w → eid e < next_id w.
Proof.
  intros [_ Hlt] He. rewrite Forall_forall in Hlt. apply Hlt.
  apply elem_of_app. by left.
Qed.

Lemma page_untouched sel w (s' : list nat) f :
  wf w →
  (∀ x, x ∈ s' → x ∈ ids (filter (λ e, matches sel e = true) (bounds w))
               ∨ next_id w ≤ x) →
  update_nodes s' f (page w) = page w ∧ remove_nodes s' (page w) = page w.
Proof.
  intros Hw Hs'.
  assert (H : ∀ e, e ∈ page w → eid e ∉ s').
  { intros e He Hin. destruct (Hs' _ Hin) as [Hx|Hx].
    - by eapply wf_page_disjoint.
    - pose proof (wf_page_lt w e Hw He). lia. }
  split; [by apply update_nodes_disjoint|by apply remove_nodes_disjoint].
Qed.

Lemma join_renders sel t D op f :
  elementwise op f →
  renders true (matches sel) t D f (selectAll sel .> data D .> join t .> op).
Proof.
  intros Hop w Hw. unfold exec.
  destruct (join_pipeline sel t D op f Hop w (wf_wfb w Hw))
    as (Hsel & Hb & Hn & Hp & Hd & Ht & Htt).
  set (s := ids (filter (λ e, matches sel e = true) (bounds w))) in *.
  assert (Hlen : length s = length (filter (λ e, matches sel e = true) (bounds w)))
    by apply length_ids.
  split_and!; try done.
  - rewrite Hb. unfold reconciled. by rewrite length_take, Hlen.
  - by rewrite Hn, Hlen.
  - rewrite Hp, Hsel.
    destruct (page_untouched sel w (take (length D) s) (λ k, set_datum (D !! k)) Hw)
      as [-> _].
    { intros x Hx. left. by apply (subseteq_take (length D) s). }
    destruct (page_untouched sel w (drop (length D) s) f Hw) as [_ ->].
    { intros x Hx. left. by apply (subseteq_drop (length D) s). }
    apply (page_untouched sel w _ f Hw).
    intros x Hx. apply elem_of_app in Hx as [Hx|Hx].
    + left. by apply (subseteq_take (length D) s).
    + right. apply elem_of_seq in Hx. lia.
Qed.

Lemma enter_renders sel t D :
  renders false (matches sel) t D (λ _ e, e)
    (selectAll sel .> data D .> enter_append t).
Proof.
  intros w Hw. unfold exec, mbind, M_bind, selectAll, data, enter_append. simpl.
  set (s := ids (filter (λ e, matches sel e = true) (bounds w))).
  assert (Hlen : length s = length (filter (λ e, matches sel e = true) (bounds w)))
    by apply length_ids.
  destruct (wf_wfb w Hw) as [Hnd Hlt].
  split_and!; try done.
  - unfold reconciled. rewrite entering_id, <- Hlen. f_equal.
    pose proof (join_old_part false (matches sel) D (λ _ e, e) (next_id w) []
                  ltac:(intros x Hx; by apply not_elem_of_nil in Hx) [] (bounds w)
                  Hnd Hlt) as H.
    simpl in H. rewrite remove_nodes_nil, update_nodes_id_fn in H. exact H.
  - by rewrite Hlen.
  - apply (page_untouched sel w _ _ Hw).
    intros x Hx. left. by apply (subseteq_take (length D) s).
Qed.

Section renders.
Context {A : Type} (rm : bool) (p : element → bool) (t : string).
Context (D : list record) (f : nat → element → element) (m : M A).
Context (Hm : renders rm p t D f m).
Context (Hfe : keeps_eid f).
Context (Hpf : ∀ k e, p (f k e) = p e).
Context (Hpd : ∀ d e, p (set_datum d e) = p e).
Context (Hpt : ∀ n d, p (new_element n t d) = true).

Lemma renders_wf w : wf w → wf (exec m w).
Proof.
  intros Hw. destruct (Hm w Hw) as (Hb & Hn & Hp & _).
  destruct Hw as [Hnd Hlt]. unfold wf. rewrite Hb, Hn, Hp. unfold reconciled.
  set (k := length (filter (λ e, p e = true) (bounds w))).
  set (E := drop k D).
  split.
  - unfold ids in *. rewrite !fmap_app in *. rewrite app_assoc.
    fold (ids (entering t f (length D `min` k) (next_id w) E)).
    rewrite (ids_entering t f Hfe).
    apply NoDup_app. split_and!.
    + eapply sublist_NoDup; [exact Hnd|].
      apply sublist_app; [done|]. apply (ids_reconcile_sublist rm p D f Hfe).
    + intros x Hx Hin. apply elem_of_seq in Hin.
      assert (Hx' : x ∈ eid <$> (page w ++ bounds w)).
      { rewrite fmap_app. apply elem_of_app.
        apply elem_of_app in Hx as [Hx|Hx]; [by left|right].
        eapply sublist_subseteq; [|exact Hx].
        apply (ids_reconcile_sublist rm p D f Hfe). }
      apply list_elem_of_fmap in Hx' as (e & -> & He).
      rewrite Forall_forall in Hlt. apply Hlt in He. lia.
    + apply NoDup_seq.
  - rewrite Forall_forall in *. intros e He.
    rewrite app_assoc in He. apply elem_of_app in He as [He|He].
    + assert (Hx : eid e ∈ eid <$> (page w ++ bounds w)).
      { rewrite fmap_app. apply elem_of_app.
        apply elem_of_app in He as [He|He].
        - left. apply list_elem_of_fmap. by exists e.
        - right. eapply sublist_subseteq;
            [apply (ids_reconcile_sublist rm p D f Hfe 0)|].
          apply list_elem_of_fmap. by exists e. }
      apply list_elem_of_fmap in Hx as (e' & -> & He').
      apply Hlt in He'. lia.
    + assert (Hx : eid e ∈ ids (entering t f (length D `min` k) (next_id w) E)).
      { apply list_elem_of_fmap. by exists e. }
      rewrite (ids_entering t f Hfe) in Hx. apply elem_of_seq in Hx. lia.
Qed.

Context (Hidem : ∀ k e d,
  f k (set_datum (Some d) (f k (set_datum (Some d) e)))
  = f k (set_datum (Some d) e)).

(** Rendering twice is rendering once. *)
Lemma renders_idempotent w : wf w → exec m (exec m w) = exec m w.
Proof.
  intros Hw. pose proof (renders_wf w Hw) as Hw1.
  destruct (Hm w Hw) as (Hb & Hn & Hp & Hd & Ht & Htt).
  destruct (Hm _ Hw1) as (Hb1 & Hn1 & Hp1 & Hd1 & Ht1 & Htt1).
  rewrite Hb in Hb1. rewrite (reconciled_idem rm p t D f Hpf Hpd Hpt Hidem) in Hb1.
  rewrite <- Hb in Hb1.
  rewrite drop_ge, Nat.add_0_r in Hn1.
  2:{ rewrite Hb. apply (count_reconciled rm p t D f Hpf Hpd Hpt). }
  destruct (exec m (exec m w)), (exec m w). simpl in *. congruence.
Qed.
End renders.

(** ** The render pipeline of the dots *)

Lemma dress_dot_bound e d el :
  dress_dot e (set_datum (Some d) el) =
  set_attr "fill" (AColor <$> apply (colorScale e) (colorAccessor d))
    (set_attr "r" (Some (ANum (Fin (zq 5))))
       (set_attr "cy" (ANum <$> apply (yScale e) (yAccessor d))
          (set_attr "cx" (ANum <$> apply (xScale e) (xAccessor d))
             (set_datum (Some d) el)))).
Proof. done. Qed.

Lemma dress_dot_idem e d el :
  dress_dot e (set_datum (Some d) (dress_dot e (set_datum (Some d) el)))
  = dress_dot e (set_datum (Some d) el).
Proof.
  rewrite dress_dot_bound.
  set (x := dress_dot e (set_datum (Some d) el)).
  assert (Hx : set_datum (Some d) x = x).
  { unfold x. by destruct el. }
  rewrite Hx.
  assert (Hcx : attrs x !! "cx" = ANum <$> apply (xScale e) (xAccessor d)).
  { unfold x. rewrite dress_dot_bound, !attrs_set_attr. repeat case_decide; done. }
  assert (Hcy : attrs x !! "cy" = ANum <$> apply (yScale e) (yAccessor d)).
  { unfold x. rewrite dress_dot_bound, !attrs_set_attr. repeat case_decide; done. }
  assert (Hr : attrs x !! "r" = Some (ANum (Fin (zq 5)))).
  { unfold x. rewrite dress_dot_bound, !attrs_set_attr. repeat case_decide; done. }
  assert (Hfill : attrs x !! "fill" = AColor <$> apply (colorScale e) (colorAccessor d)).
  { unfold x. rewrite dress_dot_bound, !attrs_set_attr. repeat case_decide; done. }
  by rewrite (set_attr_id "cx"), (set_attr_id "cy"), (set_attr_id "r"),
    (set_attr_id "fill").
Qed.

Lemma draw_dots_renders e D :
  renders true (matches "circle") "circle" D (λ _, dress_dot e) (draw_dots e D).
Proof.
  intros w Hw.
  pose proof (join_renders "circle" "circle" D _ _ (dots_attrs_elementwise e) w Hw) as H.
  unfold exec in *. by rewrite draw_dots_unfold.
Qed.

Lemma draw_dots_enter_renders D :
  renders false (matches "circle") "circle" D (λ _ e, e) (draw_dots_enter D).
Proof. apply enter_renders. Qed.

(** With no circle in the bounds group, [enter().append] creates one
    circle per record. *)
Lemma draw_dots_enter_fresh D w :
  marks w = [] →
  bounds (exec (draw_dots_enter D) w) = bounds w ++ create_all "circle" (next_id w) D.
Proof.
  unfold marks. intros Hm.
  unfold exec, draw_dots_enter, mbind, M_bind, selectAll, data, enter_append.
  cbn beta iota. rewrite Hm. cbn. rewrite take_nil, update_nodes_nil. done.
Qed.

Lemma marks_create_all n D :
  filter (λ e, matches "circle" e = true) (create_all "circle" n D)
  = create_all "circle" n D.
Proof.
  revert n. induction D as [|d D IH]; intros n; [done|].
  simpl. rewrite filter_cons. case_decide; [|done]. by rewrite IH.
Qed.

Lemma datum_create_all t n D : datum <$> create_all t n D = Some <$> D.
Proof.
  revert n. induction D as [|d D IH]; intros n; [done|].
  simpl. by rewrite IH.
Qed.

(** The drawn document of the scenario is well formed. *)
Lemma drawn_wf : wf drawn.
Proof. unfold wf. apply (bool_decide_unpack _). vm_compute. reflexivity. Qed.

Lemma drawn_wfb : wfb drawn.
Proof. apply wf_wfb, drawn_wf. Qed.

(** C1.  After the render pipeline of the dots, the circles of the bounds
    group are bound to the records of the dataset, one circle per record
    and in the order of the array, so that there are as many marks as
    records.  This holds for the join of part_001 in every bounds group
    whose node identifiers are unique (whatever circles it held before),
    and for the [enter().append] of part_000 in a bounds group without
    circles. *)
Theorem mark_count_equals_dataset (e : env) (D : list record) (w : world) :
  (wfb w →
     datum <$> marks (exec (draw_dots e D) w) = Some <$> D ∧
     length (marks (exec (draw_dots e D) w)) = length D) ∧
  (marks w = [] →
     datum <$> marks (exec (draw_dots_enter D) w) = Some <$> D ∧
     length (marks (exec (draw_dots_enter D) w)) = length D).
Proof.
  split.
  - intros Hw.
    pose proof (draw_dots_marks (λ m r, datum m = Some r) e D w
                  ltac:(by intros [] ?) Hw) as H.
    split; [by apply Forall2_datum|by eapply Forall2_length].
  - intros Hm. unfold marks at 1 2.
    rewrite (draw_dots_enter_fresh D w Hm), filter_app.
    unfold marks in Hm. rewrite Hm, marks_create_all. simpl.
    split; [apply datum_create_all|].
    rewrite <- (length_fmap datum), datum_create_all. apply length_fmap.
Qed.

(** C1 in the scenario: a re-render of the drawn document with one record,
    and the first render of the empty page with two. *)
Lemma mark_count_witness :
  (datum <$> marks (exec (draw_dots drawn_env [june]) drawn) = Some <$> [june] ∧
   length (marks (exec (draw_dots drawn_env [june]) drawn)) = length [june]) ∧
  (datum <$> marks (exec (draw_dots_enter [january; june]) index_html)
     = Some <$> [january; june] ∧
   length (marks (exec (draw_dots_enter [january; june]) index_html))
     = length [january; june]).
Proof.
  split.
  - apply (proj1 (mark_count_equals_dataset drawn_env [june] drawn)).
    apply drawn_wfb.
  - apply (proj2 (mark_count_equals_dataset drawn_env [january; june] index_html)).
    reflexivity.
Defined.


(** C2.  After the render pipeline, the mark of the [i]-th record [r] is
    bound to [r], its [cx] is [xScale (xAccessor r)] and its [cy] is
    [yScale (yAccessor r)], where [xAccessor] reads the dew point and
    [yAccessor] the humidity.  The numbers are exact rationals: the
    floating-point tolerance of the claim is not needed. *)
Theorem mark_position_is_scaled_record (e : env) (D : list record) (w : world)
    (i : nat) (r : record) :
  wfb w → D !! i = Some r →
  ∃ m, marks (exec (draw_dots e D) w) !! i = Some m ∧
       datum m = Some r ∧
       attrs m !! "cx" = ANum <$> apply (xScale e) (xAccessor r) ∧
       attrs m !! "cy" = ANum <$> apply (yScale e) (yAccessor r) ∧
       xAccessor r = Fin <$> dewPoint r ∧ yAccessor r = Fin <$> humidity r.
Proof.
  intros Hw Hi.
  pose proof (draw_dots_marks
    (λ m r, datum m = Some r ∧
            attrs m !! "cx" = ANum <$> apply (xScale e) (xAccessor r) ∧
            attrs m !! "cy" = ANum <$> apply (yScale e) (yAccessor r)) e D w) as H.
  assert (HQ : ∀ el d,
    datum (dress_dot e (set_datum (Some d) el)) = Some d ∧
    attrs (dress_dot e (set_datum (Some d) el)) !! "cx"
      = ANum <$> apply (xScale e) (xAccessor d) ∧
    attrs (dress_dot e (set_datum (Some d) el)) !! "cy"
      = ANum <$> apply (yScale e) (yAccessor d)).
  { intros el d. rewrite dress_dot_bound. split_and!.
    - by destruct el.
    - rewrite !attrs_set_attr. repeat case_decide; done.
    - rewrite !attrs_set_attr. repeat case_decide; done. }
  destruct (Forall2_lookup_r _ _ _ _ _ (H HQ Hw) Hi) as (m & Hm & ? & ? & ?).
  by exists m.
Qed.

(** C2 in the scenario: the mark of the second record. *)
Lemma mark_position_witness :
  wfb drawn ∧ [january; june] !! 1 = Some june ∧
  ∃ m, marks (exec (draw_dots drawn_env [january; june]) drawn) !! 1 = Some m ∧
       datum m = Some june ∧
       attrs m !! "cx" = ANum <$> apply (xScale drawn_env) (xAccessor june) ∧
       attrs m !! "cy" = ANum <$> apply (yScale drawn_env) (yAccessor june) ∧
       xAccessor june = Fin <$> dewPoint june ∧
       yAccessor june = Fin <$> humidity june.
Proof.
  split; [apply drawn_wfb|]. split; [reflexivity|].
  apply (mark_position_is_scaled_record drawn_env [january; june] drawn 1 june).
  - apply drawn_wfb.
  - reflexivity.
Defined.


(** C3.  Running the render pipeline a second time with the same dataset
    changes nothing: the document after two runs is the document after
    one, so no mark is added and none is removed.  This holds for the
    join of part_001 and for the [enter().append] of part_000, in every
    document whose node identifiers are unique. *)
Theorem render_twice_is_render_once (e : env) (D : list record) (w : world) :
  wf w →
  exec (draw_dots e D) (exec (draw_dots e D) w) = exec (draw_dots e D) w ∧
  exec (draw_dots_enter D) (exec (draw_dots_enter D) w) = exec (draw_dots_enter D) w.
Proof.
  intros Hw. split.
  - apply (renders_idempotent true (matches "circle") "circle" D (λ _, dress_dot e)
             _ (draw_dots_renders e D)); try done.
    + intros k el. by destruct el as [? ? ? ? [] ? ?].
    + intros k el. apply matches_dress_dot.
    + intros _ el d. apply dress_dot_idem.
  - by apply (renders_idempotent false (matches "circle") "circle" D (λ _ e, e)
                _ (draw_dots_enter_renders D)).
Qed.

(** C3 in the scenario: re-rendering the drawn document. *)
Lemma render_twice_witness :
  wf drawn ∧
  exec (draw_dots drawn_env [january; june])
    (exec (draw_dots drawn_env [january; june]) drawn)
  = exec (draw_dots drawn_env [january; june]) drawn ∧
  exec (draw_dots_enter [january; june]) (exec (draw_dots_enter [january; june]) drawn)
  = exec (draw_dots_enter [january; june]) drawn.
Proof.
  split; [apply drawn_wf|].
  apply (render_twice_is_render_once drawn_env [january; june] drawn), drawn_wf.
Defined.


(** ** Rational arithmetic and the dimensions *)

Lemma Qc_ltb_lt (a b : Qc) : Qc_ltb a b = true ↔ (a < b)%Qc.
Proof.
  unfold Qc_ltb. rewrite Qclt_alt. destruct (a ?= b)%Qc; naive_solver.
Qed.

Lemma Qc_leb_le (a b : Qc) : Qc_leb a b = true ↔ (a ≤ b)%Qc.
Proof.
  unfold Qc_leb. rewrite Qcle_alt. destruct (a ?= b)%Qc; naive_solver.
Qed.

Lemma Qc_eqb_eq (a b : Qc) : Qc_eqb a b = true ↔ a = b.
Proof.
  unfold Qc_eqb. rewrite Qceq_alt. destruct (a ?= b)%Qc; naive_solver.
Qed.

Lemma Qc_ltb_ge (a b : Qc) : Qc_ltb a b = false ↔ (b ≤ a)%Qc.
Proof.
  rewrite <- not_true_iff_false, Qc_ltb_lt. split.
  - apply Qcnot_lt_le.
  - apply Qcle_not_lt.
Qed.

Lemma Qc_leb_gt (a b : Qc) : Qc_leb a b = false ↔ (b < a)%Qc.
Proof.
  rewrite <- not_true_iff_false, Qc_leb_le. split.
  - apply Qcnot_le_lt.
  - apply Qclt_not_le.
Qed.


Lemma zq_lt (a b : Z) : (zq a < zq b)%Qc ↔ (a < b)%Z.
Proof.
  unfold zq, Qclt. simpl. rewrite !Qred_correct. unfold Qlt. simpl. lia.
Qed.

Lemma zq_le (a b : Z) : (zq a ≤ zq b)%Qc ↔ (a ≤ b)%Z.
Proof.
  unfold zq, Qcle. simpl. rewrite !Qred_correct. unfold Qle. simpl. lia.
Qed.

Lemma lit_pos (n d : positive) : (0 < lit (Zpos n) d)%Qc.
Proof. unfold lit, Qclt. cbn [this Q2Qc]. rewrite !Qred_correct. unfold Qlt. simpl. lia. Qed.

(** C4.  The chart is a square of side [min(innerWidth, innerHeight) * 0.9];
    the bounded width is the side minus the left and right margins, the
    bounded height the side minus the top and bottom margins, and the
    margins are the ones given. *)
Theorem dimensions_square_and_bounded (m : margins) (vp : viewport) :
  let d := make_dimensions m vp in
  let side := (zq (Z.min (innerWidth vp) (innerHeight vp)) * lit 9 10)%Qc in
  width d = Some (Fin side) ∧
  height d = Some (Fin side) ∧
  boundedWidth d = Fin (side - left m - right m)%Qc ∧
  boundedHeight d = Fin (side - top m - bottom m)%Qc ∧
  margin d = m.
Proof.
  intros d side.
  assert (Hw : chart_width vp = Some (Fin side)).
  { unfold chart_width, D3.min, side. simpl.
    unfold geb, gtb. simpl.
    assert (Hrefl : ∀ x, Qc_leb x x = true) by (intros x; apply Qc_leb_le, Qcle_refl).
    rewrite Hrefl.
    destruct (Z.min_spec (innerWidth vp) (innerHeight vp)) as [[Hlt ->]|[Hle ->]].
    - assert (H : Qc_ltb (zq (innerHeight vp) * lit 9 10) (zq (innerWidth vp) * lit 9 10)
                  = false).
      { apply Qc_ltb_ge. apply Qcmult_le_mono_pos_r; [apply lit_pos|].
        apply zq_le. lia. }
      by rewrite H.
    - destruct (Z.eq_dec (innerHeight vp) (innerWidth vp)) as [->|Hne].
      { by destruct (Qc_ltb _ _). }
      assert (H : Qc_ltb (zq (innerHeight vp) * lit 9 10) (zq (innerWidth vp) * lit 9 10)
                  = true).
      { apply Qc_ltb_lt. apply Qcmult_lt_mono_pos_r; [apply lit_pos|].
        apply zq_lt. lia. }
      by rewrite H. }
  subst d. unfold make_dimensions. simpl. rewrite Hw. done.
Qed.

(** ** Scales *)

Lemma same_eq a b : same a b = true → a = b.
Proof.
  destruct a as [|s|x], b as [|t|y]; simpl; try done.
  - intros H. apply Bool.eqb_prop in H. by subst.
  - intros H. apply Qc_eqb_eq in H. by subst.
Qed.

(** C6.  Niceing the domain [[11.8, 77.26]] gives [[10, 80]]: both bounds
    are multiples of the tick increment 5 that d3 chooses for ten ticks,
    and they enclose the extent.  The x scale of a dataset with these two
    dew points has this domain. *)
Theorem nice_rounds_weather_extent :
  let extent := (Some (Fin (lit 118 10)), Some (Fin (lit 7726 100))) in
  let s := nice (set_domain extent scaleLinear) in
  domain s = (Fin (zq 10), Fin (zq 80)) ∧
  tickIncrement (Fin (zq 10)) (Fin (zq 80)) (Fin (zq 10)) = Fin (zq 5) ∧
  zq 10 = (zq 2 * zq 5)%Qc ∧ zq 80 = (zq 16 * zq 5)%Qc ∧
  (zq 10 ≤ lit 118 10)%Qc ∧ (lit 7726 100 ≤ zq 80)%Qc ∧
  ∀ dimensions,
    domain (make_xScale [mkRecord (Some (lit 7726 100)) None None None;
                         mkRecord (Some (lit 118 10)) None None None] dimensions)
    = (Fin (zq 10), Fin (zq 80)).
Proof.
  intros extent s.
  assert (Hd : domain s = (Fin (zq 10), Fin (zq 80))).
  { destruct (domain s) as [a b] eqn:E.
    assert (same a (Fin (zq 10)) = true ∧ same b (Fin (zq 80)) = true) as [Ha Hb].
    { replace a with (domain s).1 by (by rewrite E).
      replace b with (domain s).2 by (by rewrite E).
      split; vm_compute; reflexivity. }
    by rewrite (same_eq _ _ Ha), (same_eq _ _ Hb). }
  split_and!.
  - exact Hd.
  - apply same_eq. vm_compute. reflexivity.
  - apply Qc_is_canon. reflexivity.
  - apply Qc_is_canon. reflexivity.
  - apply Qc_leb_le. vm_compute. reflexivity.
  - apply Qc_leb_le. vm_compute. reflexivity.
  - intros dimensions. exact Hd.
Qed.

(** C7, counterexample.  With an empty dataset the script neither fails
    nor falls back to a default domain: the extent is undefined, the
    domain of the x scale is [[NaN, NaN]] and the scale answers [NaN]. *)
Lemma empty_dataset_scale_yields_NaN :
  let dimensions := make_dimensions Part001.margin (mkViewport 800 600) in
  extent ([] : list record) xAccessor = (None, None) ∧
  domain (make_xScale [] dimensions) = (NaN, NaN) ∧
  apply (make_xScale [] dimensions) (Some (Fin (zq 40))) = Some NaN.
Proof. by split_and!. Qed.

(** C7, as the code behaves.  For an empty dataset the extents are
    undefined, the domains of both position scales are [[NaN, NaN]], and
    both scales map every number to [NaN] (and no value to no value):
    nothing fails and no default domain is used. *)
Theorem empty_dataset_scales (dimensions : dimensions) (x : Qc) :
  extent ([] : list record) xAccessor = (None, None) ∧
  extent ([] : list record) yAccessor = (None, None) ∧
  domain (make_xScale [] dimensions) = (NaN, NaN) ∧
  domain (make_yScale [] dimensions) = (NaN, NaN) ∧
  apply (make_xScale [] dimensions) (Some (Fin x)) = Some NaN ∧
  apply (make_yScale [] dimensions) (Some (Fin x)) = Some NaN ∧
  apply (make_xScale [] dimensions) None = None ∧
  apply (make_yScale [] dimensions) None = None.
Proof.
  split_and!; try done.
  cbn. by destruct (boundedHeight dimensions).
Qed.

(** ** The extent of finite values *)





(** ** The niceing loop *)














Lemma Qcmult_div_cancel (x y : Qc) : y ≠ 0%Qc → (x * y / y)%Qc = x.
Proof. intros Hy. field. done. Qed.











(** ** Appending a node and dressing it *)

Lemma update_nodes_fresh n f l e :
  Forall (λ e, eid e < n) l → eid e = n →
  update_nodes [n] f (l ++ [e]) = l ++ [f 0 e].
Proof.
  intros Hl He. rewrite update_nodes_app. f_equal.
  - apply update_nodes_disjoint. intros e' He' Hin.
    apply list_elem_of_singleton in Hin. rewrite Forall_forall in Hl.
    apply Hl in He'. lia.
  - simpl. by rewrite He, Nat.eqb_refl.
Qed.

Lemma append_then t op f w :
  elementwise op f → wf w →
  (append t .> op) w =
  ([next_id w],
   mkWorld (dataset w) (page w) (tooltip w) (tooltip_text w)
     (bounds w ++ [f 0 (new_element (next_id w) t None)]) (S (next_id w))).
Proof.
  intros Hop [Hnd Hlt]. unfold mbind, M_bind, append. rewrite Hop.
  unfold update_world. cbn [dataset page tooltip tooltip_text bounds next_id].
  apply Forall_app in Hlt as [Hp Hb].
  rewrite (update_nodes_fresh _ _ _ _ Hb) by done.
  rewrite update_nodes_disjoint; [done|].
  intros e He Hin. apply list_elem_of_singleton in Hin.
  rewrite Forall_forall in Hp. apply Hp in He. lia.
Qed.

Lemma wf_append w e :
  wf w → eid e = next_id w →
  wf (mkWorld (dataset w) (page w) (tooltip w) (tooltip_text w)
        (bounds w ++ [e]) (S (next_id w))).
Proof.
  intros [Hnd Hlt] He. split; cbn [page bounds next_id].
  - rewrite app_assoc. unfold ids. rewrite fmap_app. apply NoDup_app.
    split_and!; [done| |apply NoDup_singleton].
    intros x Hx Hin. apply list_elem_of_singleton in Hin. subst x.
    apply list_elem_of_fmap in Hx as (e' & He' & Hin').
    rewrite Forall_forall in Hlt. apply Hlt in Hin'. lia.
  - rewrite app_assoc. apply Forall_app. split.
    + eapply Forall_impl; [exact Hlt|]. intros; simpl in *; lia.
    + apply Forall_singleton. lia.
Qed.

(** ** The hover handlers *)

Lemma dayDot_attrs_elementwise e d :
  elementwise (dayDot_attrs e d)
    (λ _ el,
       set_style "pointer-events" (Some (AStr "none"))
         (set_style "fill" (Some (AStr "maroon"))
            (set_attr "r" (Some (ANum (Fin (zq 7))))
               (set_attr "cy" (ANum <$> apply (yScale e) (yAccessor d))
                  (set_attr "cx" (ANum <$> apply (xScale e) (xAccessor d))
                     (set_attr "class" (Some (AStr "tooltipDot")) el)))))).
Proof.
  unfold dayDot_attrs.
  eapply elementwise_ext;
    [|repeat (eapply elementwise_chain;
                [|first [apply attr_elementwise|apply style_elementwise]|]);
      first [apply attr_elementwise|idtac]].
  all: intros ? ?; reflexivity.
Qed.

Lemma append_dayDot_spec e d w :
  wf w →
  append_dayDot e d w =
  ([next_id w],
   mkWorld (dataset w) (page w) (tooltip w) (tooltip_text w)
     (bounds w ++ [dayDot e d (next_id w)]) (S (next_id w))).
Proof.
  intros Hw.
  change (append_dayDot e d w) with ((append "circle" .> dayDot_attrs e d) w).
  by rewrite (append_then _ _ _ _ (dayDot_attrs_elementwise e d) Hw).
Qed.

Lemma matches_dayDot e d n : matches ".tooltipDot" (dayDot e d n) = true.
Proof.
  unfold dayDot. cbn [matches]. unfold attr_is.
  cbn [attrs set_style]. rewrite !attrs_set_attr.
  repeat case_decide; try done.
Qed.

Lemma tooltip_style_spec name v w :
  tooltip_style name v w =
  (tt, mkWorld (dataset w) (page w) (set_style name (Some v) (tooltip w))
         (tooltip_text w) (bounds w) (next_id w)).
Proof. done. Qed.

Lemma tooltip_only_wf m w : tooltip_only m → wf w → wf (exec m w).
Proof.
  intros Hm Hw. destruct (Hm w) as (Hp & Hb & Hn & _).
  unfold wf. by rewrite Hp, Hb, Hn.
Qed.

Lemma tooltip_only_bind (m k : M unit) :
  tooltip_only m → tooltip_only k → tooltip_only (m;; k).
Proof.
  intros Hm Hk w. unfold exec, mbind, M_bind.
  destruct (m w) as [[] w1] eqn:E.
  pose proof (Hm w) as Hm'. unfold exec in Hm'. rewrite E in Hm'. simpl in Hm'.
  destruct Hm' as (<- & <- & <- & <-). apply Hk.
Qed.

Lemma tooltip_style_only name v : tooltip_only (tooltip_style name v).
Proof. done. Qed.

Lemma tooltip_set_text_only id v : tooltip_only (tooltip_set_text id v).
Proof. done. Qed.

Lemma tooltip_fields_only d : tooltip_only (tooltip_fields d).
Proof.
  unfold tooltip_fields.
  repeat (apply tooltip_only_bind; [apply tooltip_set_text_only|]).
  apply tooltip_set_text_only.
Qed.

Lemma tooltip_move_only e d close : tooltip_only (tooltip_move e d close).
Proof. apply tooltip_style_only. Qed.

Lemma styles_set_style name v e name' :
  styles (set_style name v e) !! name' =
  if decide (name = name') then v else styles e !! name'.
Proof.
  unfold set_style. simpl. destruct v as [x|].
  - apply lookup_insert.
  - rewrite lookup_delete. by case_decide.
Qed.

Lemma enter_with_dot_spec e d close w :
  wf w →
  let w' := exec (enter_with_dot e d close) w in
  bounds w' = bounds w ++ [dayDot e d (next_id w)] ∧
  page w' = page w ∧ next_id w' = S (next_id w) ∧ dataset w' = dataset w ∧
  styles (tooltip w') !! "opacity" = Some (ANum (Fin 1)) ∧
  wf w'.
Proof.
  intros Hw w'. subst w'.
  unfold enter_with_dot, exec, mbind, M_bind.
  rewrite (append_dayDot_spec e d w Hw).
  set (w1 := mkWorld _ _ _ _ _ _).
  assert (Hw1 : wf w1) by (by apply wf_append).
  assert (Hrest : tooltip_only (tooltip_style "opacity" (ANum (Fin 1));;
                                tooltip_fields d;; tooltip_move e d close)).
  { apply tooltip_only_bind; [apply tooltip_style_only|].
    apply tooltip_only_bind; [apply tooltip_fields_only|apply tooltip_move_only]. }
  pose proof (Hrest w1) as (Hp & Hb & Hn & Hd).
  pose proof (tooltip_only_wf _ _ Hrest Hw1) as Hwf.
  unfold exec, mbind, M_bind in Hp, Hb, Hn, Hd, Hwf.
  split_and!; try done.
  unfold tooltip_style, tooltip_fields, tooltip_move, tooltip_style,
    tooltip_set_text, mbind, M_bind.
  cbn [snd tooltip]. rewrite !styles_set_style. by repeat case_decide.
Qed.

Lemma filter_none {A : Type} (P : A → Prop) `{!∀ x, Decision (P x)} (l : list A) :
  Forall (λ x, ¬ P x) l → filter P l = [].
Proof.
  induction 1 as [|x l Hx _ IH]; [done|].
  rewrite filter_cons. by case_decide.
Qed.

(** Removing every node that matches a selector leaves none that does. *)
Lemma remove_matching sel (l : list element) :
  filter (λ e, matches sel e = true)
    (remove_nodes (ids (filter (λ e, matches sel e = true) l)) l) = [].
Proof.
  apply filter_none. apply Forall_forall. intros e He Hm.
  unfold remove_nodes in He. apply list_elem_of_filter in He as [Hmem He].
  apply member_false in Hmem. apply Hmem.
  apply list_elem_of_fmap. exists e. split; [done|].
  by apply list_elem_of_filter.
Qed.

Lemma remove_dots_spec w :
  highlight_marks (exec remove_dots w) = [] ∧
  tooltip (exec remove_dots w) = tooltip w ∧
  dataset (exec remove_dots w) = dataset w.
Proof.
  split_and!; try done.
  unfold highlight_marks, exec, remove_dots, mbind, M_bind, d3_selectAll, remove,
    mret, M_ret.
  cbn [snd page bounds]. rewrite <- remove_nodes_app. apply remove_matching.
Qed.

Lemma highlight_marks_enter e d close w :
  wf w →
  highlight_marks (exec (enter_with_dot e d close) w)
  = highlight_marks w ++ [dayDot e d (next_id w)].
Proof.
  intros Hw. destruct (enter_with_dot_spec e d close w Hw) as (Hb & Hp & _).
  unfold highlight_marks. rewrite Hb, Hp, app_assoc, filter_app. f_equal.
  rewrite filter_cons. case_decide as Hc; [done|].
  exfalso. apply Hc. apply matches_dayDot.
Qed.

Lemma position_lookup (l : list element) p e :
  NoDup (ids l) → l !! p = Some e → position (eid e) l = Some p.
Proof.
  intros Hnd Hp. unfold position. apply index_of_lookup_NoDup; [done|].
  unfold ids. by rewrite list_lookup_fmap, Hp.
Qed.

(** A node styled [pointer-events: none] takes no pointer event. *)
Lemma dispatch_inert run type w p e :
  wfb w → bounds w !! p = Some e → receives_pointer_events e = false →
  dispatch run type (eid e) w = (tt, w).
Proof.
  intros [Hnd _] Hp He. unfold dispatch.
  by rewrite (position_lookup _ _ _ Hnd Hp), Hp, He.
Qed.

Lemma enter_all_count e close ds w :
  wf w →
  length (highlight_marks (exec (enter_all (λ d, enter_with_dot e d close) ds) w))
  = length (highlight_marks w) + length ds.
Proof.
  revert w. induction ds as [|d ds IH]; intros w Hw.
  - change (exec (enter_all (λ d, enter_with_dot e d close) []) w) with w.
    cbn [length]. lia.
  - cbn [enter_all]. unfold exec, mbind, M_bind.
    destruct (enter_with_dot e d close w) as [[] w1] eqn:E.
    assert (Hw1 : w1 = exec (enter_with_dot e d close) w) by (unfold exec; by rewrite E).
    destruct (enter_with_dot_spec e d close w Hw) as (_ & _ & _ & _ & _ & Hwf).
    rewrite <- Hw1 in Hwf. specialize (IH w1 Hwf). unfold exec in IH. rewrite IH.
    rewrite Hw1, (highlight_marks_enter e d close w Hw), length_app. simpl. lia.
Qed.

Lemma exec_bind {A B : Type} (m : M A) (k : A → M B) w :
  exec (m ≫= k) w = exec (k (m w).1) (m w).2.
Proof. unfold exec, mbind, M_bind. by destruct (m w). Qed.

Lemma enter_with_dot_tooltip e d close w :
  styles (tooltip (exec (enter_with_dot e d close) w)) !! "opacity"
  = Some (ANum (Fin 1)).
Proof.
  unfold enter_with_dot. rewrite exec_bind.
  generalize ((append_dayDot e d w).2). intros w1.
  unfold tooltip_fields, tooltip_move, tooltip_style, tooltip_set_text, exec,
    mbind, M_bind.
  cbn [snd fst tooltip]. rewrite !styles_set_style. by repeat case_decide.
Qed.

Lemma remove_dots_after {A : Type} (m : M A) w :
  highlight_marks (exec (m;; remove_dots) w) = [] ∧
  tooltip (exec (m;; remove_dots) w) = tooltip (exec m w).
Proof.
  rewrite exec_bind. destruct (remove_dots_spec (m w).2) as (H1 & H2 & _).
  by split.
Qed.

(** C8.  In part_004 a pointer-leave after a pointer-enter removes the
    highlight mark but leaves the tooltip shown: the statement that hides
    it is commented out, so the opacity stays 1. *)
Theorem Part004_leave_keeps_tooltip_shown (e : env) (d : record) (w : world) :
  let w' := exec (Part004.onMouseEnter e d;; Part004.onMouseLeave) w in
  styles (tooltip w') !! "opacity" = Some (ANum (Fin 1)) ∧
  highlight_marks w' = [].
Proof.
  intros w'. subst w'.
  change (Part004.onMouseEnter e d) with (enter_with_dot e d "px) )").
  change Part004.onMouseLeave with remove_dots.
  destruct (remove_dots_after (enter_with_dot e d "px) )") w) as [H1 H2].
  split; [|done]. rewrite H2. apply enter_with_dot_tooltip.
Qed.

(** part_005 and part_001 return to idle. *)
Lemma Part005_leave_returns_to_idle (e : env) (d : record) (w : world) :
  let w' := exec (Part005.onMouseEnter e d;; Part005.onMouseLeave) w in
  styles (tooltip w') !! "opacity" = Some (ANum (Fin 0)) ∧
  highlight_marks w' = [].
Proof.
  intros w'. subst w'.
  change Part005.onMouseLeave
    with (tooltip_style "opacity" (ANum (Fin 0));; remove_dots).
  rewrite exec_bind.
  destruct (remove_dots_after (tooltip_style "opacity" (ANum (Fin 0)))
              (Part005.onMouseEnter e d w).2) as [H1 H2].
  split; [|done]. rewrite H2.
  unfold exec, tooltip_style. cbn [snd tooltip].
  rewrite styles_set_style. by case_decide.
Qed.

Lemma Part001_leave_returns_to_idle (e : env) (d : record) (w : world) :
  let w' := exec (Part001.onMouseEnter e d;; Part001.onMouseLeave) w in
  styles (tooltip w') !! "opacity" = Some (ANum (Fin 0)) ∧
  highlight_marks w' = highlight_marks w.
Proof.
  intros w'. subst w'. rewrite exec_bind. split.
  - unfold Part001.onMouseLeave, exec, tooltip_style. cbn [snd tooltip].
    rewrite styles_set_style. by case_decide.
  - done.
Qed.

Lemma dayDot_pointer_events e d n :
  styles (dayDot e d n) !! "pointer-events" = Some (AStr "none").
Proof. unfold dayDot. rewrite styles_set_style. by case_decide. Qed.

Lemma dayDot_inert e d n : receives_pointer_events (dayDot e d n) = false.
Proof. unfold receives_pointer_events. by rewrite dayDot_pointer_events. Qed.

(** C10.  Each pointer-enter appends one highlight mark: after [n] enters
    without a leave there are [n] more.  A pointer-leave removes every
    highlight mark of the document, whatever their number.  A highlight
    mark is styled [pointer-events: none] and has no listener, so that an
    event on it reaches no handler. *)
Theorem highlight_marks_accumulate_and_clear (e : env) (w : world) :
  wf w →
  (∀ ds,
     length (highlight_marks (exec (enter_all (Part004.onMouseEnter e) ds) w))
     = length (highlight_marks w) + length ds ∧
     length (highlight_marks (exec (enter_all (Part005.onMouseEnter e) ds) w))
     = length (highlight_marks w) + length ds) ∧
  (∀ w', highlight_marks (exec Part004.onMouseLeave w') = [] ∧
         highlight_marks (exec Part005.onMouseLeave w') = []) ∧
  (∀ ds,
     highlight_marks
       (exec (enter_all (Part004.onMouseEnter e) ds;; Part004.onMouseLeave) w) = [] ∧
     highlight_marks
       (exec (enter_all (Part005.onMouseEnter e) ds;; Part005.onMouseLeave) w) = []) ∧
  (∀ d, ∃ dot,
     bounds (exec (Part004.onMouseEnter e d) w) = bounds w ++ [dot] ∧
     bounds (exec (Part005.onMouseEnter e d) w) = bounds w ++ [dot] ∧
     matches ".tooltipDot" dot = true ∧
     styles dot !! "pointer-events" = Some (AStr "none") ∧
     listeners dot = ∅ ∧
     (∀ type,
        dispatch (Part004.run e) type (eid dot) (exec (Part004.onMouseEnter e d) w)
        = (tt, exec (Part004.onMouseEnter e d) w) ∧
        dispatch (Part005.run e) type (eid dot) (exec (Part005.onMouseEnter e d) w)
        = (tt, exec (Part005.onMouseEnter e d) w))).
Proof.
  intros Hw.
  assert (Hleave4 : ∀ w', highlight_marks (exec Part004.onMouseLeave w') = []).
  { intros w'. apply (remove_dots_spec w'). }
  assert (Hleave5 : ∀ w', highlight_marks (exec Part005.onMouseLeave w') = []).
  { intros w'.
    change Part005.onMouseLeave
      with (tooltip_style "opacity" (ANum (Fin 0));; remove_dots).
    apply remove_dots_after. }
  split_and!.
  - intros ds. split.
    + apply (enter_all_count e "px) )" ds w Hw).
    + apply (enter_all_count e "px))" ds w Hw).
  - intros w'. by split.
  - intros ds. split; rewrite exec_bind; [apply Hleave4|apply Hleave5].
  - intros d. exists (dayDot e d (next_id w)).
    destruct (enter_with_dot_spec e d "px) )" w Hw) as (Hb4 & _ & _ & _ & _ & Hw4).
    destruct (enter_with_dot_spec e d "px))" w Hw) as (Hb5 & _ & _ & _ & _ & Hw5).
    split_and!; try done.
    + apply matches_dayDot.
    + intros type. split.
      * change (Part004.onMouseEnter e d) with (enter_with_dot e d "px) )").
        generalize dependent (exec (enter_with_dot e d "px) )") w).
        intros w4 Hb4 Hw4.
        apply (dispatch_inert (Part004.run e) type w4 (length (bounds w))
                 (dayDot e d (next_id w)));
          [by apply wf_wfb| |apply dayDot_inert].
        rewrite Hb4. by rewrite lookup_app_r, Nat.sub_diag.
      * change (Part005.onMouseEnter e d) with (enter_with_dot e d "px))").
        generalize dependent (exec (enter_with_dot e d "px))") w).
        intros w5 Hb5 Hw5.
        apply (dispatch_inert (Part005.run e) type w5 (length (bounds w))
                 (dayDot e d (next_id w)));
          [by apply wf_wfb| |apply dayDot_inert].
        rewrite Hb5. by rewrite lookup_app_r, Nat.sub_diag.
Qed.

(** C10 in the scenario: three pointer-enters on the drawn document. *)
Lemma highlight_marks_witness :
  wf drawn ∧
  length (highlight_marks
            (exec (enter_all (Part005.onMouseEnter drawn_env) [january; june; january])
               drawn))
  = length (highlight_marks drawn) + 3 ∧
  highlight_marks
    (exec (enter_all (Part005.onMouseEnter drawn_env) [january; june; january];;
           Part005.onMouseLeave) drawn) = [].
Proof.
  split; [apply drawn_wf|].
  destruct (highlight_marks_accumulate_and_clear drawn_env drawn drawn_wf)
    as (H1 & _ & H3 & _).
  split.
  - apply (H1 [january; june; january]).
  - apply (H3 [january; june; january]).
Defined.


(** ** The fetched records *)

Lemma drawScatter_dataset (json : list record) (vp : viewport) (w : world) :
  dataset (exec (Part000.drawScatter json vp) w) = json ∧
  dataset (exec (Part001.drawScatter json vp) w) = json ∧
  dataset (exec (Part004.drawScatter json vp) w) = json ∧
  dataset (exec (Part005.drawScatter json vp) w) = json.
Proof. split_and!; reflexivity. Qed.

Lemma handlers_keep_dataset (e : env) (d : record) :
  keeps_dataset (Part001.onMouseEnter e d) ∧ keeps_dataset Part001.onMouseLeave ∧
  keeps_dataset (Part004.onMouseEnter e d) ∧ keeps_dataset Part004.onMouseLeave ∧
  keeps_dataset (Part005.onMouseEnter e d) ∧ keeps_dataset Part005.onMouseLeave.
Proof. split_and!; intros w; reflexivity. Qed.

Lemma dispatch_keeps_dataset run type target :
  (∀ h d, keeps_dataset (run h d)) → keeps_dataset (dispatch run type target).
Proof.
  intros Hrun w. unfold dispatch.
  destruct (position target (bounds w)) as [p|]; [|done].
  destruct (bounds w !! p) as [e|]; [|done].
  destruct (receives_pointer_events e); [|done].
  destruct (listeners e !! type) as [h|]; [|done].
  destruct (datum e) as [d|]; [|done]. apply Hrun.
Qed.

Lemma lookup_parse_value (d : gmap string LineChart.jsval) (k : string) :
  LineChart.parse_value d !! k =
  if decide (k = "close") then Some (LineChart.plus (LineChart.get d "close"))
  else if decide (k = "date")
       then Some (LineChart.parseTime (LineChart.get d "date"))
       else d !! k.
Proof.
  unfold LineChart.parse_value.
  assert (Hc : LineChart.get (<["date":=LineChart.parseTime (LineChart.get d "date")]> d)
                 "close" = LineChart.get d "close").
  { unfold LineChart.get. by rewrite lookup_insert_ne. }
  rewrite Hc, !lookup_insert. repeat case_decide; congruence.
Qed.

(** C9, counterexample.  The loop of the line chart rewrites the records
    it fetched: the date string becomes a parsed time and the price string
    a number, in the very objects of the dataset. *)
Lemma line_chart_rewrites_records :
  let value : gmap string LineChart.jsval :=
    {[ "date" := LineChart.JStr "2019/01/01";
       "close" := LineChart.JNum (Fin (zq 10)) ]} in
  let dataset := [LineChart.mkCompany {[ "name" := LineChart.JStr "A" ]} [value]] in
  LineChart.parse_dataset dataset ≠ dataset ∧
  (∃ co d, LineChart.parse_dataset dataset !! 0 = Some co ∧
           LineChart.values co !! 0 = Some d ∧
           d !! "date" = Some (LineChart.JParsedTime "%Y/%m/%d"
                                 (LineChart.JStr "2019/01/01")) ∧
           value !! "date" = Some (LineChart.JStr "2019/01/01")).
Proof.
  intros value dataset.
  assert (Hd : LineChart.parse_value value !! "date"
               = Some (LineChart.JParsedTime "%Y/%m/%d" (LineChart.JStr "2019/01/01"))).
  { rewrite lookup_parse_value. done. }
  split.
  - intros Heq.
    pose proof (f_equal (λ ds : list LineChart.company,
      match ds with
      | co :: _ =>
          match LineChart.values co with
          | d :: _ => d !! "date"
          | [] => None
          end
      | [] => None
      end) Heq) as H.
    vm_compute in H. discriminate H.
  - eexists _, _. split_and!; [done|done|exact Hd|done].
Qed.

(** C9, as the code behaves.  The scatterplot scripts and their handlers
    leave the records of the dataset as they were loaded; the line chart
    replaces the [date] and [close] fields of every record by the parsed
    values and keeps the other fields. *)
Theorem scatter_keeps_records_line_chart_parses_them :
  (∀ (json : list record) (vp : viewport) (w : world),
     dataset (exec (Part000.drawScatter json vp) w) = json ∧
     dataset (exec (Part001.drawScatter json vp) w) = json ∧
     dataset (exec (Part004.drawScatter json vp) w) = json ∧
     dataset (exec (Part005.drawScatter json vp) w) = json) ∧
  (∀ (e : env) (type : string) (target : nat) (w : world),
     dataset (exec (dispatch (Part001.run e) type target) w) = dataset w ∧
     dataset (exec (dispatch (Part004.run e) type target) w) = dataset w ∧
     dataset (exec (dispatch (Part005.run e) type target) w) = dataset w) ∧
  (∀ (dataset : list LineChart.company),
     length (LineChart.parse_dataset dataset) = length dataset ∧
     ∀ i co, dataset !! i = Some co →
       ∃ co', LineChart.parse_dataset dataset !! i = Some co' ∧
         LineChart.properties co' = LineChart.properties co ∧
         length (LineChart.values co') = length (LineChart.values co) ∧
         ∀ j d, LineChart.values co !! j = Some d →
           ∃ d', LineChart.values co' !! j = Some d' ∧
             d' !! "date" = Some (LineChart.parseTime (LineChart.get d "date")) ∧
             d' !! "close" = Some (LineChart.plus (LineChart.get d "close")) ∧
             ∀ k, k ≠ "date" → k ≠ "close" → d' !! k = d !! k).
Proof.
  split_and!.
  - apply drawScatter_dataset.
  - intros e type target w.
    split_and!; apply dispatch_keeps_dataset; intros [] d;
      apply (handlers_keep_dataset e d).
  - intros dataset. split.
    + unfold LineChart.parse_dataset. apply length_fmap.
    + intros i co Hco. eexists. split_and!.
      * unfold LineChart.parse_dataset. rewrite list_lookup_fmap, Hco. done.
      * done.
      * cbn [LineChart.values]. apply length_fmap.
      * intros j d Hd. exists (LineChart.parse_value d). split_and!.
        -- cbn [LineChart.values]. by rewrite list_lookup_fmap, Hd.
        -- by rewrite lookup_parse_value.
        -- by rewrite lookup_parse_value.
        -- intros k Hk1 Hk2. rewrite lookup_parse_value.
           by repeat case_decide.
Qed.

(** C9 for one company with one value. *)
Lemma line_chart_witness :
  let value : gmap string LineChart.jsval :=
    {[ "date" := LineChart.JStr "2019/01/01";
       "close" := LineChart.JStr "10.5";
       "volume" := LineChart.JNum (Fin (zq 7)) ]} in
  let co := LineChart.mkCompany {[ "name" := LineChart.JStr "A" ]} [value] in
  ∃ co' d',
    LineChart.parse_dataset [co] !! 0 = Some co' ∧
    LineChart.properties co' = LineChart.properties co ∧
    LineChart.values co' !! 0 = Some d' ∧
    d' !! "date" = Some (LineChart.parseTime (LineChart.JStr "2019/01/01")) ∧
    d' !! "close" = Some (LineChart.JPlus (LineChart.JStr "10.5")) ∧
    d' !! "volume" = Some (LineChart.JNum (Fin (zq 7))).
Proof.
  intros value co.
  destruct scatter_keeps_records_line_chart_parses_them as (_ & _ & H).
  destruct (H [co]) as [_ Hco].
  destruct (Hco 0 co eq_refl) as (co' & Hco' & Hp & _ & Hv).
  destruct (Hv 0 value eq_refl) as (d' & Hd' & Hdate & Hclose & Hk).
  exists co', d'. split_and!; try done.
  rewrite (Hk "volume"); done.
Defined.

(** * The finished charts *)

(** The page of index.html is well formed. *)
Lemma index_html_wf : wf index_html.
Proof. unfold wf. apply (bool_decide_unpack _). vm_compute. reflexivity. Qed.


Lemma bind_run {A B : Type} (m : M A) (k : A → M B) w a w' :
  m w = (a, w') → (m ≫= k) w = k a w'.
Proof. unfold mbind, M_bind. by intros ->. Qed.

Lemma ids_imap f (l : list element) : keeps_eid f → ids (imap f l) = ids l.
Proof.
  intros Hf. unfold ids. revert f Hf.
  induction l as [|e l IH]; intros f Hf; [done|].
  cbn [imap fmap list_fmap]. rewrite Hf. f_equal.
  apply (IH (f ∘ S)). intros k x. apply Hf.
Qed.

Lemma update_nodes_selected pre f (l : list element) :
  NoDup (pre ++ ids l) →
  update_nodes (pre ++ ids l) f l = imap (λ k, f (length pre + k)) l.
Proof.
  revert pre. induction l as [|e l IH]; intros pre Hnd; [done|].
  change (ids (e :: l)) with (eid e :: ids l) in *.
  rewrite update_nodes_cons. cbn [imap]. f_equal.
  - rewrite index_of_app.
    destruct (index_of (eid e) pre) as [k|] eqn:E.
    + exfalso. apply index_of_Some in E. apply list_elem_of_lookup_2 in E.
      apply NoDup_app in Hnd as (_ & Hd & _). apply (Hd _ E). by left.
    + cbn [index_of]. rewrite Nat.eqb_refl. simpl.
      by rewrite Nat.add_0_r.
  - specialize (IH (pre ++ [eid e])).
    rewrite <- app_assoc in IH. cbn [app] in IH.
    rewrite IH by done. apply imap_ext. intros k x _.
    rewrite length_app. cbn [length]. simpl.
    by replace (length pre + 1 + k) with (length pre + S k) by lia.
Qed.

Lemma update_nodes_segment f (A E B : list element) :
  NoDup (ids (A ++ E ++ B)) →
  update_nodes (ids E) f (A ++ E ++ B) = A ++ imap f E ++ B.
Proof.
  intros Hnd. unfold ids in Hnd. rewrite !fmap_app in Hnd.
  apply NoDup_app in Hnd as (HA & HAE & HEB).
  apply NoDup_app in HEB as (HE & HEB & HB).
  rewrite !update_nodes_app. f_equal; [|f_equal].
  - apply update_nodes_disjoint. intros e He Hin.
    apply (HAE (eid e)); [by apply list_elem_of_fmap_2|].
    apply elem_of_app. by left.
  - pose proof (update_nodes_selected [] f E HE) as H. exact H.
  - apply update_nodes_disjoint. intros e He Hin.
    apply (HEB (eid e)); [done|by apply list_elem_of_fmap_2].
Qed.

Lemma yields_then m op f w A E B n :
  yields m w A E B n → elementwise op f → keeps_eid f →
  yields (m .> op) w A (imap f E) B n.
Proof.
  intros [Hm [Hnd Hlt]] Hop Hf. cbn [page bounds next_id] in Hnd, Hlt.
  assert (Hids : ids (A ++ imap f E ++ B) = ids (A ++ E ++ B)).
  { unfold ids. rewrite !fmap_app. fold (ids (imap f E)). by rewrite ids_imap. }
  unfold ids in Hnd. rewrite fmap_app in Hnd.
  pose proof Hnd as Hnd'. apply NoDup_app in Hnd' as (Hpg & Hdisj & Hb).
  split.
  - rewrite (bind_run _ _ _ _ _ Hm), Hop, ids_imap by done.
    unfold update_world. cbn [dataset page tooltip tooltip_text bounds next_id].
    rewrite (update_nodes_segment f A E B Hb).
    rewrite update_nodes_disjoint; [done|].
    intros e He Hin. apply (Hdisj (eid e)); [by apply list_elem_of_fmap_2|].
    fold (ids (A ++ E ++ B)). unfold ids. rewrite !fmap_app.
    apply elem_of_app. right. apply elem_of_app. by left.
  - split; cbn [page bounds next_id].
    + unfold ids. rewrite fmap_app. fold (ids (A ++ imap f E ++ B)).
      rewrite Hids. exact Hnd.
    + rewrite Forall_app in *. destruct Hlt as [Hl1 Hl2]. split; [done|].
      rewrite Forall_forall in *. intros e He.
      assert (Hx : eid e ∈ ids (A ++ E ++ B)).
      { rewrite <- Hids. by apply list_elem_of_fmap_2. }
      apply list_elem_of_fmap in Hx as (e' & -> & He'). by apply Hl2.
Qed.

Lemma world_eta w :
  mkWorld (dataset w) (page w) (tooltip w) (tooltip_text w) (bounds w) (next_id w) = w.
Proof. by destruct w. Qed.

Lemma yields_append t w :
  wf w →
  yields (append t) w (bounds w) [new_element (next_id w) t None] [] (S (next_id w)).
Proof.
  intros Hw. split.
  - unfold append. by rewrite app_nil_r.
  - rewrite app_nil_r. by apply wf_append.
Qed.

Lemma yields_append_in i parent t w :
  wf w →
  yields (append_in (i :: parent) t) w (bounds w)
    [new_element (next_id w) t None] [] (S (next_id w)).
Proof. apply yields_append. Qed.

Lemma yields_selectAll sel w A E B :
  wf w → bounds w = A ++ E ++ B →
  filter (λ e, matches sel e = true) (bounds w) = E →
  yields (selectAll sel) w A E B (next_id w).
Proof.
  intros Hw Hb Hf. unfold yields. rewrite <- Hb, world_eta. split; [|done].
  unfold selectAll. by rewrite Hf.
Qed.

Lemma elementwise_ret : elementwise (λ s, mret s) (λ _ e, e).
Proof.
  intros s [ds pg tp tx b n]. unfold update_world.
  cbn [dataset page tooltip tooltip_text bounds next_id].
  by rewrite !update_nodes_id_fn.
Qed.

Lemma reconcile_none rm p D f i (l : list element) :
  filter (λ e, p e = true) l = [] → reconcile rm p D f i l = l.
Proof.
  revert i. induction l as [|e l IH]; intros i Hf; [done|].
  rewrite filter_cons in Hf. cbn [reconcile].
  destruct (p e) eqn:Hp.
  - case_decide; [done|congruence].
  - case_decide; [congruence|]. by rewrite IH.
Qed.

Lemma imap_create_all t f k n ds :
  imap (λ i, f (k + i)) (create_all t n ds) = entering t f k n ds.
Proof.
  revert k n. induction ds as [|d ds IH]; intros k n; [done|].
  cbn [create_all imap entering]. rewrite Nat.add_0_r. f_equal.
  rewrite <- (IH (S k) (S n)). apply imap_ext. intros i x _. simpl.
  f_equal. lia.
Qed.

(** A data join in a bounds group without matching node. *)
Lemma yields_join sel t D w :
  wf w → filter (λ e, matches sel e = true) (bounds w) = [] →
  yields (selectAll sel .> data D .> join t) w (bounds w)
    (create_all t (next_id w) D) [] (next_id w + length D).
Proof.
  intros Hw Hf.
  pose proof (join_renders sel t D _ _ elementwise_ret w Hw)
    as (Hb & Hn & Hp & Hd & Ht & Htt).
  pose proof (renders_wf true (matches sel) t D _ _
                (join_renders sel t D _ _ elementwise_ret)
                ltac:(by intros k e) w Hw) as Hwf.
  destruct (join_pipeline sel t D _ _ elementwise_ret w (wf_wfb w Hw)) as (Hs & _).
  cbv zeta in Hs. unfold exec in *.
  set (r := (selectAll sel .> data D .> join t) w) in *.
  change ((selectAll sel .> data D .> join t .> (λ s, mret s)) w) with r
    in Hs, Hb, Hn, Hp, Hd, Ht, Htt.
  rewrite Hf in *. cbn [length ids fmap list_fmap] in *.
  rewrite take_nil, drop_0 in Hs. rewrite drop_0 in Hn.
  unfold reconciled in Hb. rewrite Hf, drop_0 in Hb. cbn [length] in Hb.
  rewrite Nat.min_0_r, reconcile_none, entering_id in Hb by done.
  assert (Hr : r = (ids (create_all t (next_id w) D),
                    mkWorld (dataset w) (page w) (tooltip w) (tooltip_text w)
                      (bounds w ++ create_all t (next_id w) D ++ [])
                      (next_id w + length D))).
  { destruct r as [s w']. cbn [fst snd] in *. rewrite app_nil_r.
    f_equal; [by rewrite ids_create_all|].
    destruct w'. cbn in *. by subst. }
  split; [exact Hr|].
  change (wf (snd r)) in Hwf. by rewrite Hr in Hwf.
Qed.

(** The canvas: a new [svg] element and a new, empty bounds group; what
    was the bounds group stays in the document. *)
Lemma draw_canvas_run dims w :
  wf w →
  ∃ svg g,
    draw_canvas dims w =
    ([S (next_id w)],
     mkWorld (dataset w) (page w ++ [svg] ++ bounds w ++ [g]) (tooltip w)
       (tooltip_text w) [] (S (S (next_id w)))) ∧
    eid svg = next_id w ∧ tag svg = "svg" ∧
    attrs svg !! "width" = ANum <$> width dims ∧
    attrs svg !! "height" = ANum <$> height dims ∧
    eid g = S (next_id w) ∧ tag g = "g" ∧ attrs g = ∅ ∧
    wf (mkWorld (dataset w) (page w ++ [svg] ++ bounds w ++ [g]) (tooltip w)
          (tooltip_text w) [] (S (S (next_id w)))).
Proof.
  intros Hw. pose proof Hw as [Hnd Hlt].
  apply Forall_app in Hlt as [Hp Hb].
  eexists (set_attr "height" (ANum <$> height dims)
             (set_attr "width" (ANum <$> width dims)
                (new_element (next_id w) "svg" None))),
          (set_style "transform" _ (new_element (S (next_id w)) "g" None)).
  split_and!; try reflexivity.
  - unfold draw_canvas, mbind, M_bind, append_page, append_group, attr, style,
      update_world.
    cbn [fst snd dataset page tooltip tooltip_text bounds next_id].
    rewrite !(update_nodes_disjoint _ _ (bounds w)).
    2,3: intros e He Hin; apply list_elem_of_singleton in Hin;
         rewrite Forall_forall in Hb; apply Hb in He; lia.
    rewrite (update_nodes_fresh _ _ _ _ Hp) by done.
    rewrite (update_nodes_fresh _ _ _ _ Hp) by done.
    cbn [update_nodes fmap list_fmap].
    rewrite app_assoc, (app_assoc _ (bounds w)).
    rewrite (update_nodes_fresh (S (next_id w))); [|  |done].
    + by rewrite <- !app_assoc.
    + rewrite !Forall_app. split_and!.
      * eapply Forall_impl; [exact Hp|]. intros; simpl in *; lia.
      * apply Forall_singleton. cbn. lia.
      * eapply Forall_impl; [exact Hb|]. intros; simpl in *; lia.
  - rewrite attrs_set_attr. case_decide; [done|].
    rewrite attrs_set_attr. by case_decide.
  - rewrite attrs_set_attr. by case_decide.
  - split; cbn [page bounds next_id]; rewrite app_nil_r.
    + unfold ids in *. rewrite !fmap_app in *. cbn [fmap list_fmap].
      cbn [eid set_attr set_style new_element].
      apply NoDup_app in Hnd as (Hn1 & Hd & Hn2).
      rewrite Forall_forall in Hp, Hb.
      apply NoDup_app. split_and!; [done| |].
      * intros x Hx Hin. apply list_elem_of_fmap in Hx as (e & -> & He).
        pose proof (Hp e He).
        apply elem_of_cons in Hin as [Hin|Hin]; [lia|].
        apply elem_of_app in Hin as [Hin|Hin].
        -- apply (Hd (eid e)); [by apply list_elem_of_fmap_2|done].
        -- apply list_elem_of_singleton in Hin. lia.
      * apply NoDup_cons. split.
        -- intros Hin. apply elem_of_app in Hin as [Hin|Hin].
           ++ apply list_elem_of_fmap in Hin as (e & Heq & He).
              pose proof (Hb e He). lia.
           ++ apply list_elem_of_singleton in Hin. lia.
        -- apply NoDup_app. split_and!; [done| |apply NoDup_singleton].
           intros x Hx Hin. apply list_elem_of_singleton in Hin. subst x.
           apply list_elem_of_fmap in Hx as (e & Heq & He).
           pose proof (Hb e He). lia.
    + rewrite !Forall_app. split_and!.
      * eapply Forall_impl; [exact Hp|]. intros; simpl in *; lia.
      * apply Forall_singleton. cbn. lia.
      * eapply Forall_impl; [exact Hb|]. intros; simpl in *; lia.
      * apply Forall_singleton. cbn. lia.
Qed.

Lemma filter_all {A : Type} (P : A → Prop) `{!∀ x, Decision (P x)} (l : list A) :
  Forall P l → filter P l = l.
Proof.
  induction 1 as [|x l Hx _ IH]; [done|].
  rewrite filter_cons. case_decide; [by rewrite IH|done].
Qed.

Lemma fresh_marks_spec e n D :
  Forall (λ m, matches "circle" m = true ∧ matches ".voronoi" m = false ∧
               matches ".tooltipDot" m = false ∧ listeners m = ∅)
    (fresh_marks e n D).
Proof.
  unfold fresh_marks. generalize 0. revert n.
  induction D as [|d D IH]; intros n k; [constructor|].
  cbn [entering]. constructor; [|apply IH]. split_and!.
  - by rewrite matches_dress_dot.
  - change (attr_is "class" "voronoi"
              (dress_dot e (set_datum (Some d) (new_element n "circle" None))) = false).
    unfold attr_is. rewrite dress_dot_bound.
    rewrite !attrs_set_attr. repeat case_decide; done.
  - change (attr_is "class" "tooltipDot"
              (dress_dot e (set_datum (Some d) (new_element n "circle" None))) = false).
    unfold attr_is. rewrite dress_dot_bound.
    rewrite !attrs_set_attr. repeat case_decide; done.
  - done.
Qed.

Lemma entering_spec (P : element → Prop) t f k n D :
  (∀ k n d, P (f k (new_element n t (Some d)))) → Forall P (entering t f k n D).
Proof.
  intros H. revert k n. induction D as [|d D IH]; intros k n; [constructor|].
  cbn [entering]. constructor; [apply H|apply IH].
Qed.

Lemma entering_fmap t (g : element → element) f k n D :
  g <$> entering t f k n D = entering t (λ k e, g (f k e)) k n D.
Proof.
  revert k n. induction D as [|d D IH]; intros k n; [done|].
  cbn [entering fmap list_fmap]. f_equal. apply IH.
Qed.

Lemma imap_entering t g f n D :
  imap g (entering t f 0 n D) = entering t (λ k e, g k (f k e)) 0 n D.
Proof.
  rewrite <- (imap_create_all t f 0), <- (imap_create_all t (λ k e, g k (f k e)) 0).
  generalize (create_all t n D). intros l. simpl.
  revert g f. induction l as [|x l IH]; intros g f; [done|].
  cbn [imap]. f_equal. apply (IH (g ∘ S) (f ∘ S)).
Qed.

Lemma create_all_entering t n D : create_all t n D = entering t (λ _ e, e) 0 n D.
Proof. by rewrite entering_id. Qed.

Lemma call_axis_elementwise anchor :
  elementwise (call_axis anchor) (λ _, axis_attrs anchor).
Proof.
  unfold call_axis.
  eapply elementwise_ext;
    [|eapply elementwise_chain;
        [eapply elementwise_chain;
           [eapply elementwise_chain; [apply attr_elementwise|apply attr_elementwise|]
           |apply attr_elementwise|]
        |apply attr_elementwise|]]; done.
Qed.

(** The world after a reconciliation in a bounds group without matching
    node. *)
Lemma renders_fresh {A : Type} rm p t D f (m : M A) w :
  renders rm p t D f m → wf w → keeps_eid f →
  filter (λ e, p e = true) (bounds w) = [] →
  exec m w = mkWorld (dataset w) (page w) (tooltip w) (tooltip_text w)
               (bounds w ++ entering t f 0 (next_id w) D) (next_id w + length D) ∧
  wf (mkWorld (dataset w) (page w) (tooltip w) (tooltip_text w)
        (bounds w ++ entering t f 0 (next_id w) D) (next_id w + length D)).
Proof.
  intros Hm Hw Hf Hnone.
  pose proof (renders_wf rm p t D f m Hm Hf w Hw) as Hwf.
  destruct (Hm w Hw) as (Hb & Hn & Hp & Hd & Ht & Htt).
  unfold reconciled in Hb. rewrite Hnone in Hb, Hn. cbn [length] in Hb, Hn.
  rewrite drop_0, Nat.min_0_r, reconcile_none in Hb by done.
  rewrite drop_0 in Hn.
  assert (Heq : exec m w = mkWorld (dataset w) (page w) (tooltip w) (tooltip_text w)
               (bounds w ++ entering t f 0 (next_id w) D) (next_id w + length D)).
  { destruct (exec m w). cbn in *. by subst. }
  split; [done|]. by rewrite <- Heq.
Qed.

Lemma bind_exec {A B : Type} (m : M A) (k : M B) w : (m;; k) w = k (exec m w).
Proof. unfold mbind, M_bind, exec. by destruct (m w). Qed.

Ltac elementwise_setter :=
  first [ apply attr_elementwise | apply attr_fn_elementwise | apply style_elementwise
        | apply on_elementwise | apply set_content_elementwise
        | apply call_axis_elementwise ].

Ltac keeps_eid_setter :=
  let k := fresh in let e := fresh in
  intros k e; first [ reflexivity | by destruct e as [? ? ? ? [?|] ? ?] ].

(** A chain of setters after a statement that yields a selection. *)
Ltac yields_chain base :=
  lazymatch goal with
  | |- yields (mbind (join _) _) _ _ _ _ _ => base
  | |- yields (mbind _ _) _ _ _ _ _ =>
      eapply yields_then; [yields_chain base|elementwise_setter|keeps_eid_setter]
  | |- _ => base
  end.

Lemma cells_spec n D :
  Forall (λ c, matches ".voronoi" c = true ∧ matches "circle" c = false ∧
               matches ".tooltipDot" c = false ∧
               listeners c !! "mouseenter" = Some OnMouseEnter ∧
               listeners c !! "mouseleave" = Some OnMouseLeave ∧
               receives_pointer_events c = true)
    (cells n D).
Proof. apply entering_spec. intros k i d. by split_and!. Qed.

Lemma cells0_spec k n D :
  Forall (λ c, matches ".voronoi" c = true) (entering "path" cell_attrs k n D).
Proof. apply entering_spec. by intros. Qed.

Lemma peripheral_filter sel (l : list element) :
  Forall (λ e, matches sel e = false) l →
  filter (λ e, matches sel e = true) l = [].
Proof.
  intros H. apply filter_none. eapply Forall_impl; [exact H|].
  intros e He. simpl. congruence.
Qed.

Ltac class_of_node :=
  unfold attr_is;
  repeat first
    [ rewrite attrs_set_attr; case_decide; [done|]
    | progress cbn [attrs set_style set_text axis_attrs set_listener new_element] ];
  reflexivity.

(** One appended node and what the setters chained to it leave of it. *)
Ltac peripheral_props :=
  split_and!;
  [ reflexivity | reflexivity | reflexivity
  | match goal with |- matches _ ?x = _ => change (attr_is "class" "voronoi" x = false) end;
    class_of_node
  | match goal with |- matches _ ?x = _ => change (attr_is "class" "tooltipDot" x = false) end;
    class_of_node ].

Ltac peripheral_node :=
  eexists; split; [reflexivity|]; split; [peripheral_props|reflexivity].

Ltac simpl_world H := cbn [dataset page tooltip tooltip_text bounds next_id] in H.

(** A statement that appends one peripheral node to the bounds group. *)
Ltac append_stage Hwold x Hx Hx' Hwnew :=
  lazymatch goal with
  | |- ∃ _, mbind _ ?m ?W = _ ∧ _ =>
      let E := fresh "E" in
      let Hrun := fresh "Hrun" in
      assert (∃ E, yields m W (bounds W) E [] (S (next_id W)) ∧
                   ∃ x, E = [x] ∧ peripheral x ∧ eid x = next_id W)
        as (E & [Hrun Hwnew] & x & -> & Hx & Hx');
      [ eexists; split;
        [ unfold draw_xAxis, draw_yAxis;
          yields_chain ltac:(first [ apply (yields_append _ _ Hwold)
                                   | apply (yields_append_in _ _ _ _ Hwold) ])
        | peripheral_node ]
      | simpl_world Hrun; simpl_world Hwnew; simpl_world Hx';
        rewrite app_nil_r in Hrun, Hwnew;
        rewrite (bind_run _ _ _ _ _ Hrun); clear Hrun; cbv beta;
        cbn [ids fmap list_fmap] ]
  end.

(** part_005, from the fetch to the last statement. *)
Lemma Part005_chart D vp w :
  wf w →
  let e := make_env D (make_dimensions Part005.margin vp) in
  let n := next_id w in
  ∃ svg g tail,
    Part005.drawScatter D vp w =
    (e, mkWorld D (page w ++ [svg] ++ bounds w ++ [g]) (tooltip w) (tooltip_text w)
          (fresh_marks e (S (S n)) D ++ cells (S (S n) + length D) D ++ tail)
          (S (S n) + length D + length D + 4)) ∧
    tag svg = "svg" ∧ tag g = "g" ∧ Forall peripheral tail ∧ length tail = 4 ∧
    wf (mkWorld D (page w ++ [svg] ++ bounds w ++ [g]) (tooltip w) (tooltip_text w)
          (fresh_marks e (S (S n)) D ++ cells (S (S n) + length D) D ++ tail)
          (S (S n) + length D + length D + 4)).
Proof.
  intros Hw. cbv zeta. unfold Part005.drawScatter.
  set (n := next_id w).
  (* the fetch *)
  rewrite (bind_run _ _ w D
             (mkWorld D (page w) (tooltip w) (tooltip_text w) (bounds w) n) eq_refl).
  cbv beta zeta.
  set (dims := make_dimensions Part005.margin vp).
  set (e := make_env D dims).
  clearbody e dims.
  (* the canvas *)
  destruct (draw_canvas_run dims
              (mkWorld D (page w) (tooltip w) (tooltip_text w) (bounds w) n) Hw)
    as (svg & g & Hcanvas & _ & Hsvg & _ & _ & _ & Hg & _ & Hw1).
  cbn [dataset page tooltip tooltip_text bounds next_id] in Hcanvas, Hw1.
  rewrite (bind_run _ _ _ _ _ Hcanvas).
  exists svg, g.
  set (pg := page w ++ [svg] ++ bounds w ++ [g]) in *. clearbody pg.
  (* the dots *)
  rewrite bind_exec.
  destruct (renders_fresh _ _ _ _ _ _ _ (draw_dots_renders e D) Hw1
              ltac:(by intros k x; apply cosmetic_dress_dot) eq_refl) as [-> Hw2].
  cbn [dataset page tooltip tooltip_text bounds next_id app] in Hw2 |- *.
  fold (fresh_marks e (S (S n)) D) in Hw2 |- *.
  set (dots := fresh_marks e (S (S n)) D) in *.
  assert (Hdots : Forall (λ m, matches ".voronoi" m = false) dots).
  { eapply Forall_impl; [apply fresh_marks_spec|]. by intros m (_ & ? & _). }
  clearbody dots.
  (* the cells *)
  set (n2 := S (S n) + length D) in *.
  assert (∃ E, yields (draw_voronoi D)
                 (mkWorld D pg (tooltip w) (tooltip_text w) dots n2)
                 dots E [] (n2 + length D) ∧
               E = entering "path" cell_attrs 0 n2 D) as (E & [Hrun Hw3] & ->).
  { eexists. split.
    - unfold draw_voronoi.
      yields_chain ltac:(apply (yields_join ".voronoi" "path" D _ Hw2);
                         by apply peripheral_filter).
    - by rewrite create_all_entering, !imap_entering. }
  simpl_world Hrun. simpl_world Hw3. rewrite app_nil_r in Hrun, Hw3.
  rewrite (bind_run _ _ _ _ _ Hrun). clear Hrun. cbv beta.
  set (cells0 := entering "path" cell_attrs 0 n2 D) in *.
  assert (Hcells0 : Forall (λ c, matches ".voronoi" c = true) cells0)
    by apply cells0_spec.
  set (n3 := n2 + length D) in *.
  (* the axes and their labels *)
  append_stage Hw3 xa Hxa Hxa' Hw4.
  append_stage Hw4 xl Hxl Hxl' Hw5.
  append_stage Hw5 ya Hya Hya' Hw6.
  append_stage Hw6 yl Hyl Hyl' Hw7.
  (* the listeners *)
  rewrite <- !app_assoc in Hw7 |- *. cbn [app] in Hw7 |- *.
  assert (∃ E, yields (selectAll ".voronoi" .> on "mouseenter" OnMouseEnter
                         .> on "mouseleave" OnMouseLeave)
                 (mkWorld D pg (tooltip w) (tooltip_text w)
                    (dots ++ cells0 ++ [xa; xl; ya; yl]) (S (S (S (S n3)))))
                 dots E [xa; xl; ya; yl] (S (S (S (S n3)))) ∧
               E = cells n2 D) as (E & [Hrun Hw8] & ->).
  { eexists. split.
    - yields_chain ltac:(apply (yields_selectAll ".voronoi" _ _ cells0 _ Hw7 eq_refl)).
      cbn [bounds]. rewrite !filter_app.
      rewrite (peripheral_filter _ dots Hdots), (filter_all _ cells0 Hcells0).
      rewrite peripheral_filter; [by rewrite app_nil_r|].
      repeat constructor; [apply Hxa|apply Hxl|apply Hya|apply Hyl].
    - unfold cells0, cells. by rewrite !imap_entering. }
  simpl_world Hrun. simpl_world Hw8.
  rewrite (bind_run _ _ _ _ _ Hrun). clear Hrun. cbv beta.
  exists [xa; xl; ya; yl].
  replace (S (S (S (S n3)))) with (S (S n) + length D + length D + 4) in *
    by (unfold n3, n2; lia).
  split_and!; try done.
  do 4 (constructor; [assumption|]). constructor.
Qed.

(** part_001: the listeners are chained to the join of the cells. *)
Lemma Part001_chart D vp w :
  wf w →
  let e := make_env D (make_dimensions Part001.margin vp) in
  let n := next_id w in
  ∃ svg g tail,
    Part001.drawScatter D vp w =
    (e, mkWorld D (page w ++ [svg] ++ bounds w ++ [g]) (tooltip w) (tooltip_text w)
          (fresh_marks e (S (S n)) D ++ cells (S (S n) + length D) D ++ tail)
          (S (S n) + length D + length D + 4)) ∧
    tag svg = "svg" ∧ tag g = "g" ∧ Forall peripheral tail ∧ length tail = 4 ∧
    wf (mkWorld D (page w ++ [svg] ++ bounds w ++ [g]) (tooltip w) (tooltip_text w)
          (fresh_marks e (S (S n)) D ++ cells (S (S n) + length D) D ++ tail)
          (S (S n) + length D + length D + 4)).
Proof.
  intros Hw. cbv zeta. unfold Part001.drawScatter.
  set (n := next_id w).
  rewrite (bind_run _ _ w D
             (mkWorld D (page w) (tooltip w) (tooltip_text w) (bounds w) n) eq_refl).
  cbv beta zeta.
  set (dims := make_dimensions Part001.margin vp).
  set (e := make_env D dims).
  clearbody e dims.
  destruct (draw_canvas_run dims
              (mkWorld D (page w) (tooltip w) (tooltip_text w) (bounds w) n) Hw)
    as (svg & g & Hcanvas & _ & Hsvg & _ & _ & _ & Hg & _ & Hw1).
  cbn [dataset page tooltip tooltip_text bounds next_id] in Hcanvas, Hw1.
  rewrite (bind_run _ _ _ _ _ Hcanvas).
  exists svg, g.
  set (pg := page w ++ [svg] ++ bounds w ++ [g]) in *. clearbody pg.
  rewrite bind_exec.
  destruct (renders_fresh _ _ _ _ _ _ _ (draw_dots_renders e D) Hw1
              ltac:(by intros k x; apply cosmetic_dress_dot) eq_refl) as [-> Hw2].
  cbn [dataset page tooltip tooltip_text bounds next_id app] in Hw2 |- *.
  fold (fresh_marks e (S (S n)) D) in Hw2 |- *.
  set (dots := fresh_marks e (S (S n)) D) in *.
  assert (Hdots : Forall (λ m, matches ".voronoi" m = false) dots).
  { eapply Forall_impl; [apply fresh_marks_spec|]. by intros m (_ & ? & _). }
  clearbody dots.
  set (n2 := S (S n) + length D) in *.
  assert (∃ E, yields (draw_voronoi D .> on "mouseenter" OnMouseEnter
                         .> on "mouseleave" OnMouseLeave)
                 (mkWorld D pg (tooltip w) (tooltip_text w) dots n2)
                 dots E [] (n2 + length D) ∧
               E = cells n2 D) as (E & [Hrun Hw3] & ->).
  { eexists. split.
    - unfold draw_voronoi.
      yields_chain ltac:(apply (yields_join ".voronoi" "path" D _ Hw2);
                         by apply peripheral_filter).
    - by rewrite create_all_entering, !imap_entering. }
  simpl_world Hrun. simpl_world Hw3. rewrite app_nil_r in Hrun, Hw3.
  rewrite (bind_run _ _ _ _ _ Hrun). clear Hrun. cbv beta.
  set (n3 := n2 + length D) in *.
  append_stage Hw3 xa Hxa Hxa' Hw4.
  append_stage Hw4 xl Hxl Hxl' Hw5.
  append_stage Hw5 ya Hya Hya' Hw6.
  append_stage Hw6 yl Hyl Hyl' Hw7.
  rewrite <- !app_assoc in Hw7 |- *. cbn [app] in Hw7 |- *.
  exists [xa; xl; ya; yl].
  replace (S (S (S (S n3)))) with (S (S n) + length D + length D + 4) in *
    by (unfold n3, n2; lia).
  split_and!; try done.
  do 4 (constructor; [assumption|]). constructor.
Qed.

(** part_004: a background rectangle before the dots, the cells last. *)
Lemma Part004_chart D vp w :
  wf w →
  let e := make_env D (make_dimensions Part004.margin vp) in
  let n := next_id w in
  ∃ svg g rect tail,
    Part004.drawScatter D vp w =
    (e, mkWorld D (page w ++ [svg] ++ bounds w ++ [g]) (tooltip w) (tooltip_text w)
          (rect :: fresh_marks e (S (S (S n))) D ++ tail
           ++ cells (S (S (S n)) + length D + 4) D)
          (S (S (S n)) + length D + 4 + length D)) ∧
    tag svg = "svg" ∧ tag g = "g" ∧ tag rect = "rect" ∧
    attrs rect !! "width"
      = Some (ANum (sub (sub (to_number (width (dims e))) (Fin (right (margin (dims e)))))
                        (Fin (left (margin (dims e)))))) ∧
    attrs rect !! "height"
      = Some (ANum (sub (sub (to_number (height (dims e))) (Fin (top (margin (dims e)))))
                        (Fin (bottom (margin (dims e)))))) ∧
    peripheral rect ∧ Forall peripheral tail ∧ length tail = 4 ∧
    wf (mkWorld D (page w ++ [svg] ++ bounds w ++ [g]) (tooltip w) (tooltip_text w)
          (rect :: fresh_marks e (S (S (S n))) D ++ tail
           ++ cells (S (S (S n)) + length D + 4) D)
          (S (S (S n)) + length D + 4 + length D)).
Proof.
  intros Hw. cbv zeta. unfold Part004.drawScatter.
  set (n := next_id w).
  rewrite (bind_run _ _ w D
             (mkWorld D (page w) (tooltip w) (tooltip_text w) (bounds w) n) eq_refl).
  cbv beta zeta.
  set (dims := make_dimensions Part004.margin vp).
  change (Chart.dims (make_env D dims)) with dims.
  set (e := make_env D dims).
  clearbody e dims.
  destruct (draw_canvas_run dims
              (mkWorld D (page w) (tooltip w) (tooltip_text w) (bounds w) n) Hw)
    as (svg & g & Hcanvas & _ & Hsvg & _ & _ & _ & Hg & _ & Hw1).
  cbn [dataset page tooltip tooltip_text bounds next_id] in Hcanvas, Hw1.
  rewrite (bind_run _ _ _ _ _ Hcanvas).
  exists svg, g.
  set (pg := page w ++ [svg] ++ bounds w ++ [g]) in *. clearbody pg.
  (* the rectangle *)
  lazymatch goal with
  | |- ∃ _ _, mbind _ ?m ?W = _ ∧ _ =>
      assert (∃ E, yields m W [] E [] (S (S (S n))) ∧
                   ∃ x, E = [x] ∧ peripheral x ∧ tag x = "rect" ∧
                     attrs x !! "width"
                       = Some (ANum (sub (sub (to_number (width dims))
                                              (Fin (right (margin dims))))
                                         (Fin (left (margin dims))))) ∧
                     attrs x !! "height"
                       = Some (ANum (sub (sub (to_number (height dims))
                                              (Fin (top (margin dims))))
                                         (Fin (bottom (margin dims))))))
        as (E & [Hrun Hw2] & rect & -> & Hrect & Hrt & Hrw & Hrh)
  end.
  { eexists. split.
    - yields_chain ltac:(apply (yields_append "rect" _ Hw1)).
    - eexists. split; [reflexivity|]. split; [peripheral_props|].
      split_and!; [reflexivity| |].
      + rewrite !attrs_set_attr. repeat case_decide; done.
      + rewrite !attrs_set_attr. repeat case_decide; done. }
  simpl_world Hrun. simpl_world Hw2. cbn [app] in Hrun, Hw2.
  rewrite (bind_run _ _ _ _ _ Hrun). clear Hrun. cbv beta.
  exists rect.
  (* the dots *)
  rewrite bind_exec.
  destruct (renders_fresh _ _ _ _ _ _ _ (draw_dots_renders e D) Hw2
              ltac:(by intros k x; apply cosmetic_dress_dot)) as [-> Hw3].
  { cbn [bounds]. apply peripheral_filter. constructor; [apply Hrect|constructor]. }
  cbn [dataset page tooltip tooltip_text bounds next_id app] in Hw3 |- *.
  fold (fresh_marks e (S (S (S n))) D) in Hw3 |- *.
  set (dots := fresh_marks e (S (S (S n))) D) in *.
  assert (Hdots : Forall (λ m, matches ".voronoi" m = false) dots).
  { eapply Forall_impl; [apply fresh_marks_spec|]. by intros m (_ & ? & _). }
  clearbody dots.
  set (n3 := S (S (S n)) + length D) in *.
  append_stage Hw3 xa Hxa Hxa' Hw4.
  append_stage Hw4 xl Hxl Hxl' Hw5.
  append_stage Hw5 ya Hya Hya' Hw6.
  append_stage Hw6 yl Hyl Hyl' Hw7.
  (* the cells *)
  lazymatch goal with
  | |- ∃ _, mbind _ ?m ?W = _ ∧ _ =>
      assert (∃ E, yields m W (bounds W) E [] (S (S (S (S n3))) + length D) ∧
                   E = cells (S (S (S (S n3)))) D) as (E & [Hrun Hw8] & ->)
  end.
  { eexists. split.
    - unfold draw_voronoi.
      yields_chain ltac:(apply (yields_join ".voronoi" "path" D _ Hw7)).
      cbn [bounds]. apply peripheral_filter.
      rewrite !Forall_app, !Forall_cons. split_and!; try done;
        first [apply Hrect|apply Hxa|apply Hxl|apply Hya|apply Hyl|constructor].
    - by rewrite create_all_entering, !imap_entering. }
  simpl_world Hrun. simpl_world Hw8. rewrite app_nil_r in Hrun, Hw8.
  rewrite (bind_run _ _ _ _ _ Hrun). clear Hrun. cbv beta.
  rewrite <- !app_assoc in Hw8 |- *. cbn [app] in Hw8 |- *.
  exists [xa; xl; ya; yl].
  replace (S (S (S (S n3)))) with (S (S (S n)) + length D + 4) in *
    by (unfold n3; lia).
  split_and!; try done.
  do 4 (constructor; [assumption|]). constructor.
Qed.

Lemma entering_lookup t f k n D i :
  entering t f k n D !! i
  = (λ d, f (k + i) (new_element (n + i) t (Some d))) <$> D !! i.
Proof.
  revert k n i. induction D as [|d D IH]; intros k n i; [done|].
  destruct i as [|i]; cbn [entering].
  - simpl. by rewrite !Nat.add_0_r.
  - simpl. rewrite IH, !Nat.add_succ_r. done.
Qed.

Lemma entering_length t f k n D : length (entering t f k n D) = length D.
Proof.
  revert k n. induction D as [|d D IH]; intros k n; [done|].
  cbn [entering length]. by rewrite IH.
Qed.

Lemma entering_Forall2 (Q : element → record → Prop) t f k n D :
  (∀ k n d, Q (f k (new_element n t (Some d))) d) →
  Forall2 Q (entering t f k n D) D.
Proof.
  intros H. revert k n. induction D as [|d D IH]; intros k n; [constructor|].
  cbn [entering]. constructor; [apply H|apply IH].
Qed.

Lemma fresh_marks_dots e n D : Forall2 (dot_of e) (fresh_marks e n D) D.
Proof.
  apply entering_Forall2. intros k i d.
  change (new_element i "circle" (Some d))
    with (set_datum (Some d) (new_element i "circle" None)).
  rewrite dress_dot_bound. unfold dot_of.
  split_and!; try done; rewrite !attrs_set_attr; repeat case_decide; done.
Qed.

Lemma cells_lookup n D i r :
  D !! i = Some r →
  ∃ c, cells n D !! i = Some c ∧ cell_of c r ∧ eid c = n + i.
Proof.
  intros Hi. unfold cells. rewrite entering_lookup, Hi. eexists. split; [done|].
  split; [|done]. unfold cell_of. split_and!; done.
Qed.

Lemma peripheral_not sel (l : list element) :
  Forall peripheral l →
  sel = "circle" ∨ sel = ".voronoi" ∨ sel = ".tooltipDot" →
  filter (λ e, matches sel e = true) l = [].
Proof.
  intros Hl Hsel. apply peripheral_filter.
  eapply Forall_impl; [exact Hl|]. intros x (? & _ & _ & ? & ?).
  by destruct Hsel as [ -> | [ -> | -> ] ].
Qed.

Lemma fresh_marks_filter e n D :
  filter (λ m, matches "circle" m = true) (fresh_marks e n D) = fresh_marks e n D ∧
  filter (λ m, matches ".voronoi" m = true) (fresh_marks e n D) = [] ∧
  filter (λ m, matches ".tooltipDot" m = true) (fresh_marks e n D) = [].
Proof.
  pose proof (fresh_marks_spec e n D) as H. split_and!.
  - apply filter_all. eapply Forall_impl; [exact H|]. by intros m (? & _).
  - apply peripheral_filter. eapply Forall_impl; [exact H|]. by intros m (_ & ? & _).
  - apply peripheral_filter. eapply Forall_impl; [exact H|].
    by intros m (_ & _ & ? & _).
Qed.

Lemma cells_filter n D :
  filter (λ m, matches "circle" m = true) (cells n D) = [] ∧
  filter (λ m, matches ".voronoi" m = true) (cells n D) = cells n D ∧
  filter (λ m, matches ".tooltipDot" m = true) (cells n D) = [].
Proof.
  pose proof (cells_spec n D) as H. split_and!.
  - apply peripheral_filter. eapply Forall_impl; [exact H|]. by intros m (_ & ? & _).
  - apply filter_all. eapply Forall_impl; [exact H|]. by intros m (? & _).
  - apply peripheral_filter. eapply Forall_impl; [exact H|].
    by intros m (_ & _ & ? & _).
Qed.

(** ** Finished charts *)

Lemma chart_of_marks e D w :
  chart_of e D w → ∃ n, marks w = fresh_marks e n D.
Proof.
  intros (_ & _ & n & k & pre & mid & post & Hb & Hpre & Hmid & Hpost).
  exists n. unfold marks. rewrite Hb, !filter_app.
  rewrite (peripheral_not "circle" pre), (peripheral_not "circle" mid),
    (peripheral_not "circle" post) by (done || by left).
  destruct (fresh_marks_filter e n D) as (-> & _).
  destruct (cells_filter k D) as (-> & _).
  cbn [app]. by rewrite ?app_nil_r.
Qed.

Lemma chart_of_cells e D w :
  chart_of e D w → ∃ k, cells_of w = cells k D.
Proof.
  intros (_ & _ & n & k & pre & mid & post & Hb & Hpre & Hmid & Hpost).
  exists k. unfold cells_of. rewrite Hb, !filter_app.
  rewrite (peripheral_not ".voronoi" pre), (peripheral_not ".voronoi" mid),
    (peripheral_not ".voronoi" post) by (done || by right; left).
  destruct (fresh_marks_filter e n D) as (_ & -> & _).
  destruct (cells_filter k D) as (_ & -> & _).
  cbn [app]. by rewrite ?app_nil_r.
Qed.

Lemma chart_of_dots e D w : chart_of e D w → Forall2 (dot_of e) (marks w) D.
Proof. intros [n ->]%chart_of_marks. apply fresh_marks_dots. Qed.

Lemma chart_of_one_cell e D w : chart_of e D w → one_cell_per_record D w.
Proof.
  intros [k Hk]%chart_of_cells. unfold one_cell_per_record. rewrite Hk. split.
  - apply entering_length.
  - intros i r Hi. destruct (cells_lookup k D i r Hi) as (c & ? & ? & _).
    by exists c.
Qed.

Lemma Forall_fresh_marks (P : element → Prop) e n D :
  (∀ m r, dot_of e m r → P m) → Forall P (fresh_marks e n D).
Proof.
  intros H. pose proof (fresh_marks_dots e n D) as H2.
  induction H2; constructor; eauto.
Qed.

Lemma chart_of_order e D w : chart_of e D w → cells_over_dots w.
Proof.
  intros (_ & _ & n & k & pre & mid & post & Hb & Hpre & Hmid & Hpost).
  exists (pre ++ fresh_marks e n D ++ mid), (cells k D ++ post).
  split; [by rewrite Hb, <- !app_assoc|]. split.
  - rewrite !Forall_app. split_and!.
    + eapply Forall_impl; [exact Hpre|]. by intros x (_ & _ & _ & ? & _).
    + eapply Forall_impl; [apply fresh_marks_spec|]. by intros x (_ & ? & _).
    + eapply Forall_impl; [exact Hmid|]. by intros x (_ & _ & _ & ? & _).
  - rewrite !Forall_app. split.
    + eapply Forall_impl; [apply cells_spec|]. by intros x (_ & ? & _).
    + eapply Forall_impl; [exact Hpost|]. by intros x (? & _).
Qed.

Lemma Part001_chart_of D vp w :
  wf w →
  chart_of (make_env D (make_dimensions Part001.margin vp)) D
    (exec (Part001.drawScatter D vp) w).
Proof.
  intros Hw.
  destruct (Part001_chart D vp w Hw) as (svg & g & tail & Hrun & _ & _ & Ht & _ & Hwf).
  unfold exec. rewrite Hrun. cbn [snd]. split_and!; [done|done|].
  eexists _, _, [], [], tail. split_and!; [reflexivity|constructor|constructor|done].
Qed.

Lemma Part005_chart_of D vp w :
  wf w →
  chart_of (make_env D (make_dimensions Part005.margin vp)) D
    (exec (Part005.drawScatter D vp) w).
Proof.
  intros Hw.
  destruct (Part005_chart D vp w Hw) as (svg & g & tail & Hrun & _ & _ & Ht & _ & Hwf).
  unfold exec. rewrite Hrun. cbn [snd]. split_and!; [done|done|].
  eexists _, _, [], [], tail. split_and!; [reflexivity|constructor|constructor|done].
Qed.

Lemma Part004_chart_of D vp w :
  wf w →
  chart_of (make_env D (make_dimensions Part004.margin vp)) D
    (exec (Part004.drawScatter D vp) w).
Proof.
  intros Hw.
  destruct (Part004_chart D vp w Hw)
    as (svg & g & rect & tail & Hrun & _ & _ & _ & _ & _ & Hr & Ht & _ & Hwf).
  unfold exec. rewrite Hrun. cbn [snd]. split_and!; [done|done|].
  eexists _, _, [rect], tail, []. split_and!.
  - cbn [app]. by rewrite app_nil_r.
  - by constructor.
  - done.
  - constructor.
Qed.

(** X1.  After a whole run of part_001, part_004 or part_005 on a document
    whose node identifiers are unique, the circles of the new bounds group
    are the dots of the records, one per record and in the order of the
    dataset: each is bound to its record, carries the scaled dew point as
    [cx], the scaled humidity as [cy], the radius 5 and the colour of its
    cloud cover, and has neither a class nor a listener.  What the script
    draws afterwards (cells, axes, labels, the rectangle of part_004) adds
    no circle and changes none. *)
Theorem finished_chart_has_one_dot_per_record (D : list record) (vp : viewport)
    (w : world) :
  wf w →
  Forall2 (dot_of (make_env D (make_dimensions Part001.margin vp)))
    (marks (exec (Part001.drawScatter D vp) w)) D ∧
  Forall2 (dot_of (make_env D (make_dimensions Part004.margin vp)))
    (marks (exec (Part004.drawScatter D vp) w)) D ∧
  Forall2 (dot_of (make_env D (make_dimensions Part005.margin vp)))
    (marks (exec (Part005.drawScatter D vp) w)) D.
Proof.
  intros Hw. split_and!; eapply chart_of_dots;
    [by apply Part001_chart_of|by apply Part004_chart_of|by apply Part005_chart_of].
Qed.

(** X1 on the page of index.html, with the two records of the scenario. *)
Lemma finished_chart_dots_witness :
  wf index_html ∧
  Forall2 (dot_of (make_env [january; june] (make_dimensions Part005.margin laptop)))
    (marks (exec (Part005.drawScatter [january; june] laptop) index_html))
    [january; june].
Proof.
  split; [exact index_html_wf|].
  exact (proj2 (proj2 (finished_chart_has_one_dot_per_record
                         [january; june] laptop index_html index_html_wf))).
Defined.

(** X2.  After a whole run of part_001, part_004 or part_005 on a document
    whose node identifiers are unique, the bounds group holds one path of
    class [voronoi] per record, in the order of the dataset: the [i]-th is
    bound to the [i]-th record, has a salmon stroke and a transparent
    fill, no style, and listens to [mouseenter] with [onMouseEnter] and to
    [mouseleave] with [onMouseLeave].  In part_005 the listeners come from
    the later [selectAll(".voronoi")] statement, in part_001 and part_004
    from the chain of the join.  The attribute [d] is not part of the
    statement: the library decides whether a cell has an outline. *)
Theorem finished_chart_has_one_cell_per_record (D : list record) (vp : viewport)
    (w : world) :
  wf w →
  one_cell_per_record D (exec (Part001.drawScatter D vp) w) ∧
  one_cell_per_record D (exec (Part004.drawScatter D vp) w) ∧
  one_cell_per_record D (exec (Part005.drawScatter D vp) w).
Proof.
  intros Hw. split_and!; eapply chart_of_one_cell;
    [by apply Part001_chart_of|by apply Part004_chart_of|by apply Part005_chart_of].
Qed.

(** X2 on the page of index.html, with the two records of the scenario. *)
Lemma finished_chart_cells_witness :
  wf index_html ∧
  one_cell_per_record [january; june]
    (exec (Part005.drawScatter [january; june] laptop) index_html).
Proof.
  split; [exact index_html_wf|].
  exact (proj2 (proj2 (finished_chart_has_one_cell_per_record
                         [january; june] laptop index_html index_html_wf))).
Defined.

(** X3.  In the bounds group that part_001, part_004 or part_005 leaves
    behind, every tessellation cell stands after every circle in document
    order: the group splits into a front part without cells and a rear part
    without circles.  The transparent cells are therefore painted over the
    dots. *)
Theorem cells_are_drawn_over_the_dots (D : list record) (vp : viewport)
    (w : world) :
  wf w →
  cells_over_dots (exec (Part001.drawScatter D vp) w) ∧
  cells_over_dots (exec (Part004.drawScatter D vp) w) ∧
  cells_over_dots (exec (Part005.drawScatter D vp) w).
Proof.
  intros Hw. split_and!; eapply chart_of_order;
    [by apply Part001_chart_of|by apply Part004_chart_of|by apply Part005_chart_of].
Qed.

(** X3 on the page of index.html, for part_004, whose cells are drawn last. *)
Lemma cells_over_dots_witness :
  wf index_html ∧
  cells_over_dots (exec (Part004.drawScatter [january; june] laptop) index_html).
Proof.
  split; [exact index_html_wf|].
  exact (proj1 (proj2 (cells_are_drawn_over_the_dots
                         [january; june] laptop index_html index_html_wf))).
Defined.

(** ** Events on a finished chart *)

Lemma position_Some (l : list element) i p :
  position i l = Some p → ∃ x, l !! p = Some x ∧ eid x = i.
Proof.
  unfold position. intros H%index_of_Some. unfold ids in H.
  rewrite list_lookup_fmap in H.
  destruct (l !! p) as [x|]; [|done]. exists x. split; [done|]. by injection H.
Qed.


Lemma dispatch_deaf run type w target :
  (∀ x, x ∈ bounds w → eid x = target → listeners x !! type = None) →
  dispatch run type target w = (tt, w).
Proof.
  intros H. unfold dispatch.
  destruct (position target (bounds w)) as [p|] eqn:Hp; [|done].
  apply position_Some in Hp as (x & Hx & Heq). rewrite Hx.
  rewrite (H x); [|by eapply list_elem_of_lookup_2|done].
  by destruct (receives_pointer_events x).
Qed.

Lemma cells_deaf n D type :
  type ≠ "mouseenter" → type ≠ "mouseleave" →
  Forall (λ c, listeners c !! type = None) (cells n D).
Proof.
  intros H1 H2. apply entering_spec. intros k i d.
  cbn [listeners listening set_listener].
  rewrite !lookup_insert_ne by done. done.
Qed.

Lemma chart_of_deaf e D w run type target :
  chart_of e D w →
  (∀ c, c ∈ cells_of w → eid c = target →
        type ≠ "mouseenter" ∧ type ≠ "mouseleave") →
  dispatch run type target w = (tt, w).
Proof.
  intros (_ & _ & n & k & pre & mid & post & Hb & Hpre & Hmid & Hpost) Hcells.
  apply dispatch_deaf. intros x Hx Heq.
  assert (Hper : ∀ l, Forall peripheral l → x ∈ l → listeners x !! type = None).
  { intros l Hl Hin. rewrite Forall_forall in Hl.
    destruct (Hl x Hin) as (_ & _ & -> & _). done. }
  pose proof Hx as Hx'. rewrite Hb in Hx'.
  rewrite !elem_of_app in Hx'. destruct Hx' as [Hp|[Hp|[Hp|[Hp|Hp]]]].
  - exact (Hper pre Hpre Hp).
  - pose proof (fresh_marks_spec e n D) as Hf. rewrite Forall_forall in Hf.
    destruct (Hf x Hp) as (_ & _ & _ & ->). done.
  - exact (Hper mid Hmid Hp).
  - pose proof (cells_spec k D) as Hs. rewrite Forall_forall in Hs.
    destruct (Hs x Hp) as (Hv & _).
    assert (Hin : x ∈ cells_of w) by (apply list_elem_of_filter; by split).
    destruct (Hcells x Hin Heq) as [H1 H2].
    pose proof (cells_deaf k D type H1 H2) as Hd. rewrite Forall_forall in Hd.
    by apply Hd.
  - exact (Hper post Hpost Hp).
Qed.

Lemma chart_of_wfb e D w : chart_of e D w → wfb w.
Proof. intros [Hw _]. by apply wf_wfb. Qed.




Lemma Part001_enter_text e d w :
  tooltip_text (exec (Part001.onMouseEnter e d) w)
  = alter (λ _, ATemplate [Hole (mul (to_number (colorAccessor d)) (Fin (zq 100)));
                           Lit "%"]) "cover"
      (tooltip_text (exec (tooltip_fields d) w)).
Proof.
  unfold Part001.onMouseEnter, tooltip_fields, tooltip_move, tooltip_style,
    tooltip_set_text, exec, mbind, M_bind.
  cbn [snd fst tooltip_text]. reflexivity.
Qed.






Lemma ids_inj (l : list element) (a b : element) :
  NoDup (ids l) → a ∈ l → b ∈ l → eid a = eid b → a = b.
Proof.
  intros Hnd [i Hi]%list_elem_of_lookup [j Hj]%list_elem_of_lookup Heq.
  assert (Hia : ids l !! i = Some (eid a)).
  { unfold ids. by rewrite list_lookup_fmap, Hi. }
  assert (Hjb : ids l !! j = Some (eid a)).
  { unfold ids. by rewrite list_lookup_fmap, Hj, Heq. }
  pose proof (NoDup_lookup _ _ _ _ Hnd Hia Hjb) as ->. congruence.
Qed.

(** In a finished chart a node of the bounds group that is no cell, and a
    cell for another type of event, has no listener to run. *)
Lemma chart_of_inert e D w run type x :
  chart_of e D w → x ∈ bounds w →
  matches ".voronoi" x = false ∨ (type ≠ "mouseenter" ∧ type ≠ "mouseleave") →
  dispatch run type (eid x) w = (tt, w).
Proof.
  intros Hc Hx Hor. apply (chart_of_deaf e D w run type (eid x) Hc).
  intros c Hcell Heq.
  apply list_elem_of_filter in Hcell as [Hv Hin].
  destruct (chart_of_wfb e D w Hc) as [Hnd _].
  assert (c = x) as -> by (by eapply ids_inj).
  destruct Hor as [Hn|Ht]; [congruence|exact Ht].
Qed.

(** X5.  In the bounds group of a finished chart of part_001, part_004 or
    part_005 only the cells listen, and only to [mouseenter] and
    [mouseleave]: an event on a node of the group that is no cell (a dot,
    an axis, a label, the rectangle), and an event of another type on any
    node of the group, runs no handler and leaves the document as it is.
    The statement is about the nodes of the group the script has just
    drawn; the nodes outside it are not covered. *)
Theorem only_the_cells_react (D : list record) (vp : viewport) (w : world)
    (type : string) (x : element) :
  wf w →
  (let e := make_env D (make_dimensions Part001.margin vp) in
   let w1 := exec (Part001.drawScatter D vp) w in
   x ∈ bounds w1 →
   matches ".voronoi" x = false ∨ (type ≠ "mouseenter" ∧ type ≠ "mouseleave") →
   dispatch (Part001.run e) type (eid x) w1 = (tt, w1)) ∧
  (let e := make_env D (make_dimensions Part004.margin vp) in
   let w1 := exec (Part004.drawScatter D vp) w in
   x ∈ bounds w1 →
   matches ".voronoi" x = false ∨ (type ≠ "mouseenter" ∧ type ≠ "mouseleave") →
   dispatch (Part004.run e) type (eid x) w1 = (tt, w1)) ∧
  (let e := make_env D (make_dimensions Part005.margin vp) in
   let w1 := exec (Part005.drawScatter D vp) w in
   x ∈ bounds w1 →
   matches ".voronoi" x = false ∨ (type ≠ "mouseenter" ∧ type ≠ "mouseleave") →
   dispatch (Part005.run e) type (eid x) w1 = (tt, w1)).
Proof.
  intros Hw. split_and!; intros e w1.
  - pose proof (Part001_chart_of D vp w Hw) as Hc. fold e w1 in Hc.
    clearbody w1 e. intros Hx Hor. exact (chart_of_inert e D w1 _ type x Hc Hx Hor).
  - pose proof (Part004_chart_of D vp w Hw) as Hc. fold e w1 in Hc.
    clearbody w1 e. intros Hx Hor. exact (chart_of_inert e D w1 _ type x Hc Hx Hor).
  - pose proof (Part005_chart_of D vp w Hw) as Hc. fold e w1 in Hc.
    clearbody w1 e. intros Hx Hor. exact (chart_of_inert e D w1 _ type x Hc Hx Hor).
Qed.

(** X5 on the drawn document of the scenario: a pointer-enter on its first
    dot and a click on its first cell change nothing. *)
Lemma only_cells_react_witness :
  wf index_html ∧
  (let e := make_env [january; june] (make_dimensions Part005.margin laptop) in
   let w1 := exec (Part005.drawScatter [january; june] laptop) index_html in
   ∃ dot cell,
     bounds w1 !! 0 = Some dot ∧ tag dot = "circle" ∧
     bounds w1 !! 2 = Some cell ∧ matches ".voronoi" cell = true ∧
     dispatch (Part005.run e) "mouseenter" (eid dot) w1 = (tt, w1) ∧
     dispatch (Part005.run e) "click" (eid cell) w1 = (tt, w1)).
Proof.
  split; [exact index_html_wf|]. intros e w1.
  assert (H : ∃ dot cell,
             bounds w1 !! 0 = Some dot ∧ tag dot = "circle" ∧
             matches ".voronoi" dot = false ∧
             bounds w1 !! 2 = Some cell ∧ matches ".voronoi" cell = true).
  { vm_compute. eexists _, _. split_and!; reflexivity. }
  destruct H as (dot & cell & Hd & Ht & Hn & Hc & Hv).
  exists dot, cell. split_and!; [exact Hd|exact Ht|exact Hc|exact Hv| |].
  - apply (proj2 (proj2 (only_the_cells_react [january; june] laptop index_html
                           "mouseenter" dot index_html_wf))).
    + by eapply list_elem_of_lookup_2.
    + by left.
  - apply (proj2 (proj2 (only_the_cells_react [january; june] laptop index_html
                           "click" cell index_html_wf))).
    + by eapply list_elem_of_lookup_2.
    + right. by split.
Defined.

(** ** Entering and leaving *)

Lemma remove_dots_restores w dot :
  wf w → highlight_marks w = [] → matches ".tooltipDot" dot = true →
  eid dot = next_id w →
  ∀ tp tx,
    exec remove_dots
      (mkWorld (dataset w) (page w) tp tx (bounds w ++ [dot]) (S (next_id w)))
    = mkWorld (dataset w) (page w) tp tx (bounds w) (S (next_id w)).
Proof.
  intros [Hnd Hlt] Hh Hdot Hid tp tx.
  unfold exec, remove_dots, mbind, M_bind, d3_selectAll, remove, mret, M_ret.
  cbn [fst snd dataset page tooltip tooltip_text bounds next_id].
  unfold highlight_marks in Hh.
  rewrite app_assoc, filter_app, Hh, filter_cons. cbn [app].
  case_decide; [|congruence]. cbn [filter list_filter ids fmap list_fmap].
  rewrite Hid. apply Forall_app in Hlt as [Hp Hb].
  f_equal.
  - apply remove_nodes_disjoint. intros x Hx Hin.
    apply list_elem_of_singleton in Hin. rewrite Forall_forall in Hp.
    apply Hp in Hx. lia.
  - rewrite remove_nodes_app, remove_nodes_disjoint.
    + rewrite remove_nodes_cons. unfold member. cbn [index_of].
      rewrite Hid, Nat.eqb_refl. cbn. apply app_nil_r.
    + intros x Hx Hin. apply list_elem_of_singleton in Hin.
      rewrite Forall_forall in Hb. apply Hb in Hx. lia.
Qed.

Lemma enter_with_dot_world e d close w :
  wf w →
  ∃ tp tx,
    exec (enter_with_dot e d close) w
    = mkWorld (dataset w) (page w) tp tx (bounds w ++ [dayDot e d (next_id w)])
        (S (next_id w)).
Proof.
  intros Hw. unfold enter_with_dot. rewrite exec_bind.
  rewrite (append_dayDot_spec e d w Hw). cbn [fst snd].
  unfold tooltip_fields, tooltip_move, tooltip_style, tooltip_set_text,
    exec, mbind, M_bind.
  cbn [snd fst dataset page tooltip tooltip_text bounds next_id].
  by eexists _, _.
Qed.

Lemma enter_leave_restores e d close w :
  wf w → highlight_marks w = [] →
  bounds (exec (enter_with_dot e d close;; remove_dots) w) = bounds w ∧
  page (exec (enter_with_dot e d close;; remove_dots) w) = page w.
Proof.
  intros Hw Hh. rewrite exec_bind. fold (exec (enter_with_dot e d close) w).
  destruct (enter_with_dot_world e d close w Hw) as (tp & tx & ->).
  rewrite (remove_dots_restores w _ Hw Hh); [done|apply matches_dayDot|done].
Qed.

(** X6.  Entering and leaving is a round trip for the chart: in a document
    whose node identifiers are unique and that holds no highlight mark, a
    pointer-enter followed by a pointer-leave of part_005 or of part_004
    gives back the bounds group and the page as they were, node for node.
    Part_005 ends with the tooltip at opacity 0. *)
Theorem hover_leaves_no_trace_in_the_chart (e : env) (d : record) (w : world) :
  wf w → highlight_marks w = [] →
  (let w' := exec (Part005.onMouseEnter e d;; Part005.onMouseLeave) w in
   bounds w' = bounds w ∧ page w' = page w ∧
   styles (tooltip w') !! "opacity" = Some (ANum (Fin 0))) ∧
  (let w' := exec (Part004.onMouseEnter e d;; Part004.onMouseLeave) w in
   bounds w' = bounds w ∧ page w' = page w).
Proof.
  intros Hw Hh. split.
  - intros w'. subst w'.
    change (Part005.onMouseEnter e d) with (enter_with_dot e d "px))").
    change Part005.onMouseLeave
      with (tooltip_style "opacity" (ANum (Fin 0));; remove_dots).
    rewrite exec_bind. fold (exec (enter_with_dot e d "px))") w).
    destruct (enter_with_dot_world e d "px))" w Hw) as (tp & tx & ->).
    rewrite exec_bind. unfold tooltip_style at 1 2 3. cbn [fst snd].
    cbn [dataset page tooltip tooltip_text bounds next_id].
    rewrite !(remove_dots_restores w _ Hw Hh); [|apply matches_dayDot|done].
    split_and!; [done|done|]. cbn [tooltip]. by rewrite styles_set_style.
  - intros w'. subst w'.
    change (Part004.onMouseEnter e d) with (enter_with_dot e d "px) )").
    change Part004.onMouseLeave with remove_dots.
    by apply enter_leave_restores.
Qed.

(** X6 on the drawn document of the scenario. *)
Lemma hover_round_trip_witness :
  wf drawn ∧ highlight_marks drawn = [] ∧
  (let w' := exec (Part005.onMouseEnter drawn_env june;; Part005.onMouseLeave) drawn in
   bounds w' = bounds drawn ∧ page w' = page drawn ∧
   styles (tooltip w') !! "opacity" = Some (ANum (Fin 0))).
Proof.
  assert (H : highlight_marks drawn = []) by (vm_compute; reflexivity).
  split; [exact drawn_wf|]. split; [exact H|].
  exact (proj1 (hover_leaves_no_trace_in_the_chart drawn_env june drawn drawn_wf H)).
Defined.

(** ** The tooltip after several hovers *)

Lemma set_style_twice name v v' name' u e :
  set_style name (Some v') (set_style name' (Some u) (set_style name (Some v) e))
  = set_style name (Some v') (set_style name' (Some u) e).
Proof.
  unfold set_style. cbn [eid tag attrs styles datum listeners text]. f_equal.
  apply map_eq. intros k.
  destruct (decide (k = name)) as [->|Hk]; [by rewrite !lookup_insert_eq|].
  rewrite !(lookup_insert_ne _ name) by done.
  destruct (decide (k = name')) as [->|Hk']; [by rewrite !lookup_insert_eq|].
  rewrite !(lookup_insert_ne _ name') by done.
  by rewrite lookup_insert_ne by done.
Qed.

Lemma set_style_same name v v' e :
  set_style name (Some v') (set_style name (Some v) e) = set_style name (Some v') e.
Proof.
  unfold set_style. cbn [eid tag attrs styles datum listeners text]. f_equal.
  apply insert_insert_eq.
Qed.

Lemma alter_const_twice (m : gmap string aval) k1 k2 k3 v1 v2 v3 u1 u2 u3 :
  alter (λ _, v3) k3 (alter (λ _, v2) k2 (alter (λ _, v1) k1
    (alter (λ _, u3) k3 (alter (λ _, u2) k2 (alter (λ _, u1) k1 m)))))
  = alter (λ _, v3) k3 (alter (λ _, v2) k2 (alter (λ _, v1) k1 m)).
Proof.
  apply map_eq. intros k.
  assert (H : ∀ (v u : aval) (x : option aval),
            (λ _, v) <$> ((λ _, u) <$> x) = (λ _ : aval, v) <$> x)
    by (by intros v u [x|]).
  rewrite !lookup_alter. repeat case_decide; simplify_eq; rewrite ?H; done.
Qed.

Lemma enter_with_dot_tooltip_eq e d close w :
  tooltip (exec (enter_with_dot e d close) w)
  = tooltip (exec (tooltip_move e d close)
               (exec (tooltip_style "opacity" (ANum (Fin 1))) w)) ∧
  tooltip_text (exec (enter_with_dot e d close) w)
  = tooltip_text (exec (tooltip_fields d) w).
Proof.
  unfold enter_with_dot. rewrite exec_bind.
  assert (Ht : tooltip (append_dayDot e d w).2 = tooltip w) by done.
  assert (Hx : tooltip_text (append_dayDot e d w).2 = tooltip_text w) by done.
  revert Ht Hx. generalize ((append_dayDot e d w).2). intros w1 Ht Hx.
  unfold tooltip_fields, tooltip_move, tooltip_style, tooltip_set_text, exec,
    mbind, M_bind.
  cbn [snd fst tooltip tooltip_text]. by rewrite Ht, Hx.
Qed.

Lemma enter_with_dot_last_wins e d1 d2 close w :
  let once := exec (enter_with_dot e d2 close) w in
  let twice := exec (enter_with_dot e d2 close) (exec (enter_with_dot e d1 close) w) in
  tooltip twice = tooltip once ∧ tooltip_text twice = tooltip_text once.
Proof.
  intros once twice. subst once twice.
  destruct (enter_with_dot_tooltip_eq e d2 close w) as [-> ->].
  destruct (enter_with_dot_tooltip_eq e d2 close (exec (enter_with_dot e d1 close) w))
    as [-> ->].
  unfold tooltip_fields, tooltip_move, tooltip_style, tooltip_set_text, exec,
    mbind, M_bind.
  cbn [snd fst tooltip tooltip_text].
  destruct (enter_with_dot_tooltip_eq e d1 close w) as [H1 H2].
  unfold exec in H1, H2. rewrite H1, H2.
  unfold tooltip_fields, tooltip_move, tooltip_style, tooltip_set_text, exec,
    mbind, M_bind.
  cbn [snd fst tooltip tooltip_text].
  split.
  - by rewrite set_style_twice, set_style_same.
  - apply alter_const_twice.
Qed.

Lemma Part001_enter_tooltip e d :
  ∃ T v1 v2 v3 v4, ∀ w,
    tooltip (exec (Part001.onMouseEnter e d) w)
    = set_style "opacity" (Some (ANum (Fin 1)))
        (set_style "transform" (Some T) (tooltip w)) ∧
    tooltip_text (exec (Part001.onMouseEnter e d) w)
    = alter (λ _, v4) "cover"
        (alter (λ _, v3) "date"
           (alter (λ _, v2) "dew-point"
              (alter (λ _, v1) "humidity" (tooltip_text w)))).
Proof.
  eexists _, _, _, _, _. intros w.
  unfold Part001.onMouseEnter, tooltip_fields, tooltip_move, tooltip_style,
    tooltip_set_text, exec, mbind, M_bind.
  cbn [snd fst tooltip tooltip_text]. split; reflexivity.
Qed.

Lemma Part001_last_wins e d1 d2 w :
  let once := exec (Part001.onMouseEnter e d2) w in
  let twice := exec (Part001.onMouseEnter e d2) (exec (Part001.onMouseEnter e d1) w) in
  tooltip twice = tooltip once ∧ tooltip_text twice = tooltip_text once.
Proof.
  intros once twice. subst once twice.
  destruct (Part001_enter_tooltip e d1) as (T1 & u1 & u2 & u3 & u4 & H1).
  destruct (Part001_enter_tooltip e d2) as (T2 & v1 & v2 & v3 & v4 & H2).
  destruct (H2 (exec (Part001.onMouseEnter e d1) w)) as [-> ->].
  destruct (H2 w) as [-> ->]. destruct (H1 w) as [-> ->]. split.
  - by rewrite set_style_twice, set_style_same.
  - apply map_eq. intros k.
    assert (H : ∀ (v u : aval) (x : option aval),
              (λ _, v) <$> ((λ _, u) <$> x) = (λ _ : aval, v) <$> x)
      by (by intros v u [x|]).
    destruct (decide (k = "cover")) as [->|];
      [|destruct (decide (k = "date")) as [->|];
        [|destruct (decide (k = "dew-point")) as [->|];
          [|destruct (decide (k = "humidity")) as [->|]]]];
      repeat first [rewrite lookup_alter_eq | rewrite lookup_alter_ne by done];
      rewrite ?H; done.
Qed.

(** X7.  The tooltip remembers only the last record: after a pointer-enter
    for a record [d1] and one for a record [d2], without a leave between
    them, the styles of the tooltip and the texts of its spans are those of
    a single pointer-enter for [d2], in part_001, part_004 and part_005 and
    in every document. *)
Theorem last_hover_wins (e : env) (d1 d2 : record) (w : world) :
  (let once := exec (Part005.onMouseEnter e d2) w in
   let twice := exec (Part005.onMouseEnter e d2) (exec (Part005.onMouseEnter e d1) w) in
   tooltip twice = tooltip once ∧ tooltip_text twice = tooltip_text once) ∧
  (let once := exec (Part004.onMouseEnter e d2) w in
   let twice := exec (Part004.onMouseEnter e d2) (exec (Part004.onMouseEnter e d1) w) in
   tooltip twice = tooltip once ∧ tooltip_text twice = tooltip_text once) ∧
  (let once := exec (Part001.onMouseEnter e d2) w in
   let twice := exec (Part001.onMouseEnter e d2) (exec (Part001.onMouseEnter e d1) w) in
   tooltip twice = tooltip once ∧ tooltip_text twice = tooltip_text once).
Proof.
  split_and!.
  - apply (enter_with_dot_last_wins e d1 d2 "px))" w).
  - apply (enter_with_dot_last_wins e d1 d2 "px) )" w).
  - apply Part001_last_wins.
Qed.

(** ** A second run of a script *)

Lemma circles_after_run w w1 svg g ms :
  page w1 = page w ++ [svg] ++ bounds w ++ [g] → tag svg = "svg" → tag g = "g" →
  marks w1 = ms →
  circles_of w1 = circles_of w ++ ms.
Proof.
  intros Hp Hs Hg Hm. unfold circles_of, marks in *.
  rewrite Hp, !filter_app, Hm.
  rewrite (filter_cons _ svg), (filter_cons _ g).
  cbn [matches]. rewrite Hs, Hg. cbn. by rewrite app_nil_r, <- !app_assoc.
Qed.

Lemma Part005_document D vp w :
  wf w →
  let w1 := exec (Part005.drawScatter D vp) w in
  chart_of (make_env D (make_dimensions Part005.margin vp)) D w1 ∧
  (∃ svg g, page w1 = page w ++ [svg] ++ bounds w ++ [g] ∧
            tag svg = "svg" ∧ tag g = "g") ∧
  tooltip w1 = tooltip w ∧ tooltip_text w1 = tooltip_text w.
Proof.
  intros Hw w1. split; [by apply Part005_chart_of|].
  destruct (Part005_chart D vp w Hw) as (svg & g & tail & Hrun & ? & ? & _).
  unfold w1, exec. rewrite Hrun. cbn [snd page tooltip tooltip_text].
  split_and!; [|reflexivity|reflexivity].
  exists svg, g. by split_and!.
Qed.

Lemma Part001_document D vp w :
  wf w →
  let w1 := exec (Part001.drawScatter D vp) w in
  chart_of (make_env D (make_dimensions Part001.margin vp)) D w1 ∧
  (∃ svg g, page w1 = page w ++ [svg] ++ bounds w ++ [g] ∧
            tag svg = "svg" ∧ tag g = "g") ∧
  tooltip w1 = tooltip w ∧ tooltip_text w1 = tooltip_text w.
Proof.
  intros Hw w1. split; [by apply Part001_chart_of|].
  destruct (Part001_chart D vp w Hw) as (svg & g & tail & Hrun & ? & ? & _).
  unfold w1, exec. rewrite Hrun. cbn [snd page tooltip tooltip_text].
  split_and!; [|reflexivity|reflexivity].
  exists svg, g. by split_and!.
Qed.

Lemma Part004_document D vp w :
  wf w →
  let w1 := exec (Part004.drawScatter D vp) w in
  chart_of (make_env D (make_dimensions Part004.margin vp)) D w1 ∧
  (∃ svg g, page w1 = page w ++ [svg] ++ bounds w ++ [g] ∧
            tag svg = "svg" ∧ tag g = "g") ∧
  tooltip w1 = tooltip w ∧ tooltip_text w1 = tooltip_text w.
Proof.
  intros Hw w1. split; [by apply Part004_chart_of|].
  destruct (Part004_chart D vp w Hw) as (svg & g & rect & tail & Hrun & ? & ? & _).
  unfold w1, exec. rewrite Hrun. cbn [snd page tooltip tooltip_text].
  split_and!; [|reflexivity|reflexivity].
  exists svg, g. by split_and!.
Qed.

Lemma chart_adds e D w w1 :
  chart_of e D w1 →
  (∃ svg g, page w1 = page w ++ [svg] ++ bounds w ++ [g] ∧
            tag svg = "svg" ∧ tag g = "g") →
  adds_a_chart D w w1.
Proof.
  intros Hc Hp. split; [done|].
  destruct (chart_of_marks e D w1 Hc) as [n Hm].
  destruct Hp as (svg & g & Hp & Hs & Hg).
  rewrite (circles_after_run w w1 svg g _ Hp Hs Hg Hm), Hm, length_app.
  unfold fresh_marks. by rewrite entering_length.
Qed.

(** X8.  A script never reuses a chart.  Each run of part_001, part_004 or
    part_005 on a document whose node identifiers are unique appends a new
    svg and a new g to the page after all that was there (the bounds group
    of an earlier run included) and draws one dot per record into the new
    group, so the document gains one circle per record with each run: two
    runs leave twice as many new circles as the dataset has records. *)
Theorem second_run_draws_a_second_chart (D : list record) (vp : viewport)
    (w : world) :
  wf w →
  (let w1 := exec (Part001.drawScatter D vp) w in
   let w2 := exec (Part001.drawScatter D vp) w1 in
   adds_a_chart D w w1 ∧ adds_a_chart D w1 w2 ∧
   length (circles_of w2) = length (circles_of w) + 2 * length D) ∧
  (let w1 := exec (Part004.drawScatter D vp) w in
   let w2 := exec (Part004.drawScatter D vp) w1 in
   adds_a_chart D w w1 ∧ adds_a_chart D w1 w2 ∧
   length (circles_of w2) = length (circles_of w) + 2 * length D) ∧
  (let w1 := exec (Part005.drawScatter D vp) w in
   let w2 := exec (Part005.drawScatter D vp) w1 in
   adds_a_chart D w w1 ∧ adds_a_chart D w1 w2 ∧
   length (circles_of w2) = length (circles_of w) + 2 * length D).
Proof.
  intros Hw. split_and!; intros w1 w2.
  - destruct (Part001_document D vp w Hw) as (Hc1 & Hp1 & _). fold w1 in Hc1, Hp1.
    destruct (Part001_document D vp w1 (proj1 Hc1)) as (Hc2 & Hp2 & _).
    fold w2 in Hc2, Hp2.
    pose proof (chart_adds _ D w w1 Hc1 Hp1) as H1.
    pose proof (chart_adds _ D w1 w2 Hc2 Hp2) as H2.
    split_and!; [done|done|].
    destruct H1 as (_ & _ & H1), H2 as (_ & _ & H2). lia.
  - destruct (Part004_document D vp w Hw) as (Hc1 & Hp1 & _). fold w1 in Hc1, Hp1.
    destruct (Part004_document D vp w1 (proj1 Hc1)) as (Hc2 & Hp2 & _).
    fold w2 in Hc2, Hp2.
    pose proof (chart_adds _ D w w1 Hc1 Hp1) as H1.
    pose proof (chart_adds _ D w1 w2 Hc2 Hp2) as H2.
    split_and!; [done|done|].
    destruct H1 as (_ & _ & H1), H2 as (_ & _ & H2). lia.
  - destruct (Part005_document D vp w Hw) as (Hc1 & Hp1 & _). fold w1 in Hc1, Hp1.
    destruct (Part005_document D vp w1 (proj1 Hc1)) as (Hc2 & Hp2 & _).
    fold w2 in Hc2, Hp2.
    pose proof (chart_adds _ D w w1 Hc1 Hp1) as H1.
    pose proof (chart_adds _ D w1 w2 Hc2 Hp2) as H2.
    split_and!; [done|done|].
    destruct H1 as (_ & _ & H1), H2 as (_ & _ & H2). lia.
Qed.

(** X8 on the page of index.html: part_005 run twice. *)
Lemma second_run_witness :
  wf index_html ∧
  (let w1 := exec (Part005.drawScatter [january; june] laptop) index_html in
   let w2 := exec (Part005.drawScatter [january; june] laptop) w1 in
   adds_a_chart [january; june] index_html w1 ∧ adds_a_chart [january; june] w1 w2 ∧
   length (circles_of w2) = length (circles_of index_html) + 2 * length [january; june]).
Proof.
  split; [exact index_html_wf|].
  exact (proj2 (proj2 (second_run_draws_a_second_chart
                         [january; june] laptop index_html index_html_wf))).
Defined.

(** ** The background rectangle of part_004 *)

Lemma sub_sub_comm a b c : sub (sub a (Fin b)) (Fin c) = sub (sub a (Fin c)) (Fin b).
Proof.
  destruct a as [| |x]; try done. unfold sub, opp, add. f_equal.
  apply Qc_is_canon. simpl. rewrite !Qred_correct. ring.
Qed.

(** X9.  The grey rectangle of part_004 is the first node of the finished
    bounds group, before the dots, the axes and the cells, so it is painted
    beneath them.  Its width [width - margin.right - margin.left] and its
    height [height - margin.top - margin.bottom] are, in exact arithmetic,
    the bounded width and the bounded height of the chart. *)
Theorem Part004_rectangle_fills_the_bounded_area (D : list record) (vp : viewport)
    (w : world) :
  wf w →
  let dimensions := make_dimensions Part004.margin vp in
  ∃ rect rest,
    bounds (exec (Part004.drawScatter D vp) w) = rect :: rest ∧
    tag rect = "rect" ∧
    attrs rect !! "width" = Some (ANum (boundedWidth dimensions)) ∧
    attrs rect !! "height" = Some (ANum (boundedHeight dimensions)).
Proof.
  intros Hw dimensions.
  destruct (Part004_chart D vp w Hw)
    as (svg & g & rect & tail & Hrun & _ & _ & Ht & Hwd & Hht & _).
  exists rect. eexists. unfold exec. rewrite Hrun. cbn [snd bounds].
  split_and!; [reflexivity|done| |].
  - rewrite Hwd. cbn [dims make_env]. fold dimensions. do 2 f_equal.
    unfold dimensions, make_dimensions. cbn [width margin boundedWidth].
    apply sub_sub_comm.
  - rewrite Hht. by cbn [dims make_env].
Qed.

(** X9 on the page of index.html. *)
Lemma Part004_rectangle_witness :
  wf index_html ∧
  (let dimensions := make_dimensions Part004.margin laptop in
   ∃ rect rest,
     bounds (exec (Part004.drawScatter [january; june] laptop) index_html)
     = rect :: rest ∧
     tag rect = "rect" ∧
     attrs rect !! "width" = Some (ANum (boundedWidth dimensions)) ∧
     attrs rect !! "height" = Some (ANum (boundedHeight dimensions))).
Proof.
  split; [exact index_html_wf|].
  exact (Part004_rectangle_fills_the_bounded_area
           [january; june] laptop index_html index_html_wf).
Defined.

(** ** The scales map their domain into the bounded area *)








(** ** Which nodes a re-render keeps *)

Lemma ids_filter_reconcile rm (p : element → bool) D f i (l : list element) :
  keeps_eid f → (∀ k e, p (f k e) = p e) → (∀ d e, p (set_datum d e) = p e) →
  ids (filter (λ e, p e = true) (reconcile rm p D f i l))
  = if rm then take (length D - i) (ids (filter (λ e, p e = true) l))
    else ids (filter (λ e, p e = true) l).
Proof.
  intros Hf Hpf Hpd. revert i. induction l as [|e l IH]; intros i.
  { cbn [reconcile]. rewrite filter_nil. change (ids []) with (@nil nat).
    destruct rm; [by rewrite take_nil|done]. }
  cbn [reconcile]. rewrite (filter_cons _ e). destruct (p e) eqn:Hp.
  - case_decide; [|congruence].
    destruct (Nat.ltb_spec i (length D)) as [Hi|Hi].
    + rewrite filter_cons. case_decide as Hc; [|by rewrite Hpf, Hpd in Hc].
      change (ids (?x :: ?l)) with (eid x :: ids l).
      rewrite Hf, eid_set_datum, IH. destruct rm; [|done].
      replace (length D - i) with (S (length D - S i)) by lia. done.
    + destruct rm.
      * rewrite IH. replace (length D - i) with 0 by lia.
        replace (length D - S i) with 0 by lia. by rewrite !take_0.
      * rewrite filter_cons. case_decide; [|congruence].
        change (ids (?x :: ?l)) with (eid x :: ids l). by rewrite IH.
  - case_decide; [congruence|]. rewrite filter_cons.
    case_decide; [congruence|]. apply IH.
Qed.

Lemma ids_filter_entering (p : element → bool) t f k n ds :
  keeps_eid f → (∀ k e, p (f k e) = p e) → (∀ n d, p (new_element n t d) = true) →
  ids (filter (λ e, p e = true) (entering t f k n ds)) = seq n (length ds).
Proof.
  intros Hf Hpf Hpt. rewrite filter_all.
  - by apply ids_entering.
  - apply entering_spec. intros. by rewrite Hpf, Hpt.
Qed.

Lemma renders_ids {A : Type} rm (p : element → bool) t D f (m : M A) w :
  renders rm p t D f m → wf w →
  keeps_eid f → (∀ k e, p (f k e) = p e) → (∀ d e, p (set_datum d e) = p e) →
  (∀ n d, p (new_element n t d) = true) →
  let old := ids (filter (λ e, p e = true) (bounds w)) in
  ids (filter (λ e, p e = true) (bounds (exec m w)))
  = (if rm then take (length D) old else old)
    ++ seq (next_id w) (length D - length old).
Proof.
  intros Hm Hw Hf Hpf Hpd Hpt old. destruct (Hm w Hw) as (-> & _).
  unfold reconciled. rewrite filter_app. unfold ids at 1. rewrite fmap_app.
  fold (ids (filter (λ e, p e = true) (reconcile rm p D f 0 (bounds w)))).
  match goal with |- context [eid <$> filter ?P (entering ?t ?f ?k ?n ?ds)] =>
    change (eid <$> filter P (entering t f k n ds))
      with (ids (filter P (entering t f k n ds))) end.
  rewrite ids_filter_reconcile, ids_filter_entering by done.
  rewrite Nat.sub_0_r, length_drop. unfold old. by rewrite length_ids.
Qed.

(** X13.  The join of part_001 (and of part_004 and part_005) reuses circles
    by position: in a bounds group whose node identifiers are unique, the
    circles after the join are the first [length D] circles that were there,
    the same nodes in the same order, followed by one new node for each
    record beyond them; the surplus circles are removed. *)
Theorem join_keeps_the_first_marks (e : env) (D : list record) (w : world) :
  wf w →
  ids (marks (exec (draw_dots e D) w))
  = take (length D) (ids (marks w))
    ++ seq (next_id w) (length D - length (marks w)).
Proof.
  intros Hw.
  assert (Hpd : ∀ d x, matches "circle" (set_datum d x) = matches "circle" x)
    by (by intros d []).
  pose proof (renders_ids true (matches "circle") "circle" D _ _ w
                (draw_dots_renders e D) Hw
                (cosmetic_keeps_eid _ (cosmetic_dress_dot e))
                (λ _, matches_dress_dot e) Hpd (λ _ _, eq_refl)) as H.
  cbv zeta in H. unfold marks. by rewrite H, length_ids.
Qed.

(** X13 on the drawn document of the scenario, re-rendered with one record:
    the first of the two circles stays. *)
Lemma join_keeps_witness :
  wf drawn ∧
  ids (marks (exec (draw_dots drawn_env [june]) drawn))
  = take (length [june]) (ids (marks drawn))
    ++ seq (next_id drawn) (length [june] - length (marks drawn)).
Proof.
  split; [exact drawn_wf|].
  exact (join_keeps_the_first_marks drawn_env [june] drawn drawn_wf).
Defined.

(** X14.  The [enter().append] of part_000 only ever adds: in a bounds
    group whose node identifiers are unique, all circles that were there
    stay, the same nodes in the same order, one new circle follows for each
    record beyond their number, and none is removed when the dataset is
    shorter; the group then holds as many circles as the larger of the two
    counts. *)
Theorem enter_append_never_removes (D : list record) (w : world) :
  wf w →
  ids (marks (exec (draw_dots_enter D) w))
  = ids (marks w) ++ seq (next_id w) (length D - length (marks w)) ∧
  length (marks (exec (draw_dots_enter D) w))
  = Nat.max (length (marks w)) (length D).
Proof.
  intros Hw.
  assert (Hpd : ∀ d x, matches "circle" (set_datum d x) = matches "circle" x)
    by (by intros d []).
  pose proof (renders_ids false (matches "circle") "circle" D _ _ w
                (draw_dots_enter_renders D) Hw
                (λ _ _, eq_refl) (λ _ _, eq_refl) Hpd (λ _ _, eq_refl)) as H.
  cbv zeta in H. unfold marks.
  assert (Heq : ids (filter (λ e, matches "circle" e = true)
                       (bounds (exec (draw_dots_enter D) w)))
                = ids (filter (λ e, matches "circle" e = true) (bounds w))
                  ++ seq (next_id w)
                       (length D - length (filter (λ e, matches "circle" e = true)
                                             (bounds w)))).
  { by rewrite H, length_ids. }
  split; [done|].
  rewrite <- (length_ids (filter _ (bounds (exec _ w)))), Heq.
  rewrite length_app, length_seq, length_ids. lia.
Qed.

(** X14 on the drawn document of the scenario, with three records for its
    two circles. *)
Lemma enter_append_witness :
  wf drawn ∧
  ids (marks (exec (draw_dots_enter [january; june; january]) drawn))
  = ids (marks drawn)
    ++ seq (next_id drawn) (length [january; june; january] - length (marks drawn)) ∧
  length (marks (exec (draw_dots_enter [january; june; january]) drawn))
  = Nat.max (length (marks drawn)) (length [january; june; january]).
Proof.
  split; [exact drawn_wf|].
  exact (enter_append_never_removes [january; june; january] drawn drawn_wf).
Defined.

(** ** part_000 *)

Lemma create_all_bare n D :
  Forall2 (λ m r, tag m = "circle" ∧ datum m = Some r ∧ attrs m = ∅ ∧
                  styles m = ∅ ∧ listeners m = ∅)
    (create_all "circle" n D) D.
Proof.
  revert n. induction D as [|d D IH]; intros n; [constructor|].
  cbn [create_all]. constructor; [done|apply IH].
Qed.

(** X11.  Part_000 draws the circles and nothing else: after its run, in
    every document, the new bounds group holds exactly one circle per
    record, in the order of the dataset and bound to its record, and no
    circle has an attribute, a style or a listener (no [cx], [cy] or [r] is
    set, although the scales are built). *)
Theorem Part000_draws_bare_circles (D : list record) (vp : viewport) (w : world) :
  Forall2 (λ m r, tag m = "circle" ∧ datum m = Some r ∧ attrs m = ∅ ∧
                  styles m = ∅ ∧ listeners m = ∅)
    (bounds (exec (Part000.drawScatter D vp) w)) D.
Proof.
  assert (H : bounds (exec (Part000.drawScatter D vp) w)
              = create_all "circle" (S (S (next_id w))) D).
  { unfold Part000.drawScatter. rewrite exec_bind. cbv beta zeta.
    change (fst (load D w)) with D.
    do 2 (rewrite exec_bind; cbv beta zeta).
    change (bounds (exec (draw_dots_enter D)
                      (exec (draw_canvas (make_dimensions Part000.margin vp))
                         (exec (load D) w)))
            = create_all "circle" (S (S (next_id w))) D).
    set (w0 := exec (draw_canvas (make_dimensions Part000.margin vp))
                 (exec (load D) w)).
    assert (Hm : marks w0 = []) by done.
    by rewrite (draw_dots_enter_fresh D w0 Hm). }
  rewrite H. apply create_all_bare.
Qed.

(** ** The spans of the tooltip *)

Lemma tooltip_fields_spans d w k :
  is_Some (tooltip_text (exec (tooltip_fields d) w) !! k)
  ↔ is_Some (tooltip_text w !! k).
Proof.
  unfold tooltip_fields, tooltip_set_text, exec, mbind, M_bind.
  cbn [snd fst tooltip_text]. by rewrite !lookup_alter_is_Some.
Qed.

Lemma handler_spans (run : handler → record → M unit) :
  (∀ h d w k, is_Some (tooltip_text (exec (run h d) w) !! k)
              ↔ is_Some (tooltip_text w !! k)) →
  ∀ type target w k,
    is_Some (tooltip_text (exec (dispatch run type target) w) !! k)
    ↔ is_Some (tooltip_text w !! k).
Proof.
  intros Hrun type target w k. unfold exec, dispatch.
  destruct (position target (bounds w)) as [p|]; [|done].
  destruct (bounds w !! p) as [x|]; [|done].
  destruct (receives_pointer_events x); [|done].
  destruct (listeners x !! type) as [h|]; [|done].
  destruct (datum x) as [d|]; [|done]. apply Hrun.
Qed.

(** X12.  No event creates or removes a span of the tooltip: whatever
    event is dispatched to whatever node, with the handlers of part_001,
    part_004 or part_005, the tooltip has a text for a name afterwards
    exactly when it had one before.  The text that [onMouseEnter] writes
    for a span the page lacks (the span [cover] of part_001 on the
    index.html of the README) is lost. *)
Theorem hover_writes_only_into_the_spans_of_the_page (e : env) (type : string)
    (target : nat) (w : world) (k : string) :
  (is_Some (tooltip_text (exec (dispatch (Part001.run e) type target) w) !! k)
   ↔ is_Some (tooltip_text w !! k)) ∧
  (is_Some (tooltip_text (exec (dispatch (Part004.run e) type target) w) !! k)
   ↔ is_Some (tooltip_text w !! k)) ∧
  (is_Some (tooltip_text (exec (dispatch (Part005.run e) type target) w) !! k)
   ↔ is_Some (tooltip_text w !! k)).
Proof.
  split_and!; apply handler_spans; intros [] d w' k'; try done.
  - change (Part001.run e OnMouseEnter d) with (Part001.onMouseEnter e d).
    rewrite Part001_enter_text, lookup_alter_is_Some.
    apply tooltip_fields_spans.
  - change (Part004.run e OnMouseEnter d) with (enter_with_dot e d "px) )").
    destruct (enter_with_dot_tooltip_eq e d "px) )" w') as [_ ->].
    apply tooltip_fields_spans.
  - change (Part005.run e OnMouseEnter d) with (enter_with_dot e d "px))").
    destruct (enter_with_dot_tooltip_eq e d "px))" w') as [_ ->].
    apply tooltip_fields_spans.
Qed.

(** ** The colours of the dots *)























(** ** The exercise on data joins *)

Lemma wf_same_ids w b' :
  wf w → ids b' = ids (bounds w) →
  wf (mkWorld (dataset w) (page w) (tooltip w) (tooltip_text w) b' (next_id w)).
Proof.
  intros [Hnd Hlt] Hids. split; cbn [page bounds next_id].
  - unfold ids in *. rewrite fmap_app in *. by rewrite Hids.
  - rewrite Forall_app in *. destruct Hlt as [Hl1 Hl2]. split; [done|].
    rewrite Forall_forall in *. intros e He.
    assert (Hx : eid e ∈ ids (bounds w)).
    { rewrite <- Hids. by apply list_elem_of_fmap_2. }
    apply list_elem_of_fmap in Hx as (e' & -> & He'). by apply Hl2.
Qed.

(** Binding the array to the circles, when they are the last nodes of the
    bounds group and not more than the records. *)
Lemma data_run sel D w A G :
  wf w → bounds w = A ++ G →
  filter (λ e, matches sel e = true) A = [] →
  Forall (λ e, matches sel e = true) G →
  length G ≤ length D →
  (selectAll sel .> data D) w
  = (mkJoined (ids G) (drop (length G) D) [],
     mkWorld (dataset w) (page w) (tooltip w) (tooltip_text w)
       (A ++ imap (λ k, set_datum (D !! k)) G) (next_id w)) ∧
  wf (mkWorld (dataset w) (page w) (tooltip w) (tooltip_text w)
        (A ++ imap (λ k, set_datum (D !! k)) G) (next_id w)).
Proof.
  intros Hw Hb HA HG Hlen.
  assert (Hf : filter (λ e, matches sel e = true) (bounds w) = G).
  { by rewrite Hb, filter_app, HA, filter_all. }
  assert (Hl : length (ids G) = length G) by apply length_ids.
  split.
  - unfold mbind, M_bind, selectAll, data. rewrite Hf, Hl.
    rewrite (take_ge (ids G)), (drop_ge (ids G)) by lia. f_equal.
    unfold update_world. f_equal.
    + apply (page_untouched sel w _ _ Hw). intros x Hx. left. by rewrite Hf.
    + rewrite Hb. destruct Hw as [Hnd _]. rewrite Hb in Hnd.
      unfold ids in Hnd. rewrite fmap_app in Hnd.
      apply NoDup_app in Hnd as (_ & _ & Hnd).
      pose proof (update_nodes_segment (λ k, set_datum (D !! k)) A G []) as H.
      rewrite !app_nil_r in H. by apply H.
  - apply wf_same_ids; [done|]. rewrite Hb. unfold ids. rewrite !fmap_app.
    f_equal. fold (ids (imap (λ k, set_datum (D !! k)) G)). by apply ids_imap.
Qed.

Lemma yields_enter_append t j w :
  wf w →
  yields (enter_append t j) w (bounds w) (create_all t (next_id w) (enter j)) []
    (next_id w + length (enter j)).
Proof.
  intros [Hnd Hlt]. split.
  - unfold enter_append. by rewrite ids_create_all, app_nil_r.
  - rewrite app_nil_r. split; cbn [page bounds next_id].
    + rewrite app_assoc. unfold ids. rewrite fmap_app.
      fold (ids (create_all t (next_id w) (enter j))). rewrite ids_create_all.
      apply NoDup_app. split_and!; [done| |apply NoDup_seq].
      intros x Hx Hin. apply elem_of_seq in Hin.
      apply list_elem_of_fmap in Hx as (e & -> & He).
      rewrite Forall_forall in Hlt. apply Hlt in He. lia.
    + rewrite app_assoc, Forall_app. split.
      * eapply Forall_impl; [exact Hlt|]. intros e He. simpl in *. lia.
      * rewrite Forall_forall. intros e He.
        assert (Hx : eid e ∈ ids (create_all t (next_id w) (enter j))).
        { by apply list_elem_of_fmap_2. }
        rewrite ids_create_all in Hx. apply elem_of_seq in Hx. lia.
Qed.

Lemma yields_merge m w A E0 E B n :
  yields m w (A ++ E0) E B n →
  yields (m .> Tutorial.merge (ids E0)) w A (E0 ++ E) B n.
Proof.
  intros [Hm Hwf]. unfold yields. rewrite <- !app_assoc in *.
  split; [|exact Hwf].
  rewrite (bind_run _ _ _ _ _ Hm). unfold Tutorial.merge, ids.
  by rewrite fmap_app.
Qed.

Lemma entering_ext t f g k n ds :
  (∀ i d, ds !! i = Some d →
          f (k + i) (new_element (n + i) t (Some d))
          = g (k + i) (new_element (n + i) t (Some d))) →
  entering t f k n ds = entering t g k n ds.
Proof.
  revert k n. induction ds as [|d ds IH]; intros k n H; [done|].
  cbn [entering]. f_equal.
  - specialize (H 0 d eq_refl). by rewrite !Nat.add_0_r in H.
  - apply IH. intros i d' Hi. specialize (H (S i) d' Hi).
    by rewrite <- !Nat.add_succ_comm in H.
Qed.

Lemma imap_imap {A B C : Type} (f : nat → B → C) (g : nat → A → B) (l : list A) :
  imap f (imap g l) = imap (λ k x, f k (g k x)) l.
Proof.
  revert f g. induction l as [|x l IH]; intros f g; [done|].
  cbn [imap]. f_equal. apply (IH (f ∘ S) (g ∘ S)).
Qed.

Lemma painted_paint e color x r :
  tag x = "circle" → datum x = Some r → painted e color (paint e color x) r.
Proof.
  intros Ht Hd. unfold paint. rewrite Hd. unfold painted.
  split_and!; try done; rewrite !attrs_set_attr; repeat case_decide; done.
Qed.

Lemma paint_keeps e color : keeps_eid (λ _, paint e color).
Proof. intros k x. unfold paint. by destruct (datum x). Qed.

Lemma paint_circle e color x :
  matches "circle" (paint e color x) = matches "circle" x.
Proof. unfold paint. by destruct (datum x). Qed.

(** The four setters of [drawDots], one after the other. *)
Lemma paint_setters e color k x :
  set_attr "fill" (Some (AStr color))
    (set_attr "r" (Some (ANum (Fin (zq 5))))
       (match datum (match datum x with
                     | Some d => set_attr "cx" (ANum <$> apply (xScale e) (xAccessor d)) x
                     | None => x
                     end) with
        | Some d =>
            set_attr "cy" ((λ (d : record) (_ : nat),
                              ANum <$> apply (yScale e) (yAccessor d)) d k)
              (match datum x with
               | Some d => set_attr "cx" (ANum <$> apply (xScale e) (xAccessor d)) x
               | None => x
               end)
        | None => match datum x with
                  | Some d => set_attr "cx" (ANum <$> apply (xScale e) (xAccessor d)) x
                  | None => x
                  end
        end))
  = paint e color x.
Proof. unfold paint. by destruct x as [? ? ? ? [?|] ? ?]. Qed.

Lemma entering_painted e color n D :
  Forall2 (painted e color) (entering "circle" (λ _, paint e color) 0 n D) D.
Proof. apply entering_Forall2. intros k i d. by apply painted_paint. Qed.

Lemma entering_circles e color k n D :
  Forall (λ x, matches "circle" x = true)
    (entering "circle" (λ _, paint e color) k n D).
Proof. apply entering_spec. intros ? ? ?. by rewrite paint_circle. Qed.

(** Binding the records again changes nothing on circles that hold them. *)
Lemma rebind_entering e color n (D D1 : list record) :
  D1 `prefix_of` D →
  imap (λ k, set_datum (D !! k)) (entering "circle" (λ _, paint e color) 0 n D1)
  = entering "circle" (λ _, paint e color) 0 n D1.
Proof.
  intros [D2 ->]. rewrite imap_entering. apply entering_ext.
  intros i d Hi. cbn [Nat.add].
  rewrite (lookup_app_l_Some _ _ _ _ Hi). unfold paint, set_datum. reflexivity.
Qed.


Lemma imap_pointwise {A B : Type} (f : nat → A → B) (h : A → B) (l : list A) :
  (∀ k x, f k x = h x) → imap f l = h <$> l.
Proof.
  intros H. revert f H. induction l as [|x l IH]; intros f H; [done|].
  cbn [imap fmap list_fmap]. f_equal; [apply H|]. apply IH. intros k y. apply H.
Qed.

(** One call of [drawDots] with [merge], in the same situation. *)
Lemma drawDots_merge_run e D color w A G :
  wf w → bounds w = A ++ G →
  filter (λ x, matches "circle" x = true) A = [] →
  Forall (λ x, matches "circle" x = true) G →
  length G ≤ length D →
  yields (Tutorial.drawDots_merge e D color) w A
    (paint e color <$> (imap (λ k, set_datum (D !! k)) G
                        ++ create_all "circle" (next_id w) (drop (length G) D))) []
    (next_id w + (length D - length G)).
Proof.
  intros Hw Hb HA HG Hlen.
  destruct (data_run "circle" D w A G Hw Hb HA HG Hlen) as [Hd Hw'].
  set (G' := imap (λ k, set_datum (D !! k)) G) in *.
  set (w' := mkWorld (dataset w) (page w) (tooltip w) (tooltip_text w)
               (A ++ G') (next_id w)) in *.
  set (j := mkJoined (ids G) (drop (length G) D) []) in *.
  set (C := create_all "circle" (next_id w) (drop (length G) D)).
  assert (Hids : ids G = ids G').
  { unfold G'. symmetry. by apply ids_imap. }
  assert (Hy : yields
            (enter_append "circle" j
               .> Tutorial.merge (update j)
               .> attr_fn "cx" (λ d _, ANum <$> apply (xScale e) (xAccessor d))
               .> attr_fn "cy" (λ d _, ANum <$> apply (yScale e) (yAccessor d))
               .> attr "r" (Some (ANum (Fin (zq 5))))
               .> attr "fill" (Some (AStr color)))
            w' A (paint e color <$> (G' ++ C)) []
            (next_id w' + length (enter j))).
  { assert (HE : paint e color <$> (G' ++ C)
               = imap (λ _, set_attr "fill" (Some (AStr color)))
                   (imap (λ _, set_attr "r" (Some (ANum (Fin (zq 5)))))
                      (imap (λ k x, match datum x with
                                    | Some d => set_attr "cy"
                                        ((λ (d : record) (_ : nat),
                                            ANum <$> apply (yScale e) (yAccessor d)) d k) x
                                    | None => x
                                    end)
                         (imap (λ k x, match datum x with
                                       | Some d => set_attr "cx"
                                           ((λ (d : record) (_ : nat),
                                               ANum <$> apply (xScale e) (xAccessor d)) d k) x
                                       | None => x
                                       end)
                            (G' ++ C))))).
    { rewrite !imap_imap. symmetry. apply imap_pointwise.
      intros k x. exact (paint_setters e color k x). }
    rewrite HE.
    do 4 (eapply yields_then; [|elementwise_setter|keeps_eid_setter]).
    cbn [update j]. unfold j. cbn [update]. rewrite Hids.
    apply yields_merge.
    pose proof (yields_enter_append "circle" j w' Hw') as H.
    exact H. }
  destruct Hy as [Hy Hwf]. unfold yields.
  unfold w' in Hy, Hwf. cbn [dataset page tooltip tooltip_text bounds next_id] in Hy, Hwf.
  unfold j in Hy, Hwf. cbn [enter] in Hy, Hwf. rewrite length_drop in Hy, Hwf.
  split; [|exact Hwf].
  unfold Tutorial.drawDots_merge. by rewrite (bind_run _ _ _ _ _ Hd).
Qed.

Lemma drop_take_length {A : Type} (n : nat) (l : list A) :
  drop (length (take n l)) l = drop n l.
Proof.
  rewrite length_take. destruct (le_lt_dec (length l) n) as [H|H].
  - rewrite Nat.min_r by lia. by rewrite !drop_ge by lia.
  - by rewrite Nat.min_l by lia.
Qed.

Lemma marks_run w A E n :
  filter (λ x, matches "circle" x = true) A = [] →
  Forall (λ x, matches "circle" x = true) E →
  marks (mkWorld (dataset w) (page w) (tooltip w) (tooltip_text w) (A ++ E ++ []) n)
  = E.
Proof.
  intros HA HE. unfold marks. cbn [bounds].
  by rewrite app_nil_r, filter_app, HA, filter_all.
Qed.

Lemma take_prefix {A : Type} (n : nat) (l : list A) : take n l `prefix_of` l.
Proof. exists (drop n l). by rewrite take_drop. Qed.



(** X17.  The same exercise with [.merge(dots)] after the append.  The
    first call draws the first hundred records in grey as before; the call
    of the timer then positions and colours the circles that were there
    together with the new ones: afterwards there is one circle per record
    of the whole dataset, in order, each bound to its record, placed at its
    scaled dew point and humidity and filled cornflowerblue, and the first
    circles are the nodes of the first call. *)
Theorem merge_colours_all_dots (e : env) (D : list record) (w : world) :
  wf w → marks w = [] →
  let w1 := exec (Tutorial.first_slice (Tutorial.drawDots_merge e) D) w in
  let w2 := exec (Tutorial.after_one_second (Tutorial.drawDots_merge e) D) w1 in
  Forall2 (painted e "gray") (marks w1) (take 100 D) ∧
  Forall2 (painted e "cornflowerblue") (marks w2) D ∧
  ids (marks w1) `prefix_of` ids (marks w2).
Proof.
  intros Hw Hm w1 w2. unfold marks in Hm.
  set (E1 := entering "circle" (λ _, paint e "gray") 0 (next_id w) (take 100 D)).
  destruct (drawDots_merge_run e (take 100 D) "gray" w (bounds w) [] Hw
              (eq_sym (app_nil_r _)) Hm (Forall_nil_2 _) (Nat.le_0_l _))
    as [H1 Hwf1].
  cbn [imap length app] in H1, Hwf1. rewrite drop_0, Nat.sub_0_r in H1, Hwf1.
  assert (HE : paint e "gray" <$> create_all "circle" (next_id w) (take 100 D) = E1).
  { unfold E1. by rewrite create_all_entering, entering_fmap. }
  rewrite HE in H1, Hwf1.
  set (W1 := mkWorld (dataset w) (page w) (tooltip w) (tooltip_text w)
               (bounds w ++ E1 ++ []) (next_id w + length (take 100 D))) in *.
  assert (Hw1 : w1 = W1).
  { unfold w1, exec, Tutorial.first_slice, Tutorial.slice0. by rewrite H1. }
  clearbody w1. subst w1.
  assert (HE1 : Forall (λ x, matches "circle" x = true) E1)
    by apply entering_circles.
  assert (Hlen : length E1 ≤ length D).
  { unfold E1. rewrite entering_length, length_take. lia. }
  destruct (drawDots_merge_run e D "cornflowerblue" W1 (bounds w) E1 Hwf1
              ltac:(by unfold W1; cbn [bounds]; rewrite app_nil_r) Hm HE1 Hlen)
    as [H2 _].
  assert (Hre : imap (λ k, set_datum (D !! k)) E1 = E1)
    by apply rebind_entering, take_prefix.
  rewrite Hre in H2.
  assert (Hd : drop (length E1) D = drop 100 D).
  { unfold E1. rewrite entering_length. apply drop_take_length. }
  rewrite Hd in H2.
  set (C := create_all "circle" (next_id W1) (drop 100 D)) in *.
  set (blue := paint e "cornflowerblue") in *.
  assert (Hcirc : Forall (λ x, matches "circle" x = true) (blue <$> (E1 ++ C))).
  { assert (Hb : ∀ x, matches "circle" (blue x) = matches "circle" x)
      by apply paint_circle.
    rewrite Forall_fmap. apply Forall_app. split.
    - eapply Forall_impl; [exact HE1|]. intros x Hx. unfold compose.
      by rewrite Hb.
    - unfold C. rewrite create_all_entering. apply entering_spec.
      intros ? ? ?. unfold compose. by rewrite Hb. }
  assert (Hw2 : marks w2 = blue <$> (E1 ++ C)).
  { unfold w2, exec, Tutorial.after_one_second. rewrite H2. unfold marks.
    cbn [snd bounds]. rewrite app_nil_r, !filter_app, Hm.
    by rewrite filter_all. }
  assert (Hm1 : marks W1 = E1) by (by apply marks_run).
  rewrite Hm1, Hw2. split_and!.
  - apply entering_painted.
  - assert (HD : Forall2 (painted e "cornflowerblue") (blue <$> (E1 ++ C))
                   (take 100 D ++ drop 100 D)); [|by rewrite take_drop in HD].
    rewrite fmap_app. apply Forall2_app.
    + apply Forall2_fmap_l. eapply Forall2_impl; [apply (entering_painted e "gray")|].
      intros x r (Ht & Hdt & _). simpl. by apply painted_paint.
    + unfold C, blue. rewrite create_all_entering, entering_fmap.
      apply entering_Forall2. intros k i d. by apply painted_paint.
  - exists (ids (blue <$> C)). unfold ids. rewrite fmap_app, fmap_app. f_equal.
    rewrite <- list_fmap_compose. apply list_fmap_ext.
    intros i x _. unfold compose, blue.
    exact (paint_keeps e "cornflowerblue" 0 x).
Qed.

(** X17 on the page of index.html, with the two records of the scenario. *)
Lemma merge_colours_witness :
  wf index_html ∧ marks index_html = [] ∧
  (let w1 := exec (Tutorial.first_slice (Tutorial.drawDots_merge drawn_env)
                     [january; june]) index_html in
   let w2 := exec (Tutorial.after_one_second (Tutorial.drawDots_merge drawn_env)
                     [january; june]) w1 in
   Forall2 (painted drawn_env "gray") (marks w1) (take 100 [january; june]) ∧
   Forall2 (painted drawn_env "cornflowerblue") (marks w2) [january; june] ∧
   ids (marks w1) `prefix_of` ids (marks w2)).
Proof.
  split; [exact index_html_wf|]. split; [reflexivity|].
  exact (merge_colours_all_dots drawn_env [january; june] index_html
           index_html_wf eq_refl).
Defined.

(** ** The loop over the records *)

Lemma looping_looped e n D : Forall2 (looped e) (looping e n D) D.
Proof.
  revert n. induction D as [|d D IH]; intros n; [constructor|].
  cbn [looping]. constructor; [|apply IH].
  unfold looped. split_and!; try done; rewrite !attrs_set_attr; repeat case_decide; done.
Qed.

Lemma looping_circles e n D :
  Forall (λ x, matches "circle" x = true) (looping e n D).
Proof.
  revert n. induction D as [|d D IH]; intros n; [constructor|].
  cbn [looping]. constructor; [done|apply IH].
Qed.

Lemma looping_length e n D : length (looping e n D) = length D.
Proof. revert n. induction D as [|d D IH]; intros n; [done|]. cbn. by rewrite IH. Qed.

Lemma forEach_run e D w :
  wf w →
  exec (Tutorial.draw_dots_forEach e D) w
  = mkWorld (dataset w) (page w) (tooltip w) (tooltip_text w)
      (bounds w ++ looping e (next_id w) D) (next_id w + length D) ∧
  wf (mkWorld (dataset w) (page w) (tooltip w) (tooltip_text w)
        (bounds w ++ looping e (next_id w) D) (next_id w + length D)).
Proof.
  revert w. induction D as [|d D IH]; intros w Hw.
  - cbn [looping length]. rewrite app_nil_r, Nat.add_0_r.
    unfold exec. cbn. by rewrite world_eta.
  - assert (Hy : yields
              (append "circle"
                 .> attr "cx" (ANum <$> apply (xScale e) (xAccessor d))
                 .> attr "cy" (ANum <$> apply (yScale e) (yAccessor d))
                 .> attr "r" (Some (ANum (Fin (zq 5)))))
              w (bounds w)
              (imap (λ _, set_attr "r" (Some (ANum (Fin (zq 5)))))
                 (imap (λ _, set_attr "cy" (ANum <$> apply (yScale e) (yAccessor d)))
                    (imap (λ _, set_attr "cx" (ANum <$> apply (xScale e) (xAccessor d)))
                       [new_element (next_id w) "circle" None])))
              [] (S (next_id w))).
    { yields_chain ltac:(by apply yields_append). }
    destruct Hy as [Hy Hwf]. cbn [imap] in Hy, Hwf. rewrite app_nil_r in Hy, Hwf.
    set (x := set_attr "r" (Some (ANum (Fin (zq 5))))
                (set_attr "cy" (ANum <$> apply (yScale e) (yAccessor d))
                   (set_attr "cx" (ANum <$> apply (xScale e) (xAccessor d))
                      (new_element (next_id w) "circle" None)))) in *.
    set (w' := mkWorld (dataset w) (page w) (tooltip w) (tooltip_text w)
                 (bounds w ++ [x]) (S (next_id w))) in *.
    destruct (IH w' Hwf) as [Hrun Hwf'].
    unfold w' in Hrun, Hwf'.
    cbn [dataset page tooltip tooltip_text bounds next_id] in Hrun, Hwf'.
    rewrite <- app_assoc in Hrun, Hwf'. cbn [app] in Hrun, Hwf'.
    cbn [looping length]. fold x.
    replace (next_id w + S (length D)) with (S (next_id w) + length D) by lia.
    split; [|exact Hwf'].
    rewrite <- Hrun. unfold Tutorial.draw_dots_forEach. cbn [Tutorial.forEach].
    unfold exec at 1. unfold mbind at 1. unfold M_bind at 1. rewrite Hy. reflexivity.
Qed.

(** X18.  The loop [dataset.forEach] over the records only appends: in a
    document with unique node identifiers each run adds one circle per
    record after the circles that are there, placed at the scaled dew point
    and humidity of the record, with radius 5, without fill and bound to no
    record; no circle is reused or removed, so that two runs leave two sets
    of dots at the same places. *)
Theorem loop_twice_draws_two_sets_of_dots (e : env) (D : list record) (w : world) :
  wf w →
  let w1 := exec (Tutorial.draw_dots_forEach e D) w in
  let w2 := exec (Tutorial.draw_dots_forEach e D) w1 in
  ∃ first second,
    marks w1 = marks w ++ first ∧
    marks w2 = marks w ++ first ++ second ∧
    Forall2 (looped e) first D ∧ Forall2 (looped e) second D.
Proof.
  intros Hw w1 w2.
  destruct (forEach_run e D w Hw) as [H1 Hwf1].
  set (W1 := mkWorld (dataset w) (page w) (tooltip w) (tooltip_text w)
               (bounds w ++ looping e (next_id w) D) (next_id w + length D)) in *.
  assert (Hw1 : w1 = W1) by exact H1. clearbody w1. subst w1.
  destruct (forEach_run e D W1 Hwf1) as [H2 _].
  assert (Hw2 : w2 = exec (Tutorial.draw_dots_forEach e D) W1) by reflexivity.
  rewrite H2 in Hw2. clearbody w2. subst w2.
  exists (looping e (next_id w) D), (looping e (next_id W1) D).
  unfold marks, W1. cbn [bounds].
  rewrite !filter_app, !(filter_all _ (looping _ _ _)) by apply looping_circles.
  split_and!; [done|by rewrite app_assoc|apply looping_looped|apply looping_looped].
Qed.

(** X18 on the drawn document of the scenario, which has two dots. *)
Lemma loop_twice_witness :
  wf drawn ∧
  (let w1 := exec (Tutorial.draw_dots_forEach drawn_env [january; june]) drawn in
   let w2 := exec (Tutorial.draw_dots_forEach drawn_env [january; june]) w1 in
   ∃ first second,
     marks w1 = marks drawn ++ first ∧
     marks w2 = marks drawn ++ first ++ second ∧
     Forall2 (looped drawn_env) first [january; june] ∧
     Forall2 (looped drawn_env) second [january; june]).
Proof.
  split; [exact drawn_wf|].
  exact (loop_twice_draws_two_sets_of_dots drawn_env [january; june] drawn drawn_wf).
Defined.
